(** * The fifteen puzzle: a shallow embedding of the [Puzzle] classes

    The repository holds two puzzle models:
    - [fifteen.js] (and its reformatted twin): the blank square's coordinates
      are cached in the object, and [slide] moves one tile next to the blank;
    - the later variant: no cache, the blank is looked up with [indexOf], and
      [slide] moves a whole line of tiles towards the blank.

    JavaScript numbers are modelled by [Z]: every number the classes compute is
    an integer below 2^53, so double arithmetic is exact.  [%] is the truncated
    remainder [Z.rem], [Math.floor(a / b)] the floored quotient [Z.div] (for a
    nonzero [b]; the classes divide by [size] only, and with a [size] of zero
    JavaScript computes [NaN], which the model does not follow: the results
    about coordinates assume a positive size).  Arrays of numbers are
    [list Z], read with stdpp's lookup and written with stdpp's insert. *)

From Stdlib Require Import Reals.
From stdpp Require Import base numbers list list_numbers strings.

Local Open Scope Z_scope.

(** ** Outcomes of a call

    A call either returns, or leaves what the model follows:
    - [RangeError]: [new Array(n)] with [n] above 2^32 - 1 throws;
    - [OutOfBounds]: an array access outside [0 .. length-1].  JavaScript reads
      [undefined] there and a write adds a property (growing the array when the
      index is past the end); a list of numbers holds neither, so the model
      stops;
    - [OutOfFuel]: a loop ran longer than the fuel given to it. *)

Inductive error : Type := RangeError | OutOfBounds | OutOfFuel.

Inductive result (A : Type) : Type :=
  | Ok (a : A)
  | Err (e : error).

Arguments Ok {A} a.
Arguments Err {A} e.

Definition result_bind {A B : Type} (m : result A) (k : A -> result B) : result B :=
  match m with
  | Ok a => k a
  | Err e => Err e
  end.

Notation "'do' x <- m ; k" := (result_bind m (fun x => k))
  (at level 10, x name, m at level 100, k at level 200).

(** ** Arrays *)

(** [arr[i]] for a number array. *)
Definition js_get (arr : list Z) (i : Z) : result Z :=
  if decide (0 <= i) then
    match arr !! Z.to_nat i with
    | Some v => Ok v
    | None => Err OutOfBounds
    end
  else Err OutOfBounds.

(** [arr[i] = v]. *)
Definition js_set (arr : list Z) (i : Z) (v : Z) : result (list Z) :=
  if decide (0 <= i < Z.of_nat (length arr)) then Ok (<[Z.to_nat i := v]> arr)
  else Err OutOfBounds.

(** [arr.indexOf(v)]: the first index holding [v], or [-1]. *)
Fixpoint indexOf_from (k : Z) (arr : list Z) (v : Z) : Z :=
  match arr with
  | [] => -1
  | x :: rest => if decide (x = v) then k else indexOf_from (k + 1) rest v
  end.

Definition indexOf (arr : list Z) (v : Z) : Z := indexOf_from 0 arr v.

(** [arr.filter((val, idx) => f(idx, val))], the index starting at [k]. *)
Fixpoint filter_from {A : Type} (f : nat -> A -> bool) (k : nat) (arr : list A) : list A :=
  match arr with
  | [] => []
  | x :: rest =>
      if f k x then x :: filter_from f (S k) rest else filter_from f (S k) rest
  end.

Definition ifilter {A : Type} (f : nat -> A -> bool) (arr : list A) : list A :=
  filter_from f 0%nat arr.

(** [arr.every((val, idx) => f(idx, val))], the index starting at [k]. *)
Fixpoint every_from {A : Type} (f : nat -> A -> bool) (k : nat) (arr : list A) : bool :=
  match arr with
  | [] => true
  | x :: rest => f k x && every_from f (S k) rest
  end.

Definition every {A : Type} (f : nat -> A -> bool) (arr : list A) : bool :=
  every_from f 0%nat arr.

(** The largest length [new Array(n)] accepts. *)
Definition MAX_ARRAY_LENGTH : Z := 4294967295.

(** ** The random source

    [Math.random()] is an oracle: [rnd k] is the [k]-th number it hands out,
    and the cursor [k] is threaded through the calls.
    [Math.floor(Math.random() * len)] is an index below [len]; the model takes
    the oracle's number modulo [len], so every index below [len] can come out
    and no other. *)

Definition random_source : Type := nat -> nat.

Definition random_index (rnd : random_source) (k : nat) (len : nat) : nat :=
  (rnd k mod len)%nat.

(** ** [shuffle(arr)]

    [while (arr.length)] takes one element out of [arr] per round, so the
    loop runs [arr.length] rounds: the fuel is the length.  The call empties
    the array it is given; its one caller, [randomize], replaces [this.board]
    by the result at once, and nothing else holds the old array
    ([solvedBoard] is a copy), so the model returns the new array only. *)

Fixpoint shuffle_loop (fuel : nat) (rnd : random_source) (k : nat)
    (arr shuffledArr : list Z) : list Z * nat :=
  match fuel with
  | O => (shuffledArr, k)
  | S fuel' =>
      if decide (length arr = 0%nat) then (shuffledArr, k)
      else
        let randomIndex := random_index rnd k (length arr) in
        shuffle_loop fuel' rnd (S k)
          (delete randomIndex arr)              (* arr.splice(randomIndex, 1) *)
          (shuffledArr ++ [arr !!! randomIndex]) (* shuffledArr.push(arr[randomIndex]) *)
  end.

Definition shuffle (rnd : random_source) (k : nat) (arr : list Z) : list Z * nat :=
  shuffle_loop (length arr) rnd k arr [].

(** ** What the two classes share *)

(** [_x], [_y], [_i]. *)
Definition coord_x (size i : Z) : Z := Z.rem i size.
Definition coord_y (size i : Z) : Z := Z.div i size.
Definition coord_i (size x y : Z) : Z := size * y + x.

(** [inversions()]: the same expression in every variant. *)
Definition count_inversions (size : Z) (board : list Z) : Z :=
  foldl (fun accum elem => accum + elem) 0
    (imap (fun idx1 val1 =>
             if decide (val1 = size * size - 1) then 0
             else Z.of_nat (length
                    (ifilter (fun idx2 val2 =>
                                bool_decide (idx1 < idx2)%nat && bool_decide (val2 < val1))
                             board)))
          board).

(** [board.every((tileVal, idx) => tileVal === reference[idx])]; past the end
    of [reference] the right-hand side is [undefined], equal to no number. *)
Definition equals_elementwise (board reference : list Z) : bool :=
  every (fun idx tileVal =>
           match reference !! idx with
           | Some v => bool_decide (tileVal = v)
           | None => false
           end) board.

(** ** [fifteen.js]: cached blank, single slides *)

Module Adjacent.

Record Puzzle : Type := mkPuzzle {
  size : Z;
  board : list Z;
  solvedBoard : list Z;
  _blank_val : Z;
  _blank_x : Z;
  _blank_y : Z
}.

(** [new Puzzle(size)]:
    [new Array(size*size).fill(undefined).map((_, i) => i)]. *)
Definition constructor (size : Z) : result Puzzle :=
  if decide (size * size <= MAX_ARRAY_LENGTH) then
    let board := imap (fun i _ => Z.of_nat i) (replicate (Z.to_nat (size * size)) tt) in
    Ok {| size := size;
          board := board;
          solvedBoard := board;   (* this.board.slice() *)
          _blank_val := size * size - 1;
          _blank_x := size - 1;
          _blank_y := size - 1 |}
  else Err RangeError.

Definition _x (p : Puzzle) (square : Z) : Z := coord_x (size p) square.
Definition _y (p : Puzzle) (square : Z) : Z := coord_y (size p) square.
Definition _i (p : Puzzle) (x y : Z) : Z := coord_i (size p) x y.

Definition inversions (p : Puzzle) : Z := count_inversions (size p) (board p).

Definition solvable (p : Puzzle) : bool :=
  (bool_decide (Z.rem (size p) 2 = 1) && bool_decide (Z.rem (inversions p) 2 = 0))
  || (bool_decide (Z.rem (size p) 2 = 0)
      && Bool.eqb (bool_decide (Z.rem (_blank_y p) 2 = 1))
                  (bool_decide (Z.rem (inversions p) 2 = 0))).

(** One round of the [do ... while] of [randomize]. *)
Definition randomize_round (rnd : random_source) (k : nat) (p : Puzzle) : Puzzle * nat :=
  let '(shuffled, k') := shuffle rnd k (board p) in
  let blank_pos := indexOf shuffled (_blank_val p) in
  ({| size := size p;
      board := shuffled;
      solvedBoard := solvedBoard p;
      _blank_val := _blank_val p;
      _blank_x := coord_x (size p) blank_pos;
      _blank_y := coord_y (size p) blank_pos |}, k').

(** [randomize()]: the fuel bounds the number of rounds. *)
Fixpoint randomize (fuel : nat) (rnd : random_source) (k : nat) (p : Puzzle)
    : result (Puzzle * nat) :=
  match fuel with
  | O => Err OutOfFuel
  | S fuel' =>
      let '(p', k') := randomize_round rnd k p in
      if solvable p' then Ok (p', k') else randomize fuel' rnd k' p'
  end.

(** The test of [slide]: [Math.sqrt(d) == 1] for the integer
    [d = dx**2 + dy**2]; the square root of an integer is 1 exactly when the
    integer is. *)
Definition legal (p : Puzzle) (id : Z) : bool :=
  bool_decide ((_x p id - _blank_x p) ^ 2 + (_y p id - _blank_y p) ^ 2 = 1).

(** [slide(id)]: the returned boolean and the puzzle after the call. *)
Definition slide (p : Puzzle) (id : Z) : result (bool * Puzzle) :=
  let square_x := _x p id in
  let square_y := _y p id in
  if legal p id then
    do tile <- js_get (board p) id;
    do board1 <- js_set (board p) (_i p (_blank_x p) (_blank_y p)) tile;
    do board2 <- js_set board1 id (_blank_val p);
    Ok (true, {| size := size p;
                 board := board2;
                 solvedBoard := solvedBoard p;
                 _blank_val := _blank_val p;
                 _blank_x := square_x;
                 _blank_y := square_y |})
  else Ok (false, p).

Definition solved (p : Puzzle) : bool := equals_elementwise (board p) (solvedBoard p).

(** A board position. *)
Definition position (p : Puzzle) (id : Z) : Prop := 0 <= id < size p * size p.

(** The states the engine reaches: construction, then calls of [slide] and
    [randomize] that return. *)
Inductive reachable (n : Z) : Puzzle -> Prop :=
  | reach_new p :
      constructor n = Ok p -> reachable n p
  | reach_slide p id moved p' :
      reachable n p -> slide p id = Ok (moved, p') ->
      reachable n p'
  | reach_randomize p fuel rnd k p' k' :
      reachable n p -> randomize fuel rnd k p = Ok (p', k') ->
      reachable n p'.

(** The class comment's invariant: the board is a permutation of
    [0 .. size*size-1], the largest number is the blank, and the cached
    coordinates point at it. *)
Definition wf (p : Puzzle) : Prop :=
  0 < size p /\
  board p ≡ₚ seqZ 0 (size p * size p) /\
  solvedBoard p = seqZ 0 (size p * size p) /\
  _blank_val p = size p * size p - 1 /\
  0 <= _blank_x p < size p /\
  0 <= _blank_y p < size p /\
  board p !! Z.to_nat (_i p (_blank_x p) (_blank_y p)) = Some (_blank_val p).

(** The index the cached coordinates name. *)
Definition blank_index (p : Puzzle) : Z := _i p (_blank_x p) (_blank_y p).

(** [id] is next to the blank in its row or in its column. *)
Definition orthogonally_adjacent (p : Puzzle) (id : Z) : Prop :=
  (_x p id = _blank_x p /\ Z.abs (_y p id - _blank_y p) = 1) \/
  (_y p id = _blank_y p /\ Z.abs (_x p id - _blank_x p) = 1).

End Adjacent.

(** ** The later variant: no cache, chain slides *)

Module Chain.

Record Puzzle : Type := mkPuzzle {
  size : Z;
  board : list Z;
  blank_val : Z
}.

(** [new Puzzle(size)]: [[...Array(size*size).keys()]]. *)
Definition constructor (size : Z) : result Puzzle :=
  if decide (size * size <= MAX_ARRAY_LENGTH) then
    Ok {| size := size;
          board := seqZ 0 (size * size);
          blank_val := size * size - 1 |}
  else Err RangeError.

Definition _x (p : Puzzle) (i : Z) : Z := coord_x (size p) i.
Definition _y (p : Puzzle) (i : Z) : Z := coord_y (size p) i.
Definition _i (p : Puzzle) (x y : Z) : Z := coord_i (size p) x y.

Definition _blank_i (p : Puzzle) : Z := indexOf (board p) (blank_val p).

Definition with_board (p : Puzzle) (b : list Z) : Puzzle :=
  {| size := size p; board := b; blank_val := blank_val p |}.

Definition inversions (p : Puzzle) : Z := count_inversions (size p) (board p).

Definition solvable (p : Puzzle) : bool :=
  (bool_decide (Z.rem (size p) 2 = 1) && bool_decide (Z.rem (inversions p) 2 = 0))
  || (bool_decide (Z.rem (size p) 2 = 0)
      && Bool.eqb (bool_decide (Z.rem (_y p (_blank_i p)) 2 = 1))
                  (bool_decide (Z.rem (inversions p) 2 = 0))).

Definition randomize_round (rnd : random_source) (k : nat) (p : Puzzle) : Puzzle * nat :=
  let '(shuffled, k') := shuffle rnd k (board p) in
  (with_board p shuffled, k').

Fixpoint randomize (fuel : nat) (rnd : random_source) (k : nat) (p : Puzzle)
    : result (Puzzle * nat) :=
  match fuel with
  | O => Err OutOfFuel
  | S fuel' =>
      let '(p', k') := randomize_round rnd k p in
      if solvable p' then Ok (p', k') else randomize fuel' rnd k' p'
  end.

(** [_swap(i1, i2)]: both reads come before both writes. *)
Definition _swap (b : list Z) (i1 i2 : Z) : result (list Z) :=
  do v2 <- js_get b i2;
  do v1 <- js_get b i1;
  do b1 <- js_set b i1 v2;
  js_set b1 i2 v1.

(** [while (j > i) { this._swap(j, j - step); j -= step; }] *)
Fixpoint while_gt (fuel : nat) (step i j : Z) (b : list Z) : result (list Z) :=
  if decide (j > i) then
    match fuel with
    | O => Err OutOfFuel
    | S fuel' => do b1 <- _swap b j (j - step); while_gt fuel' step i (j - step) b1
    end
  else Ok b.

(** [while (j < i) { this._swap(j, j + step); j += step; }] *)
Fixpoint while_lt (fuel : nat) (step i j : Z) (b : list Z) : result (list Z) :=
  if decide (j < i) then
    match fuel with
    | O => Err OutOfFuel
    | S fuel' => do b1 <- _swap b j (j + step); while_lt fuel' step i (j + step) b1
    end
  else Ok b.

(** [n] rounds of either loop, seen from the blank: the blank at [j] trades
    places with its neighbour at [j + d], [n] times over. *)
Fixpoint walk (n : nat) (d j : Z) (b : list Z) : result (list Z) :=
  match n with
  | O => Ok b
  | S n' => do b1 <- _swap b j (j + d); walk n' d (j + d) b1
  end.

(** The blank travels from [blank_i] to [i] in steps of [step]; with a
    positive [step] that is at most [|blank_i - i|] rounds, the fuel. *)
Definition move_blank (p : Puzzle) (step i blank_i : Z) : result (bool * Puzzle) :=
  let j := blank_i in
  let fuel := Z.to_nat (Z.abs (blank_i - i)) in
  if decide (blank_i > i) then
    do b <- while_gt fuel step i j (board p); Ok (true, with_board p b)
  else if decide (blank_i < i) then
    do b <- while_lt fuel step i j (board p); Ok (true, with_board p b)
  else Ok (true, p).

(** [slide(i)]: the vertical move steps by [size], the horizontal by 1. *)
Definition slide (p : Puzzle) (i : Z) : result (bool * Puzzle) :=
  let x := _x p i in
  let y := _y p i in
  let blank_i := _blank_i p in
  let blank_x := _x p blank_i in
  let blank_y := _y p blank_i in
  if decide (x = blank_x /\ y = blank_y) then Ok (false, p)
  else if decide (x = blank_x) then move_blank p (size p) i blank_i
  else if decide (y = blank_y) then move_blank p 1 i blank_i
  else Ok (false, p).

Definition solved (p : Puzzle) : bool :=
  let solvedState := seqZ 0 (size p * size p) in
  equals_elementwise (board p) solvedState.

Definition position (p : Puzzle) (i : Z) : Prop := 0 <= i < size p * size p.

Inductive reachable (n : Z) : Puzzle -> Prop :=
  | reach_new p :
      constructor n = Ok p -> reachable n p
  | reach_slide p i moved p' :
      reachable n p -> slide p i = Ok (moved, p') ->
      reachable n p'
  | reach_randomize p fuel rnd k p' k' :
      reachable n p -> randomize fuel rnd k p = Ok (p', k') ->
      reachable n p'.

Definition wf (p : Puzzle) : Prop :=
  0 < size p /\
  board p ≡ₚ seqZ 0 (size p * size p) /\
  blank_val p = size p * size p - 1.

(** The move is legal: [i] is in the blank's row or column and is not the
    blank's own square. *)
Definition in_line_with_blank (p : Puzzle) (i : Z) : Prop :=
  (_x p i = _x p (_blank_i p) \/ _y p i = _y p (_blank_i p)) /\ i <> _blank_i p.

(** One cell from [i] towards the blank, as a difference of indexes. *)
Definition toward_blank (p : Puzzle) (i : Z) : Z :=
  let step := if decide (_x p i = _x p (_blank_i p)) then size p else 1 in
  if decide (_blank_i p > i) then step else - step.

(** [p'] is [p] after the line from [i] to the blank moved one cell in
    direction [d]: the blank is [m] cells away from [i]; the [m] tiles from
    [i] on each sit one cell further; the blank sits at [i]; nothing else
    moved. *)
Definition shifted_along (d : Z) (p : Puzzle) (i : Z) (p' : Puzzle) : Prop :=
  size p' = size p /\ blank_val p' = blank_val p /\
  exists m : Z,
    1 <= m /\ _blank_i p = i + m * d /\
    (forall t, 0 <= t < m ->
       board p' !! Z.to_nat (i + (t + 1) * d) = board p !! Z.to_nat (i + t * d)) /\
    board p' !! Z.to_nat i = Some (blank_val p) /\
    _blank_i p' = i /\
    (forall k : nat,
       (forall t, 0 <= t <= m -> Z.of_nat k <> i + t * d) ->
       board p' !! k = board p !! k).

Definition line_shifted (p : Puzzle) (i : Z) (p' : Puzzle) : Prop :=
  shifted_along (toward_blank p i) p i p'.

End Chain.

(** ** Vocabulary of the specification *)

(** The distance of the specification, over the reals; [slide] compares it
    with 1. *)
Definition euclidean_distance (x1 y1 x2 y2 : Z) : R :=
  sqrt (IZR ((x1 - x2) ^ 2 + (y1 - y2) ^ 2)).

(** Every identifier below [n * n] sits at exactly one index of [b], and [b]
    holds nothing else. *)
Definition holds_each_once (n : Z) (b : list Z) : Prop :=
  length b = Z.to_nat (n * n) /\
  forall v, 0 <= v < n * n ->
    exists i : nat, b !! i = Some v /\ forall j : nat, b !! j = Some v -> j = i.

(** ** The even-size rule as the specification words it

    The specification counts the blank's row from the bottom edge starting at
    zero ([size - 1 - y]); the page the code cites counts it starting at one
    ([size - y]). *)

Definition row_from_bottom_zero_based (size y : Z) : Z := size - 1 - y.
Definition row_from_bottom_one_based (size y : Z) : Z := size - y.

Definition spec_even_rule (size y inversions : Z) : bool :=
  Bool.eqb (Z.odd (row_from_bottom_zero_based size y)) (Z.even inversions).

Definition cited_even_rule (size y inversions : Z) : bool :=
  Bool.eqb (Z.odd (row_from_bottom_one_based size y)) (Z.even inversions).

(** ** Inversions, counted the classic way *)

(** The number of entries of [rest] below [x]. *)
Definition smaller_in (x : Z) (rest : list Z) : Z :=
  Z.of_nat (length (filter (fun y => y < x) rest)).

(** What [inversions()] adds up, read front to back: each entry but the
    blank contributes the smaller entries after it. *)
Fixpoint inversions_from (blank : Z) (l : list Z) : Z :=
  match l with
  | [] => 0
  | x :: rest => (if decide (x = blank) then 0 else smaller_in x rest) + inversions_from blank rest
  end.

(** The inversion count of a list of tiles: for each tile, the later tiles
    that are smaller. *)
Fixpoint tile_inversions (l : list Z) : Z :=
  match l with
  | [] => 0
  | x :: rest => smaller_in x rest + tile_inversions rest
  end.

(** The board without the blank. *)
Definition without_blank (blank : Z) (board : list Z) : list Z :=
  filter (fun v => v <> blank) board.

(** The classic count: the inversions among the tiles, the blank left out of
    both sides of every pair. *)
Definition classic_inversions (blank : Z) (board : list Z) : Z :=
  tile_inversions (without_blank blank board).

(** The pairs [(x, y)], [x] from [l1] and [y] from [l2], with [y < x]. *)
Fixpoint cross_inversions (l1 l2 : list Z) : Z :=
  match l1 with
  | [] => 0
  | x :: rest => smaller_in x l2 + cross_inversions rest l2
  end.

(** The expression of [solvable()], as a function of the size, the blank's
    row and the inversion count. *)
Definition solvable_rule (size y inv : Z) : bool :=
  (bool_decide (Z.rem size 2 = 1) && bool_decide (Z.rem inv 2 = 0))
  || (bool_decide (Z.rem size 2 = 0)
      && Bool.eqb (bool_decide (Z.rem y 2 = 1)) (bool_decide (Z.rem inv 2 = 0))).

(** ** The display of the later variant

    [PuzzleDisplay] keeps, for every tile value [val], a container div
    [squares[val]]; the one attribute of the div the puzzle logic reads back
    is its CSS [order], the board position the tile is drawn at.  The model
    keeps that attribute: [squares d !! val] is [squares[val].style.order].
    (The attribute holds the number as a string; the arithmetic and the
    comparisons of [slide] turn it back into the number.)  Styling and the
    alert are left to the browser. *)

Module Display.

Record PuzzleDisplay : Type := mkDisplay {
  puzzle : Chain.Puzzle;
  squares : list Z
}.

(** [arr[i] = v] on an array that may grow by one: inside the array the entry
    is replaced, at its end the array grows; further out JavaScript leaves
    holes, which the list model does not follow. *)
Definition js_put (arr : list Z) (i v : Z) : result (list Z) :=
  if decide (0 <= i < Z.of_nat (length arr)) then Ok (<[Z.to_nat i := v]> arr)
  else if decide (i = Z.of_nat (length arr)) then Ok (arr ++ [v])
  else Err OutOfBounds.

(** The loop of the constructor:
    [for (let squareId of puzzle.board) { div.style.order = squareId;
    this.squares[squareId] = div; }]. *)
Fixpoint build_squares (board : list Z) (squares : list Z) : result (list Z) :=
  match board with
  | [] => Ok squares
  | squareId :: rest => do sq <- js_put squares squareId squareId; build_squares rest sq
  end.

Definition constructor (p : Chain.Puzzle) : result PuzzleDisplay :=
  do sq <- build_squares (Chain.board p) [];
  Ok {| puzzle := p; squares := sq |}.

(** The loop of [updateDisplay()], from index [i] on:
    [this.squares[val].style.order = i].  When [squares[val]] is
    [undefined] JavaScript throws; the model stops with [OutOfBounds]. *)
Fixpoint update_from (i : nat) (vals : list Z) (squares : list Z) : result (list Z) :=
  match vals with
  | [] => Ok squares
  | val :: rest => do sq <- js_set squares val (Z.of_nat i); update_from (S i) rest sq
  end.

Definition updateDisplay (p : Chain.Puzzle) (squares : list Z) : result (list Z) :=
  update_from 0 (Chain.board p) squares.

(** [move(div)] for the div of tile [val]: the display after the call, and
    whether the congratulation is scheduled. *)
Definition move (d : PuzzleDisplay) (val : Z) : result (PuzzleDisplay * bool) :=
  do order <- js_get (squares d) val;
  do r <- Chain.slide (puzzle d) order;
  if r.1 then
    do sq <- updateDisplay r.2 (squares d);
    Ok ({| puzzle := r.2; squares := sq |}, Chain.solved r.2)
  else Ok ({| puzzle := r.2; squares := squares d |}, false).

(** [randomize()] of the display. *)
Definition randomize (fuel : nat) (rnd : random_source) (k : nat) (d : PuzzleDisplay)
    : result (PuzzleDisplay * nat) :=
  do r <- Chain.randomize fuel rnd k (puzzle d);
  do sq <- updateDisplay r.1 (squares d);
  Ok ({| puzzle := r.1; squares := sq |}, r.2).

(** Every tile is drawn at the position where the board holds it. *)
Definition in_sync (d : PuzzleDisplay) : Prop :=
  length (squares d) = length (Chain.board (puzzle d)) /\
  forall (i : nat) (val : Z),
    Chain.board (puzzle d) !! i = Some val ->
    0 <= val /\ squares d !! Z.to_nat val = Some (Z.of_nat i).

End Display.

(** ** [redWhiteStyle]

    The class name the function gives the tile's div, and the text it writes
    (the number [tileId + 1]). *)
Definition redWhiteStyle (size tileId : Z) : string * Z :=
  (if decide (Z.rem size 2 = 0) then
     if decide (Z.rem (tileId + coord_y size tileId) 2 = 0)
     then "square tile red"%string else "square tile white"%string
   else
     if decide (Z.rem tileId 2 = 0)
     then "square tile red"%string else "square tile white"%string,
   tileId + 1).

(** ** Boards the examples run on *)

(** What [new Puzzle(2)] and [new Puzzle(3)] build. *)
Definition adj_start_2 : Adjacent.Puzzle :=
  Adjacent.mkPuzzle 2 [0; 1; 2; 3] [0; 1; 2; 3] 3 1 1.

Definition adj_start_3 : Adjacent.Puzzle :=
  Adjacent.mkPuzzle 3 [0; 1; 2; 3; 4; 5; 6; 7; 8] [0; 1; 2; 3; 4; 5; 6; 7; 8] 8 2 2.

Definition chain_start_2 : Chain.Puzzle := Chain.mkPuzzle 2 [0; 1; 2; 3] 3.

Definition chain_start_3 : Chain.Puzzle :=
  Chain.mkPuzzle 3 [0; 1; 2; 3; 4; 5; 6; 7; 8] 8.

(** The 2x2 engines after [slide(2)], and after a [randomize()] that follows. *)
Definition adj_slid_2 : Adjacent.Puzzle :=
  Adjacent.mkPuzzle 2 [0; 1; 3; 2] [0; 1; 2; 3] 3 0 1.

Definition adj_shuffled_2 : Adjacent.Puzzle :=
  Adjacent.mkPuzzle 2 [1; 2; 3; 0] [0; 1; 2; 3] 3 0 1.

Definition chain_slid_2 : Chain.Puzzle := Chain.mkPuzzle 2 [0; 1; 3; 2] 3.

Definition chain_shuffled_2 : Chain.Puzzle := Chain.mkPuzzle 2 [1; 2; 3; 0] 3.

(** An oracle: its [k]-th number is [k*k + 1]. *)
Definition square_source : random_source := fun k => (k * k + 1)%nat.

(** * Results *)

(** ** Running the models *)

Example adjacent_new_2 :
  Adjacent.constructor 2 =
    Ok (Adjacent.mkPuzzle 2 [0; 1; 2; 3] [0; 1; 2; 3] 3 1 1).
Proof. reflexivity. Qed.

Example adjacent_slide_2 :
  Adjacent.slide (Adjacent.mkPuzzle 2 [0; 1; 2; 3] [0; 1; 2; 3] 3 1 1) 2 =
    Ok (true, Adjacent.mkPuzzle 2 [0; 1; 3; 2] [0; 1; 2; 3] 3 0 1).
Proof. reflexivity. Qed.

Example chain_slide_column :
  Chain.slide (Chain.mkPuzzle 3 [0; 1; 2; 3; 4; 5; 6; 7; 8] 8) 2 =
    Ok (true, Chain.mkPuzzle 3 [0; 1; 8; 3; 4; 2; 6; 7; 5] 8).
Proof. reflexivity. Qed.

(** ** Outcomes *)

Lemma bind_Ok {A B : Type} (m : result A) (k : A -> result B) (b : B) :
  result_bind m k = Ok b <-> exists a, m = Ok a /\ k a = Ok b.
Proof.
  destruct m as [a|e]; simpl; split.
  - intros H; exists a; auto.
  - intros (a' & Ha & Hk); congruence.
  - discriminate.
  - intros (a' & Ha & _); discriminate.
Qed.

(** ** Arrays *)

Lemma js_get_Ok (arr : list Z) (i v : Z) :
  js_get arr i = Ok v <-> 0 <= i /\ arr !! Z.to_nat i = Some v.
Proof.
  unfold js_get. case_decide.
  - destruct (arr !! Z.to_nat i) eqn:E; split; intros H1; try discriminate.
    + split; [done | congruence].
    + destruct H1 as [_ H1]; congruence.
    + destruct H1 as [_ H1]; discriminate.
  - split; [discriminate | intros [? _]; lia].
Qed.

Lemma js_set_Ok (arr : list Z) (i v : Z) (arr' : list Z) :
  js_set arr i v = Ok arr' <->
  0 <= i < Z.of_nat (length arr) /\ arr' = <[Z.to_nat i := v]> arr.
Proof.
  unfold js_set. case_decide; split; intros H1.
  - split; [done | congruence].
  - destruct H1 as [_ ->]; done.
  - discriminate.
  - destruct H1 as [? _]; lia.
Qed.

(** Writing two entries crosswise permutes the array. *)
Lemma insert_crosswise_Permutation (l : list Z) (i j : nat) (x y : Z) :
  l !! i = Some x -> l !! j = Some y ->
  <[j := x]> (<[i := y]> l) ≡ₚ l.
Proof.
  intros Hi Hj. apply Permutation_inj. split.
  - by rewrite !length_insert.
  - exists (fun n => if decide (n = i) then j else if decide (n = j) then i else n).
    split.
    + intros a b. repeat case_decide; intros; subst; congruence.
    + intros n.
      pose proof (lookup_lt_Some _ _ _ Hi). pose proof (lookup_lt_Some _ _ _ Hj).
      destruct (decide (n = j)) as [->|Hnj].
      * rewrite list_lookup_insert_eq by (rewrite length_insert; lia).
        destruct (decide (j = i)) as [->|]; [congruence | done].
      * rewrite list_lookup_insert_ne by done.
        destruct (decide (n = i)) as [->|Hni].
        -- by rewrite list_lookup_insert_eq.
        -- by rewrite list_lookup_insert_ne.
Qed.

(** [indexOf] finds the first index of a value the array holds. *)
Lemma indexOf_from_elem (arr : list Z) (v k : Z) :
  v ∈ arr ->
  exists i : nat,
    indexOf_from k arr v = k + Z.of_nat i /\ arr !! i = Some v /\
    forall j : nat, (j < i)%nat -> arr !! j <> Some v.
Proof.
  revert k. induction arr as [|x rest IH]; intros k Hin.
  - by apply elem_of_nil in Hin.
  - simpl. case_decide as Hx.
    + exists 0%nat. subst x. repeat split; [lia | intros j Hj; lia].
    + apply elem_of_cons in Hin as [->|Hin]; [done|].
      destruct (IH (k + 1) Hin) as (i & Hi & Hl & Hfirst).
      exists (S i). repeat split; [lia | done |].
      intros [|j] Hj; simpl; [congruence | apply Hfirst; lia].
Qed.

Lemma indexOf_from_absent (arr : list Z) (v k : Z) :
  v ∉ arr -> indexOf_from k arr v = -1.
Proof.
  revert k. induction arr as [|x rest IH]; intros k Hin; [done|].
  simpl. apply not_elem_of_cons in Hin as [Hx Hin].
  case_decide; [congruence | by apply IH].
Qed.

Lemma indexOf_elem (arr : list Z) (v : Z) :
  v ∈ arr ->
  0 <= indexOf arr v < Z.of_nat (length arr) /\
  arr !! Z.to_nat (indexOf arr v) = Some v.
Proof.
  intros Hin. destruct (indexOf_from_elem arr v 0 Hin) as (i & Hi & Hl & _).
  unfold indexOf. rewrite Hi, Z.add_0_l, Nat2Z.id.
  apply lookup_lt_Some in Hl as Hlen. split; [lia | done].
Qed.

(** In an array without repetition, [indexOf] is the inverse of reading. *)
Lemma indexOf_lookup (arr : list Z) (i : nat) (v : Z) :
  NoDup arr -> arr !! i = Some v -> indexOf arr v = Z.of_nat i.
Proof.
  intros Hnd Hi.
  destruct (indexOf_elem arr v) as [Hr Hl]; [by eapply list_elem_of_lookup_2|].
  pose proof (NoDup_lookup _ _ _ _ Hnd Hi Hl). lia.
Qed.

(** ** The identity board *)

Lemma imap_index_replicate (n : nat) :
  imap (fun i (_ : unit) => Z.of_nat i) (replicate n tt) = seqZ 0 (Z.of_nat n).
Proof.
  apply list_eq; intros i. rewrite list_lookup_imap.
  destruct (decide (i < n)%nat) as [Hlt|Hge].
  - rewrite lookup_replicate_2 by done. rewrite lookup_seqZ_lt by lia. simpl. f_equal; lia.
  - rewrite (proj1 (lookup_replicate_None n tt i)) by lia.
    rewrite lookup_seqZ_ge by lia. done.
Qed.

Lemma lookup_identity (n : Z) (i : nat) :
  Z.of_nat i < n -> seqZ 0 n !! i = Some (Z.of_nat i).
Proof. intros. rewrite lookup_seqZ_lt by done. f_equal; lia. Qed.

Lemma every_from_identity (n : Z) (k : nat) (l : list Z) :
  (forall i x, l !! i = Some x -> seqZ 0 n !! (k + i)%nat = Some x) ->
  every_from (fun idx tileVal =>
                match seqZ 0 n !! idx with
                | Some v => bool_decide (tileVal = v)
                | None => false
                end) k l = true.
Proof.
  revert k. induction l as [|x l IH]; intros k H; [done|].
  simpl. rewrite <- (Nat.add_0_r k) at 1. rewrite (H 0%nat x eq_refl).
  rewrite bool_decide_eq_true_2 by done. simpl. apply IH.
  intros i y Hy. replace (S k + i)%nat with (k + S i)%nat by lia. by apply H.
Qed.

Lemma equals_elementwise_refl (n : Z) :
  equals_elementwise (seqZ 0 n) (seqZ 0 n) = true.
Proof. apply every_from_identity. by intros i x. Qed.

(** ** [shuffle] permutes *)

Lemma shuffle_loop_Permutation (fuel : nat) (rnd : random_source) (k : nat)
    (arr acc : list Z) :
  length arr = fuel ->
  (shuffle_loop fuel rnd k arr acc).1 ≡ₚ acc ++ arr.
Proof.
  revert k arr acc. induction fuel as [|fuel IH]; intros k arr acc Hlen.
  - apply nil_length_inv in Hlen as ->. simpl. by rewrite app_nil_r.
  - simpl. case_decide as Hz; [lia|].
    set (ri := random_index rnd k (length arr)).
    assert (ri < length arr)%nat as Hri by (apply Nat.mod_upper_bound; lia).
    destruct (lookup_lt_is_Some_2 arr ri Hri) as [v Hv].
    rewrite (list_lookup_total_correct _ _ _ Hv).
    rewrite IH by (rewrite length_delete by eauto; lia).
    rewrite <- app_assoc. simpl.
    by rewrite <- (delete_Permutation arr ri v Hv).
Qed.

Lemma shuffle_Permutation (rnd : random_source) (k : nat) (arr : list Z) :
  (shuffle rnd k arr).1 ≡ₚ arr.
Proof. unfold shuffle. by rewrite shuffle_loop_Permutation. Qed.

(** ** Coordinates *)

Section Coordinates.
Variable size : Z.
Hypothesis size_pos : 0 < size.

Lemma coord_x_range (i : Z) : 0 <= i -> 0 <= coord_x size i < size.
Proof.
  intros. unfold coord_x. rewrite Z.rem_mod_nonneg by lia.
  apply Z.mod_pos_bound; lia.
Qed.

Lemma coord_y_range (i : Z) : 0 <= i < size * size -> 0 <= coord_y size i < size.
Proof.
  intros. unfold coord_y. split.
  - apply Z.div_pos; lia.
  - apply Z.div_lt_upper_bound; lia.
Qed.

(** The round trip index -> coordinates -> index. *)
Lemma coord_i_x_y (i : Z) :
  0 <= i -> coord_i size (coord_x size i) (coord_y size i) = i.
Proof.
  intros. unfold coord_i, coord_x, coord_y. rewrite Z.rem_mod_nonneg by lia.
  symmetry. apply Z.div_mod. lia.
Qed.

Lemma coord_i_range (x y : Z) :
  0 <= x < size -> 0 <= y < size -> 0 <= coord_i size x y < size * size.
Proof. unfold coord_i. nia. Qed.

Lemma coord_x_i (x y : Z) :
  0 <= x < size -> 0 <= y -> coord_x size (coord_i size x y) = x.
Proof.
  intros. unfold coord_x, coord_i. rewrite Z.rem_mod_nonneg by nia.
  rewrite Z.add_comm, Z.mul_comm, Z.mod_add by lia. apply Z.mod_small; lia.
Qed.

Lemma coord_y_i (x y : Z) :
  0 <= x < size -> 0 <= y -> coord_y size (coord_i size x y) = y.
Proof.
  intros. unfold coord_y, coord_i.
  rewrite Z.add_comm, Z.mul_comm, Z.div_add by lia.
  rewrite Z.div_small by lia. lia.
Qed.

(** Two indexes with the same coordinates are the same index. *)
Lemma coord_inj (i j : Z) :
  0 <= i -> 0 <= j ->
  coord_x size i = coord_x size j -> coord_y size i = coord_y size j -> i = j.
Proof.
  intros Hi Hj Hx Hy.
  rewrite <- (coord_i_x_y i Hi), <- (coord_i_x_y j Hj). by rewrite Hx, Hy.
Qed.

End Coordinates.

(** ** Boards that are permutations of the identity *)

Section IdentityPermutation.
Variables (b : list Z) (n : Z).
Hypothesis b_perm : b ≡ₚ seqZ 0 n.

Lemma perm_identity_length : length b = Z.to_nat n.
Proof. by rewrite b_perm, length_seqZ. Qed.

Lemma perm_identity_NoDup : NoDup b.
Proof. rewrite b_perm. apply NoDup_seqZ. Qed.

Lemma perm_identity_elem (v : Z) : v ∈ b <-> 0 <= v < n.
Proof. rewrite b_perm, elem_of_seqZ. lia. Qed.

(** Each identifier occurs exactly once. *)
Lemma perm_identity_once (v : Z) :
  0 <= v < n -> exists i : nat, b !! i = Some v /\ forall j, b !! j = Some v -> j = i.
Proof.
  intros Hv. apply perm_identity_elem, list_elem_of_lookup_1 in Hv as [i Hi].
  exists i. split; [done|]. intros j Hj.
  by apply (NoDup_lookup b j i v perm_identity_NoDup).
Qed.

End IdentityPermutation.

(** ** [fifteen.js]: the invariant *)

Lemma adj_constructor_Ok (n : Z) :
  n * n <= MAX_ARRAY_LENGTH ->
  Adjacent.constructor n =
    Ok (Adjacent.mkPuzzle n (seqZ 0 (n * n)) (seqZ 0 (n * n)) (n * n - 1) (n - 1) (n - 1)).
Proof.
  intros Hn. unfold Adjacent.constructor. rewrite decide_True by done.
  rewrite imap_index_replicate, Z2Nat.id by nia. done.
Qed.

Lemma adj_constructor_inv (n : Z) (p : Adjacent.Puzzle) :
  Adjacent.constructor n = Ok p ->
  n * n <= MAX_ARRAY_LENGTH /\
  p = Adjacent.mkPuzzle n (seqZ 0 (n * n)) (seqZ 0 (n * n)) (n * n - 1) (n - 1) (n - 1).
Proof.
  intros H. destruct (decide (n * n <= MAX_ARRAY_LENGTH)) as [Hn|Hn].
  - rewrite adj_constructor_Ok in H by done. split; [done | congruence].
  - unfold Adjacent.constructor in H. rewrite decide_False in H by done. discriminate.
Qed.

Lemma adj_wf_constructor (n : Z) (p : Adjacent.Puzzle) :
  0 < n -> Adjacent.constructor n = Ok p -> Adjacent.wf p.
Proof.
  intros Hn [_ ->]%adj_constructor_inv. unfold Adjacent.wf, Adjacent._i, coord_i. simpl.
  repeat split; try lia; try done.
  replace (n * (n - 1) + (n - 1)) with (Z.of_nat (Z.to_nat (n * n - 1))) by nia.
  rewrite Nat2Z.id, lookup_identity by nia. f_equal. nia.
Qed.

Lemma adj_wf_length (p : Adjacent.Puzzle) :
  Adjacent.wf p ->
  Z.of_nat (length (Adjacent.board p)) = Adjacent.size p * Adjacent.size p.
Proof.
  intros (Hs & Hperm & _). rewrite (perm_identity_length _ _ Hperm). nia.
Qed.

(** The cached coordinates are those of the one index holding the blank. *)
Lemma adj_wf_blank (p : Adjacent.Puzzle) :
  Adjacent.wf p ->
  let blank_i := Adjacent._i p (Adjacent._blank_x p) (Adjacent._blank_y p) in
  0 <= blank_i < Adjacent.size p * Adjacent.size p /\
  indexOf (Adjacent.board p) (Adjacent._blank_val p) = blank_i /\
  Adjacent._x p blank_i = Adjacent._blank_x p /\
  Adjacent._y p blank_i = Adjacent._blank_y p.
Proof.
  intros (Hs & Hperm & _ & _ & Hx & Hy & Hb). simpl.
  unfold Adjacent._i, Adjacent._x, Adjacent._y in *.
  assert (0 <= coord_i (Adjacent.size p) (Adjacent._blank_x p) (Adjacent._blank_y p)
          < Adjacent.size p * Adjacent.size p) as Hr by (apply coord_i_range; lia).
  repeat split; try lia.
  - rewrite (indexOf_lookup _ _ _ (perm_identity_NoDup _ _ Hperm) Hb). lia.
  - apply coord_x_i; lia.
  - apply coord_y_i; lia.
Qed.

Lemma adj_legal_adjacent (p : Adjacent.Puzzle) (id : Z) :
  Adjacent.legal p id = true <-> Adjacent.orthogonally_adjacent p id.
Proof.
  unfold Adjacent.legal, Adjacent.orthogonally_adjacent.
  rewrite bool_decide_eq_true. nia.
Qed.

Lemma adj_slide_illegal (p : Adjacent.Puzzle) (id : Z) :
  Adjacent.legal p id = false -> Adjacent.slide p id = Ok (false, p).
Proof. intros H. unfold Adjacent.slide. by rewrite H. Qed.

Lemma adj_slide_legal (p : Adjacent.Puzzle) (id : Z) :
  Adjacent.wf p -> Adjacent.position p id -> Adjacent.legal p id = true ->
  exists tile,
    Adjacent.board p !! Z.to_nat id = Some tile /\
    Adjacent.slide p id =
      Ok (true,
          Adjacent.mkPuzzle (Adjacent.size p)
            (<[Z.to_nat id := Adjacent._blank_val p]>
               (<[Z.to_nat (Adjacent._i p (Adjacent._blank_x p) (Adjacent._blank_y p)) := tile]>
                  (Adjacent.board p)))
            (Adjacent.solvedBoard p) (Adjacent._blank_val p)
            (Adjacent._x p id) (Adjacent._y p id)).
Proof.
  intros Hwf Hpos Hlegal.
  pose proof (adj_wf_length p Hwf) as Hlen.
  destruct (adj_wf_blank p Hwf) as (Hb & _).
  unfold Adjacent.position in Hpos.
  destruct (lookup_lt_is_Some_2 (Adjacent.board p) (Z.to_nat id)) as [tile Ht]; [lia|].
  exists tile. split; [done|].
  unfold Adjacent.slide, js_get, js_set. rewrite Hlegal.
  rewrite decide_True by lia. rewrite Ht. simpl.
  rewrite decide_True by lia. simpl.
  rewrite decide_True by (rewrite length_insert; lia). done.
Qed.

(** A slide that returns [true] was asked for a board position. *)
Lemma adj_slide_true_position (p : Adjacent.Puzzle) (id : Z) (p' : Adjacent.Puzzle) :
  Adjacent.wf p -> Adjacent.slide p id = Ok (true, p') ->
  Adjacent.legal p id = true /\ Adjacent.position p id.
Proof.
  intros Hwf Hslide. pose proof (adj_wf_length p Hwf) as Hlen.
  unfold Adjacent.slide in Hslide.
  destruct (Adjacent.legal p id); [|discriminate]. split; [done|].
  apply bind_Ok in Hslide as (tile & [? Ht]%js_get_Ok & _).
  apply lookup_lt_Some in Ht. unfold Adjacent.position. lia.
Qed.

Lemma adj_wf_slide (p : Adjacent.Puzzle) (id : Z) (moved : bool) (p' : Adjacent.Puzzle) :
  Adjacent.wf p -> Adjacent.slide p id = Ok (moved, p') -> Adjacent.wf p'.
Proof.
  intros Hwf Hslide. destruct moved.
  - destruct (adj_slide_true_position p id p' Hwf Hslide) as [Hlegal Hpos].
    destruct (adj_slide_legal p id Hwf Hpos Hlegal) as (tile & Ht & Heq).
    rewrite Heq in Hslide. injection Hslide as <-.
    pose proof (adj_wf_length p Hwf) as Hlen.
    destruct Hwf as (Hs & Hperm & Hsb & Hbv & Hx & Hy & Hb).
    unfold Adjacent.position in Hpos.
    unfold Adjacent.wf, Adjacent._i, Adjacent._x, Adjacent._y in *. simpl.
    repeat split; try done.
    + by rewrite (insert_crosswise_Permutation _ _ _ _ _ Hb Ht).
    + apply coord_x_range; lia.
    + apply coord_x_range; lia.
    + apply coord_y_range; lia.
    + apply coord_y_range; lia.
    + rewrite coord_i_x_y by lia.
      apply list_lookup_insert_eq. rewrite length_insert. lia.
  - unfold Adjacent.slide in Hslide. destruct (Adjacent.legal p id).
    + apply bind_Ok in Hslide as (? & _ & (? & _ & (? & _ & [=])%bind_Ok)%bind_Ok).
    + by injection Hslide as <-.
Qed.

Lemma adj_wf_randomize_round (rnd : random_source) (k : nat) (p : Adjacent.Puzzle) :
  Adjacent.wf p -> Adjacent.wf (Adjacent.randomize_round rnd k p).1.
Proof.
  intros (Hs & Hperm & Hsb & Hbv & Hx & Hy & Hb).
  unfold Adjacent.randomize_round.
  pose proof (shuffle_Permutation rnd k (Adjacent.board p)) as Hsh.
  destruct (shuffle rnd k (Adjacent.board p)) as [shuffled k']. simpl in *.
  assert (shuffled ≡ₚ seqZ 0 (Adjacent.size p * Adjacent.size p)) as Hperm'
    by (by rewrite Hsh).
  destruct (indexOf_elem shuffled (Adjacent._blank_val p)) as [Hr Hl].
  { apply (perm_identity_elem _ _ Hperm'). nia. }
  rewrite (perm_identity_length _ _ Hperm') in Hr.
  unfold Adjacent.wf, Adjacent._i. simpl.
  repeat split; try done.
  - apply coord_x_range; lia.
  - apply coord_x_range; lia.
  - apply coord_y_range; lia.
  - apply coord_y_range; lia.
  - rewrite coord_i_x_y by lia. done.
Qed.

Lemma adj_wf_randomize (fuel : nat) (rnd : random_source) (k : nat)
    (p p' : Adjacent.Puzzle) (k' : nat) :
  Adjacent.wf p -> Adjacent.randomize fuel rnd k p = Ok (p', k') -> Adjacent.wf p'.
Proof.
  revert k p. induction fuel as [|fuel IH]; intros k p Hwf Hrun; [discriminate|].
  simpl in Hrun. pose proof (adj_wf_randomize_round rnd k p Hwf) as Hwf1.
  destruct (Adjacent.randomize_round rnd k p) as [p1 k1]. simpl in Hwf1.
  destruct (Adjacent.solvable p1).
  - by injection Hrun as <- <-.
  - by eapply IH.
Qed.

Lemma adj_reachable_wf (n : Z) (p : Adjacent.Puzzle) :
  0 < n -> Adjacent.reachable n p -> Adjacent.wf p.
Proof.
  intros Hn Hreach.
  induction Hreach as [p Hnew | p id moved p' _ IH Hslide | p fuel rnd k p' k' _ IH Hrun].
  - by eapply adj_wf_constructor.
  - by eapply adj_wf_slide.
  - by eapply adj_wf_randomize.
Qed.

(** ** The chain variant: swaps and loops *)

Lemma chain_swap_Ok (b : list Z) (i1 i2 : Z) (b' : list Z) :
  Chain._swap b i1 i2 = Ok b' <->
  exists v1 v2,
    0 <= i1 /\ 0 <= i2 /\
    b !! Z.to_nat i1 = Some v1 /\ b !! Z.to_nat i2 = Some v2 /\
    b' = <[Z.to_nat i2 := v1]> (<[Z.to_nat i1 := v2]> b).
Proof.
  unfold Chain._swap. split.
  - intros (v2 & [? Hv2]%js_get_Ok & (v1 & [? Hv1]%js_get_Ok &
             (b1 & [? ->]%js_set_Ok & [? ->]%js_set_Ok)%bind_Ok)%bind_Ok)%bind_Ok.
    exists v1, v2. done.
  - intros (v1 & v2 & ? & ? & Hv1 & Hv2 & ->).
    apply lookup_lt_Some in Hv1 as ?. apply lookup_lt_Some in Hv2 as ?.
    apply bind_Ok. exists v2. split; [by apply js_get_Ok|].
    apply bind_Ok. exists v1. split; [by apply js_get_Ok|].
    apply bind_Ok. exists (<[Z.to_nat i1 := v2]> b). split.
    + apply js_set_Ok. split; [lia | done].
    + apply js_set_Ok. rewrite length_insert. split; [lia | done].
Qed.

Lemma chain_swap_Permutation (b : list Z) (i1 i2 : Z) (b' : list Z) :
  Chain._swap b i1 i2 = Ok b' -> b' ≡ₚ b.
Proof.
  intros (v1 & v2 & _ & _ & Hv1 & Hv2 & ->)%chain_swap_Ok.
  by apply insert_crosswise_Permutation.
Qed.

Lemma chain_while_gt_Permutation (fuel : nat) (step i j : Z) (b b' : list Z) :
  Chain.while_gt fuel step i j b = Ok b' -> b' ≡ₚ b.
Proof.
  revert j b. induction fuel as [|fuel IH]; intros j b; simpl; case_decide;
    try discriminate; try (by intros [= ->]).
  intros (b1 & Hswap & Hloop)%bind_Ok.
  rewrite (IH _ _ Hloop). by eapply chain_swap_Permutation.
Qed.

Lemma chain_while_lt_Permutation (fuel : nat) (step i j : Z) (b b' : list Z) :
  Chain.while_lt fuel step i j b = Ok b' -> b' ≡ₚ b.
Proof.
  revert j b. induction fuel as [|fuel IH]; intros j b; simpl; case_decide;
    try discriminate; try (by intros [= ->]).
  intros (b1 & Hswap & Hloop)%bind_Ok.
  rewrite (IH _ _ Hloop). by eapply chain_swap_Permutation.
Qed.

Lemma chain_move_blank_Permutation (p : Chain.Puzzle) (step i blank_i : Z)
    (moved : bool) (p' : Chain.Puzzle) :
  Chain.move_blank p step i blank_i = Ok (moved, p') ->
  Chain.size p' = Chain.size p /\ Chain.blank_val p' = Chain.blank_val p /\
  Chain.board p' ≡ₚ Chain.board p.
Proof.
  unfold Chain.move_blank. repeat case_decide.
  - intros (b & Hloop & [= <- <-])%bind_Ok. simpl.
    repeat split. by eapply chain_while_gt_Permutation.
  - intros (b & Hloop & [= <- <-])%bind_Ok. simpl.
    repeat split. by eapply chain_while_lt_Permutation.
  - by intros [= <- <-].
Qed.

Lemma chain_slide_Permutation (p : Chain.Puzzle) (i : Z) (moved : bool) (p' : Chain.Puzzle) :
  Chain.slide p i = Ok (moved, p') ->
  Chain.size p' = Chain.size p /\ Chain.blank_val p' = Chain.blank_val p /\
  Chain.board p' ≡ₚ Chain.board p.
Proof.
  unfold Chain.slide. repeat case_decide;
    try (by intros [= <- <-]); apply chain_move_blank_Permutation.
Qed.

Lemma chain_constructor_Ok (n : Z) :
  n * n <= MAX_ARRAY_LENGTH ->
  Chain.constructor n = Ok (Chain.mkPuzzle n (seqZ 0 (n * n)) (n * n - 1)).
Proof. intros. unfold Chain.constructor. by rewrite decide_True. Qed.

Lemma chain_constructor_inv (n : Z) (p : Chain.Puzzle) :
  Chain.constructor n = Ok p ->
  n * n <= MAX_ARRAY_LENGTH /\ p = Chain.mkPuzzle n (seqZ 0 (n * n)) (n * n - 1).
Proof.
  unfold Chain.constructor. case_decide; [|discriminate].
  intros [= <-]. done.
Qed.

Lemma chain_wf_constructor (n : Z) (p : Chain.Puzzle) :
  0 < n -> Chain.constructor n = Ok p -> Chain.wf p.
Proof. intros Hn [_ ->]%chain_constructor_inv. by repeat split. Qed.

Lemma chain_wf_slide (p : Chain.Puzzle) (i : Z) (moved : bool) (p' : Chain.Puzzle) :
  Chain.wf p -> Chain.slide p i = Ok (moved, p') -> Chain.wf p'.
Proof.
  intros (Hs & Hperm & Hbv) (Hs' & Hbv' & Hperm')%chain_slide_Permutation.
  unfold Chain.wf. rewrite Hs', Hbv', Hperm'. done.
Qed.

Lemma chain_wf_randomize_round (rnd : random_source) (k : nat) (p : Chain.Puzzle) :
  Chain.wf p -> Chain.wf (Chain.randomize_round rnd k p).1.
Proof.
  intros (Hs & Hperm & Hbv). unfold Chain.randomize_round.
  pose proof (shuffle_Permutation rnd k (Chain.board p)) as Hsh.
  destruct (shuffle rnd k (Chain.board p)) as [shuffled k']. simpl in *.
  unfold Chain.wf. simpl. by rewrite Hsh.
Qed.

Lemma chain_wf_randomize (fuel : nat) (rnd : random_source) (k : nat)
    (p p' : Chain.Puzzle) (k' : nat) :
  Chain.wf p -> Chain.randomize fuel rnd k p = Ok (p', k') -> Chain.wf p'.
Proof.
  revert k p. induction fuel as [|fuel IH]; intros k p Hwf Hrun; [discriminate|].
  simpl in Hrun. pose proof (chain_wf_randomize_round rnd k p Hwf) as Hwf1.
  destruct (Chain.randomize_round rnd k p) as [p1 k1]. simpl in Hwf1.
  destruct (Chain.solvable p1).
  - by injection Hrun as <- <-.
  - by eapply IH.
Qed.

Lemma chain_reachable_wf (n : Z) (p : Chain.Puzzle) :
  0 < n -> Chain.reachable n p -> Chain.wf p.
Proof.
  intros Hn Hreach.
  induction Hreach as [p Hnew | p i moved p' _ IH Hslide | p fuel rnd k p' k' _ IH Hrun].
  - by eapply chain_wf_constructor.
  - by eapply chain_wf_slide.
  - by eapply chain_wf_randomize.
Qed.

(** A walk stays between its two ends. *)
Lemma walk_between (j d n t len : Z) :
  0 <= j < len -> 0 <= j + n * d < len -> 0 <= t <= n -> 0 <= j + t * d < len.
Proof. intros. destruct (Z.le_gt_cases 0 d); nia. Qed.

Lemma walk_distinct (j d t1 t2 : Z) :
  d <> 0 -> t1 <> t2 -> j + t1 * d <> j + t2 * d.
Proof. intros. nia. Qed.

(** The two loops are walks of the blank, down and up the indexes. *)
Lemma chain_while_gt_walk (n : nat) (fuel : nat) (step i j : Z) (b : list Z) :
  0 < step -> j = i + Z.of_nat n * step -> (n <= fuel)%nat ->
  Chain.while_gt fuel step i j b = Chain.walk n (- step) j b.
Proof.
  revert fuel j b. induction n as [|n IH]; intros fuel j b Hstep Hj Hfuel.
  - destruct fuel; simpl; by rewrite decide_False by lia.
  - destruct fuel as [|fuel]; [lia|]. simpl. rewrite decide_True by nia.
    replace (j + - step) with (j - step) by lia.
    destruct (Chain._swap b j (j - step)) as [b1|e]; simpl; [|done].
    apply IH; [done | lia | lia].
Qed.

Lemma chain_while_lt_walk (n : nat) (fuel : nat) (step i j : Z) (b : list Z) :
  0 < step -> j = i - Z.of_nat n * step -> (n <= fuel)%nat ->
  Chain.while_lt fuel step i j b = Chain.walk n step j b.
Proof.
  revert fuel j b. induction n as [|n IH]; intros fuel j b Hstep Hj Hfuel.
  - destruct fuel; simpl; by rewrite decide_False by lia.
  - destruct fuel as [|fuel]; [lia|]. simpl. rewrite decide_True by nia.
    destruct (Chain._swap b j (j + step)) as [b1|e]; simpl; [|done].
    apply IH; [done | lia | lia].
Qed.

(** What a walk of [n] cells does: the blank's value ends [n] cells away, the
    [n] values it passed each sit one cell back, and nothing else moves. *)
Lemma chain_walk_spec (n : nat) (d j : Z) (b : list Z) :
  d <> 0 ->
  0 <= j < Z.of_nat (length b) ->
  0 <= j + Z.of_nat n * d < Z.of_nat (length b) ->
  exists b',
    Chain.walk n d j b = Ok b' /\
    b' !! Z.to_nat (j + Z.of_nat n * d) = b !! Z.to_nat j /\
    (forall t, 0 <= t < Z.of_nat n ->
       b' !! Z.to_nat (j + t * d) = b !! Z.to_nat (j + (t + 1) * d)) /\
    (forall k : nat,
       (forall t, 0 <= t <= Z.of_nat n -> Z.of_nat k <> j + t * d) ->
       b' !! k = b !! k).
Proof.
  revert j b. induction n as [|n IH]; intros j b Hd Hj Hend.
  - exists b. simpl. rewrite Z.add_0_r. repeat split. intros; lia.
  - assert (0 <= j + d < Z.of_nat (length b)) as Hjd.
    { pose proof (walk_between j d (Z.of_nat (S n)) 1 _ Hj Hend). lia. }
    destruct (lookup_lt_is_Some_2 b (Z.to_nat j)) as [vj Hvj]; [lia|].
    destruct (lookup_lt_is_Some_2 b (Z.to_nat (j + d))) as [vjd Hvjd]; [lia|].
    set (b1 := <[Z.to_nat (j + d) := vj]> (<[Z.to_nat j := vjd]> b)).
    assert (Chain._swap b j (j + d) = Ok b1) as Hswap.
    { apply chain_swap_Ok. exists vj, vjd. repeat split; [lia | lia | done | done]. }
    assert (length b1 = length b) as Hlen by (unfold b1; by rewrite !length_insert).
    destruct (IH (j + d) b1) as (b' & Hwalk & Hlast & Hseg & Hrest);
      [done | lia | rewrite Hlen; lia |].
    assert (forall t, 0 <= t <= Z.of_nat (S n) -> 0 <= j + t * d) as Hpos.
    { intros t Ht. pose proof (walk_between j d (Z.of_nat (S n)) t _ Hj Hend). lia. }
    assert (forall t, 2 <= t <= Z.of_nat (S n) ->
              b1 !! Z.to_nat (j + t * d) = b !! Z.to_nat (j + t * d)) as Hfar.
    { intros t Ht. unfold b1.
      pose proof (Hpos t). pose proof (walk_distinct j d t 0 Hd).
      pose proof (walk_distinct j d t 1 Hd).
      rewrite !list_lookup_insert_ne by lia. done. }
    exists b'. simpl. rewrite Hswap. simpl. split; [done|]. repeat split.
    + replace (j + Z.of_nat (S n) * d) with (j + d + Z.of_nat n * d) by lia.
      rewrite Hlast. unfold b1. rewrite list_lookup_insert_eq, Hvj; [done|].
      rewrite length_insert. lia.
    + intros t Ht. destruct (decide (t = 0)) as [->|Ht0].
      * rewrite Z.add_0_r, Z.mul_1_l, Hvjd. rewrite Hrest.
        -- unfold b1. rewrite list_lookup_insert_ne by lia.
           rewrite list_lookup_insert_eq by lia. done.
        -- intros t' Ht'. pose proof (walk_distinct j d 0 (t' + 1) Hd). lia.
      * specialize (Hseg (t - 1)).
        replace (j + d + (t - 1) * d) with (j + t * d) in Hseg by lia.
        replace (j + d + (t - 1 + 1) * d) with (j + (t + 1) * d) in Hseg by lia.
        rewrite Hseg by lia. apply Hfar. lia.
    + intros k Hk. rewrite Hrest.
      * pose proof (Hk 0). pose proof (Hk 1). unfold b1.
        rewrite !list_lookup_insert_ne by lia. done.
      * intros t Ht. pose proof (Hk (t + 1)). lia.
Qed.

(** ** The chain variant: [slide] *)

Lemma chain_wf_length (p : Chain.Puzzle) :
  Chain.wf p -> Z.of_nat (length (Chain.board p)) = Chain.size p * Chain.size p.
Proof. intros (Hs & Hperm & _). rewrite (perm_identity_length _ _ Hperm). nia. Qed.

Lemma chain_wf_blank (p : Chain.Puzzle) :
  Chain.wf p ->
  0 <= Chain._blank_i p < Chain.size p * Chain.size p /\
  Chain.board p !! Z.to_nat (Chain._blank_i p) = Some (Chain.blank_val p).
Proof.
  intros Hwf. pose proof (chain_wf_length p Hwf) as Hlen.
  destruct Hwf as (Hs & Hperm & Hbv).
  destruct (indexOf_elem (Chain.board p) (Chain.blank_val p)) as [Hr Hl].
  { apply (perm_identity_elem _ _ Hperm). nia. }
  unfold Chain._blank_i. split; [lia | done].
Qed.

Lemma chain_walk_shifted (p : Chain.Puzzle) (n : nat) (d i : Z) :
  Chain.wf p -> Chain.position p i -> d <> 0 -> (1 <= n)%nat ->
  i = Chain._blank_i p + Z.of_nat n * d ->
  exists b',
    Chain.walk n d (Chain._blank_i p) (Chain.board p) = Ok b' /\
    Chain.shifted_along (- d) p i (Chain.with_board p b').
Proof.
  intros Hwf Hpos Hd Hn Hi.
  pose proof (chain_wf_length p Hwf) as Hlen.
  destruct (chain_wf_blank p Hwf) as [Hb Hblank].
  unfold Chain.position in Hpos.
  destruct (chain_walk_spec n d (Chain._blank_i p) (Chain.board p))
    as (b' & Hwalk & Hlast & Hseg & Hrest); [done | lia | lia |].
  exists b'. split; [done|].
  assert (b' ≡ₚ Chain.board p) as Hperm'.
  { clear -Hwalk. revert Hwalk. generalize (Chain._blank_i p) (Chain.board p).
    induction n as [|n IH]; intros j b; simpl; [by intros [= ->]|].
    intros (b1 & Hswap & Hloop)%bind_Ok.
    rewrite (IH _ _ Hloop). by eapply chain_swap_Permutation. }
  rewrite <- Hi, Hblank in Hlast.
  unfold Chain.shifted_along. simpl. repeat split.
  exists (Z.of_nat n). repeat split; [lia | lia | | done | |].
  - intros t Ht. specialize (Hseg (Z.of_nat n - 1 - t)).
    replace (Chain._blank_i p + (Z.of_nat n - 1 - t) * d) with (i + (t + 1) * - d)
      in Hseg by lia.
    replace (Chain._blank_i p + (Z.of_nat n - 1 - t + 1) * d) with (i + t * - d)
      in Hseg by lia.
    apply Hseg. lia.
  - unfold Chain._blank_i. simpl.
    rewrite (indexOf_lookup b' (Z.to_nat i) (Chain.blank_val p)); [lia | | done].
    destruct Hwf as (_ & Hperm & _). rewrite Hperm' in *.
    by eapply perm_identity_NoDup.
  - intros k Hk. apply Hrest. intros t Ht.
    pose proof (Hk (Z.of_nat n - t)). lia.
Qed.

Lemma chain_move_blank_line (p : Chain.Puzzle) (step i m : Z) :
  Chain.wf p -> Chain.position p i -> 0 < step -> m <> 0 ->
  Chain._blank_i p = i + m * step ->
  exists p',
    Chain.move_blank p step i (Chain._blank_i p) = Ok (true, p') /\
    Chain.shifted_along (if decide (Chain._blank_i p > i) then step else - step) p i p'.
Proof.
  intros Hwf Hpos Hstep Hm Hb. unfold Chain.move_blank.
  destruct (decide (0 < m)) as [Hpos_m|Hneg_m].
  - rewrite !decide_True by nia.
    rewrite (chain_while_gt_walk (Z.to_nat m)) by nia.
    destruct (chain_walk_shifted p (Z.to_nat m) (- step) i) as (b' & -> & Hshift);
      [done | done | lia | lia | lia |].
    rewrite Z.opp_involutive in Hshift. simpl. eauto.
  - rewrite !(decide_False (P := Chain._blank_i p > i)) by nia.
    rewrite decide_True by nia.
    rewrite (chain_while_lt_walk (Z.to_nat (- m))) by nia.
    destruct (chain_walk_shifted p (Z.to_nat (- m)) step i) as (b' & -> & Hshift);
      [done | done | lia | lia | lia |].
    simpl. eauto.
Qed.

(** For board positions, "same coordinates as the blank" is "is the blank". *)
Lemma chain_same_square (p : Chain.Puzzle) (i : Z) :
  Chain.wf p -> Chain.position p i ->
  (Chain._x p i = Chain._x p (Chain._blank_i p) /\
   Chain._y p i = Chain._y p (Chain._blank_i p)) <-> i = Chain._blank_i p.
Proof.
  intros Hwf Hpos. destruct (chain_wf_blank p Hwf) as [Hb _].
  destruct Hwf as (Hs & _). unfold Chain.position in Hpos. split.
  - intros [Hx Hy]. apply (coord_inj (Chain.size p)); [lia | lia | lia | done | done].
  - by intros <-.
Qed.

Lemma chain_slide_cases (p : Chain.Puzzle) (i : Z) :
  Chain.wf p -> Chain.position p i ->
  exists moved p',
    Chain.slide p i = Ok (moved, p') /\
    (moved = true <-> Chain.in_line_with_blank p i) /\
    (moved = true -> Chain.line_shifted p i p') /\
    (moved = false -> p' = p).
Proof.
  intros Hwf Hpos.
  pose proof (chain_same_square p i Hwf Hpos) as Hsame.
  destruct (chain_wf_blank p Hwf) as [Hb _].
  pose proof Hwf as (Hs & _). pose proof Hpos as Hpos'. unfold Chain.position in Hpos'.
  pose proof (coord_i_x_y (Chain.size p) Hs i) as Hi.
  pose proof (coord_i_x_y (Chain.size p) Hs (Chain._blank_i p)) as Hbi.
  unfold Chain.slide, Chain.in_line_with_blank, Chain.line_shifted, Chain.toward_blank.
  unfold Chain._x, Chain._y, coord_i in *.
  destruct (decide (coord_x (Chain.size p) i = coord_x (Chain.size p) (Chain._blank_i p) /\
                    coord_y (Chain.size p) i = coord_y (Chain.size p) (Chain._blank_i p)))
    as [Hboth|Hnot].
  { exists false, p. split; [done|]. split; [|done].
    split; [done|]. intros [_ Hne]. exfalso. by apply Hne, Hsame. }
  destruct (decide (coord_x (Chain.size p) i = coord_x (Chain.size p) (Chain._blank_i p)))
    as [Hx|Hx].
  { destruct (chain_move_blank_line p (Chain.size p) i
                (coord_y (Chain.size p) (Chain._blank_i p) - coord_y (Chain.size p) i))
      as (p' & Hmove & Hshift); [done | done | done | | lia |].
    { intros ?. apply Hnot. split; [done | lia]. }
    exists true, p'. split; [done|]. split; [|split; [intros _ | done]].
    - split; [intros _ | done]. split; [by left|]. intros Heq. by apply Hnot, Hsame.
    - exact Hshift. }
  destruct (decide (coord_y (Chain.size p) i = coord_y (Chain.size p) (Chain._blank_i p)))
    as [Hy|Hy].
  { destruct (chain_move_blank_line p 1 i
                (coord_x (Chain.size p) (Chain._blank_i p) - coord_x (Chain.size p) i))
      as (p' & Hmove & Hshift); [done | done | done | lia | lia |].
    exists true, p'. split; [done|]. split; [|split; [intros _ | done]].
    - split; [intros _ | done]. split; [by right|]. intros Heq. by apply Hnot, Hsame.
    - exact Hshift. }
  exists false, p. split; [done|]. split; [|done].
  split; [done|]. intros [[?|?] _]; exfalso; done.
Qed.

(** ** Sizes never change *)

Lemma adj_randomize_size (fuel : nat) (rnd : random_source) (k : nat)
    (p p' : Adjacent.Puzzle) (k' : nat) :
  Adjacent.randomize fuel rnd k p = Ok (p', k') -> Adjacent.size p' = Adjacent.size p.
Proof.
  revert k p. induction fuel as [|fuel IH]; intros k p Hrun; [discriminate|].
  simpl in Hrun.
  assert (Adjacent.size (Adjacent.randomize_round rnd k p).1 = Adjacent.size p) as Hsz.
  { unfold Adjacent.randomize_round. by destruct (shuffle rnd k (Adjacent.board p)). }
  destruct (Adjacent.randomize_round rnd k p) as [p1 k1]. simpl in Hsz.
  destruct (Adjacent.solvable p1).
  - injection Hrun as <- <-. done.
  - rewrite <- Hsz. by eapply IH.
Qed.

Lemma adj_slide_size (p : Adjacent.Puzzle) (id : Z) (moved : bool) (p' : Adjacent.Puzzle) :
  Adjacent.slide p id = Ok (moved, p') -> Adjacent.size p' = Adjacent.size p.
Proof.
  unfold Adjacent.slide. destruct (Adjacent.legal p id).
  - intros (? & _ & (? & _ & (? & _ & [= <- <-])%bind_Ok)%bind_Ok)%bind_Ok. done.
  - by intros [= <- <-].
Qed.

Lemma adj_reachable_size (n : Z) (p : Adjacent.Puzzle) :
  Adjacent.reachable n p -> Adjacent.size p = n.
Proof.
  induction 1 as [p Hnew | p id moved p' _ IH Hslide | p fuel rnd k p' k' _ IH Hrun].
  - by apply adj_constructor_inv in Hnew as [_ ->].
  - rewrite <- IH. by eapply adj_slide_size.
  - rewrite <- IH. by eapply adj_randomize_size.
Qed.

Lemma chain_randomize_size (fuel : nat) (rnd : random_source) (k : nat)
    (p p' : Chain.Puzzle) (k' : nat) :
  Chain.randomize fuel rnd k p = Ok (p', k') -> Chain.size p' = Chain.size p.
Proof.
  revert k p. induction fuel as [|fuel IH]; intros k p Hrun; [discriminate|].
  simpl in Hrun.
  assert (Chain.size (Chain.randomize_round rnd k p).1 = Chain.size p) as Hsz.
  { unfold Chain.randomize_round. by destruct (shuffle rnd k (Chain.board p)). }
  destruct (Chain.randomize_round rnd k p) as [p1 k1]. simpl in Hsz.
  destruct (Chain.solvable p1).
  - injection Hrun as <- <-. done.
  - rewrite <- Hsz. by eapply IH.
Qed.

Lemma chain_reachable_size (n : Z) (p : Chain.Puzzle) :
  Chain.reachable n p -> Chain.size p = n.
Proof.
  induction 1 as [p Hnew | p i moved p' _ IH Hslide | p fuel rnd k p' k' _ IH Hrun].
  - by apply chain_constructor_inv in Hnew as [_ ->].
  - rewrite <- IH. by eapply chain_slide_Permutation.
  - rewrite <- IH. by eapply chain_randomize_size.
Qed.

Lemma perm_identity_holds_each_once (n : Z) (b : list Z) :
  b ≡ₚ seqZ 0 (n * n) -> holds_each_once n b.
Proof.
  intros Hperm. split.
  - by apply perm_identity_length.
  - intros v Hv. by eapply perm_identity_once.
Qed.

(** ** Parity *)

Lemma rem_2_even (a : Z) : Z.rem a 2 = 0 <-> Z.even a = true.
Proof.
  rewrite Z.even_spec. split.
  - intros H. exists (Z.quot a 2). pose proof (Z.quot_rem' a 2). lia.
  - intros [m ->]. rewrite Z.mul_comm. by apply Z.rem_mul.
Qed.

Lemma rem_2_odd (a : Z) : 0 <= a -> Z.rem a 2 = 1 <-> Z.odd a = true.
Proof.
  intros Ha. rewrite Z.rem_mod_nonneg, Zmod_odd by lia.
  destruct (Z.odd a); split; (done || lia).
Qed.

(** The tests [inversions % 2 === 0] and [y % 2 === 1] as parities. *)
Lemma rem_2_even_decide (a : Z) : bool_decide (Z.rem a 2 = 0) = Z.even a.
Proof.
  destruct (Z.even a) eqn:E.
  - apply bool_decide_eq_true_2. by apply rem_2_even.
  - apply bool_decide_eq_false_2. rewrite rem_2_even. congruence.
Qed.

Lemma rem_2_odd_decide (a : Z) : 0 <= a -> bool_decide (Z.rem a 2 = 1) = Z.odd a.
Proof.
  intros Ha. destruct (Z.odd a) eqn:E.
  - apply bool_decide_eq_true_2. by apply rem_2_odd.
  - apply bool_decide_eq_false_2. rewrite rem_2_odd by done. congruence.
Qed.

(** On an even board, the row counted from the bottom starting at one has
    the parity of the row counted from the top starting at zero; counted from
    the bottom starting at zero it has the other parity. *)
Lemma row_parity_one_based (size y : Z) :
  Z.even size = true -> Z.odd (row_from_bottom_one_based size y) = Z.odd y.
Proof.
  intros He. unfold row_from_bottom_one_based.
  rewrite Z.odd_sub, <- Z.negb_even, He. done.
Qed.

Lemma row_parity_zero_based (size y : Z) :
  Z.even size = true -> Z.odd (row_from_bottom_zero_based size y) = negb (Z.odd y).
Proof.
  intros He. unfold row_from_bottom_zero_based.
  rewrite !Z.odd_sub, <- Z.negb_even, He. simpl. by destruct (Z.odd y).
Qed.

(** On an even board the two rules are each other's negation, and the cited
    one compares the parity of the row counted from the top. *)
Lemma even_rules_of_parity (size y inv : Z) :
  Z.even size = true ->
  Bool.eqb (Z.odd y) (Z.even inv) = cited_even_rule size y inv /\
  Bool.eqb (Z.odd y) (Z.even inv) = negb (spec_even_rule size y inv).
Proof.
  intros He. unfold cited_even_rule, spec_even_rule.
  rewrite row_parity_one_based, row_parity_zero_based by done.
  split; [done|]. by destruct (Z.odd y), (Z.even inv).
Qed.

(** The expression of [solvable()], for an even size. *)
Lemma solvable_formula_even (size y inv : Z) :
  Z.even size = true -> 0 <= y ->
  (bool_decide (Z.rem size 2 = 1) && bool_decide (Z.rem inv 2 = 0))
  || (bool_decide (Z.rem size 2 = 0)
      && Bool.eqb (bool_decide (Z.rem y 2 = 1)) (bool_decide (Z.rem inv 2 = 0)))
  = Bool.eqb (Z.odd y) (Z.even inv).
Proof.
  intros He Hy. apply rem_2_even in He as Hrem.
  rewrite (bool_decide_eq_false_2 (Z.rem size 2 = 1)) by lia.
  rewrite (bool_decide_eq_true_2 (Z.rem size 2 = 0)) by done.
  rewrite rem_2_even_decide, rem_2_odd_decide by done. done.
Qed.

(** ** Concrete states *)

Lemma adj_start_2_new : Adjacent.constructor 2 = Ok adj_start_2.
Proof. reflexivity. Qed.

Lemma adj_start_3_new : Adjacent.constructor 3 = Ok adj_start_3.
Proof. reflexivity. Qed.

Lemma chain_start_2_new : Chain.constructor 2 = Ok chain_start_2.
Proof. reflexivity. Qed.

Lemma chain_start_3_new : Chain.constructor 3 = Ok chain_start_3.
Proof. reflexivity. Qed.

(** Well-formedness of a concrete engine, by evaluation. *)
Ltac concrete_wf :=
  unfold Adjacent.wf, Chain.wf; simpl; repeat split; (lia || reflexivity).

(** * The claims *)

(** ** C1: solvability on even boards *)

(** C1, as stated, fails.  On the board [new Puzzle(2)] builds the blank is
    in the bottom row: counted from the bottom starting at zero that is row 0,
    which is even, and there are no inversions, so the rule of the claim gives
    false; [solvable()] returns true, in both variants. *)
Lemma solvable_zero_based_row_counterexample :
  Adjacent.constructor 2 = Ok adj_start_2 /\
  Z.even (Adjacent.size adj_start_2) = true /\
  Adjacent.solvable adj_start_2 = true /\
  spec_even_rule (Adjacent.size adj_start_2) (Adjacent._blank_y adj_start_2)
    (Adjacent.inversions adj_start_2) = false /\
  Chain.constructor 2 = Ok chain_start_2 /\
  Chain.solvable chain_start_2 = true /\
  spec_even_rule (Chain.size chain_start_2)
    (Chain._y chain_start_2 (Chain._blank_i chain_start_2))
    (Chain.inversions chain_start_2) = false.
Proof. repeat split. Qed.

(** C1, amended: on an even board [solvable()] is true exactly when "the
    blank's row, counted from the bottom edge starting at one ([size - y]), is
    odd" and "the number of inversions is even" are both true or both false;
    that is the opposite of the rule with the row counted starting at zero.
    In [fifteen.js] the row is the cached [_blank_y], which is the row of the
    index holding the blank; in the later variant it is the row of
    [indexOf(blank)]. *)
Theorem solvable_even_size_rule (pa : Adjacent.Puzzle) (pc : Chain.Puzzle) :
  (Adjacent.wf pa -> Z.even (Adjacent.size pa) = true ->
   Adjacent._blank_y pa =
     Adjacent._y pa (indexOf (Adjacent.board pa) (Adjacent._blank_val pa)) /\
   Adjacent.solvable pa =
     cited_even_rule (Adjacent.size pa) (Adjacent._blank_y pa) (Adjacent.inversions pa) /\
   Adjacent.solvable pa =
     negb (spec_even_rule (Adjacent.size pa) (Adjacent._blank_y pa)
             (Adjacent.inversions pa))) /\
  (Chain.wf pc -> Z.even (Chain.size pc) = true ->
   Chain.solvable pc =
     cited_even_rule (Chain.size pc) (Chain._y pc (Chain._blank_i pc))
       (Chain.inversions pc) /\
   Chain.solvable pc =
     negb (spec_even_rule (Chain.size pc) (Chain._y pc (Chain._blank_i pc))
             (Chain.inversions pc))).
Proof.
  split.
  - intros Hwf He. destruct (adj_wf_blank pa Hwf) as (_ & Hidx & _ & Hy).
    simpl in Hidx, Hy. split; [by rewrite Hidx, Hy|].
    destruct Hwf as (_ & _ & _ & _ & _ & Hby & _).
    unfold Adjacent.solvable. rewrite solvable_formula_even by (done || lia).
    by apply even_rules_of_parity.
  - intros Hwf He. destruct (chain_wf_blank pc Hwf) as [Hb _].
    pose proof Hwf as (Hs & _).
    unfold Chain.solvable. rewrite solvable_formula_even; [| done |].
    + by apply even_rules_of_parity.
    + unfold Chain._y. apply coord_y_range; lia.
Qed.

Lemma solvable_even_size_rule_witness :
  Adjacent.solvable adj_start_2 =
    cited_even_rule 2 (Adjacent._blank_y adj_start_2) (Adjacent.inversions adj_start_2) /\
  Chain.solvable chain_start_2 =
    cited_even_rule 2 (Chain._y chain_start_2 (Chain._blank_i chain_start_2))
      (Chain.inversions chain_start_2).
Proof.
  destruct (solvable_even_size_rule adj_start_2 chain_start_2) as [Ha Hc]. split.
  - apply Ha; [|reflexivity].
    concrete_wf.
  - apply Hc; [|reflexivity].
    concrete_wf.
Defined.

(** ** C7: construction with a small size *)

(** C7, as stated, fails: [new Puzzle(1)] returns an engine (a board of one
    cell, which is the blank), and so do [new Puzzle(0)] and
    [new Puzzle(-1)]. *)
Lemma constructor_small_size_counterexample :
  1 < 2 /\
  Adjacent.constructor 1 = Ok (Adjacent.mkPuzzle 1 [0] [0] 0 0 0) /\
  Chain.constructor 1 = Ok (Chain.mkPuzzle 1 [0] 0) /\
  Adjacent.constructor 0 = Ok (Adjacent.mkPuzzle 0 [] [] (-1) (-1) (-1)) /\
  Adjacent.constructor (-1) = Ok (Adjacent.mkPuzzle (-1) [0] [0] 0 (-2) (-2)).
Proof. repeat split. Qed.

(** C7, amended: the constructors do not look at [size].  For every size
    below 2 (and above -65536, so that [size * size] is an array length) the
    call returns an engine: the board is [0 .. size*size-1], the blank value
    [size*size-1], and in [fifteen.js] the cached coordinates are
    [size-1, size-1]. *)
Theorem constructor_accepts_small_size (n : Z) :
  n < 2 -> -65536 < n ->
  Adjacent.constructor n =
    Ok (Adjacent.mkPuzzle n (seqZ 0 (n * n)) (seqZ 0 (n * n)) (n * n - 1) (n - 1) (n - 1)) /\
  Chain.constructor n = Ok (Chain.mkPuzzle n (seqZ 0 (n * n)) (n * n - 1)).
Proof.
  intros Hlt Hgt.
  assert (n * n <= MAX_ARRAY_LENGTH) by (unfold MAX_ARRAY_LENGTH; nia).
  split; [by apply adj_constructor_Ok | by apply chain_constructor_Ok].
Qed.

Lemma constructor_accepts_small_size_witness :
  Adjacent.constructor 1 =
    Ok (Adjacent.mkPuzzle 1 (seqZ 0 (1 * 1)) (seqZ 0 (1 * 1)) (1 * 1 - 1) (1 - 1) (1 - 1)) /\
  Chain.constructor 1 = Ok (Chain.mkPuzzle 1 (seqZ 0 (1 * 1)) (1 * 1 - 1)).
Proof. apply (constructor_accepts_small_size 1); lia. Defined.

(** ** C9: the fresh engine *)

(** C9: for a size of at least 2, the board a constructor returns is
    [0, 1, ..., size*size-1] in order and [solved()] is true on it; and the
    constructor does return when [size * size] is an array length. *)
Theorem fresh_engine_solved (n : Z) :
  2 <= n ->
  (forall p, Adjacent.constructor n = Ok p ->
     Adjacent.board p = seqZ 0 (n * n) /\
     (forall i : nat, Z.of_nat i < n * n -> Adjacent.board p !! i = Some (Z.of_nat i)) /\
     length (Adjacent.board p) = Z.to_nat (n * n) /\
     Adjacent.solved p = true) /\
  (forall p, Chain.constructor n = Ok p ->
     Chain.board p = seqZ 0 (n * n) /\
     (forall i : nat, Z.of_nat i < n * n -> Chain.board p !! i = Some (Z.of_nat i)) /\
     length (Chain.board p) = Z.to_nat (n * n) /\
     Chain.solved p = true) /\
  (n * n <= MAX_ARRAY_LENGTH ->
   exists pa pc, Adjacent.constructor n = Ok pa /\ Chain.constructor n = Ok pc).
Proof.
  intros Hn. split; [|split].
  - intros p [_ ->]%adj_constructor_inv. simpl. repeat split.
    + apply lookup_identity.
    + apply length_seqZ.
    + apply equals_elementwise_refl.
  - intros p [_ ->]%chain_constructor_inv. simpl. repeat split.
    + apply lookup_identity.
    + apply length_seqZ.
    + apply equals_elementwise_refl.
  - intros Hmax. eexists _, _. split.
    + by apply adj_constructor_Ok.
    + by apply chain_constructor_Ok.
Qed.

Lemma fresh_engine_solved_witness :
  Adjacent.board adj_start_3 = seqZ 0 (3 * 3) /\ Adjacent.solved adj_start_3 = true /\
  Chain.board chain_start_3 = seqZ 0 (3 * 3) /\ Chain.solved chain_start_3 = true.
Proof.
  destruct (fresh_engine_solved 3) as (Ha & Hc & _); [lia|].
  destruct (Ha adj_start_3) as (Hboard & _ & _ & Hsolved); [reflexivity|].
  destruct (Hc chain_start_3) as (Hboard' & _ & _ & Hsolved'); [reflexivity|].
  repeat split; assumption.
Defined.

(** ** C6: [randomize] ends on a solvable board *)

(** C6: when [randomize()] returns, [solvable()] is true of the engine it
    leaves, in both variants and for every size. *)
Theorem randomize_returns_solvable (fuel : nat) (rnd : random_source) (k : nat)
    (pa pa' : Adjacent.Puzzle) (pc pc' : Chain.Puzzle) (ka kc : nat) :
  (Adjacent.randomize fuel rnd k pa = Ok (pa', ka) -> Adjacent.solvable pa' = true) /\
  (Chain.randomize fuel rnd k pc = Ok (pc', kc) -> Chain.solvable pc' = true).
Proof.
  split.
  - revert k pa. induction fuel as [|fuel IH]; intros k pa Hrun; [discriminate|].
    simpl in Hrun. destruct (Adjacent.randomize_round rnd k pa) as [p1 k1].
    destruct (Adjacent.solvable p1) eqn:Hsolvable.
    + by injection Hrun as <- <-.
    + by eapply IH.
  - revert k pc. induction fuel as [|fuel IH]; intros k pc Hrun; [discriminate|].
    simpl in Hrun. destruct (Chain.randomize_round rnd k pc) as [p1 k1].
    destruct (Chain.solvable p1) eqn:Hsolvable.
    + by injection Hrun as <- <-.
    + by eapply IH.
Qed.


(** With the oracle [square_source] the first shuffle of the 2x2 start is
    rejected and the second accepted. *)
Example adj_randomize_two_rounds :
  Adjacent.randomize 1 square_source 0 adj_start_2 = Err OutOfFuel /\
  Adjacent.randomize 2 square_source 0 adj_start_2 =
    Ok (Adjacent.mkPuzzle 2 [3; 0; 2; 1] [0; 1; 2; 3] 3 0 0, 8%nat).
Proof. split; reflexivity. Qed.

Example chain_randomize_two_rounds :
  Chain.randomize 1 square_source 0 chain_start_2 = Err OutOfFuel /\
  Chain.randomize 2 square_source 0 chain_start_2 =
    Ok (Chain.mkPuzzle 2 [3; 0; 2; 1] 3, 8%nat).
Proof. split; reflexivity. Qed.

Lemma randomize_returns_solvable_witness :
  Adjacent.solvable (Adjacent.mkPuzzle 2 [3; 0; 2; 1] [0; 1; 2; 3] 3 0 0) = true /\
  Chain.solvable (Chain.mkPuzzle 2 [3; 0; 2; 1] 3) = true.
Proof.
  destruct (randomize_returns_solvable 2 square_source 0
              adj_start_2 (Adjacent.mkPuzzle 2 [3; 0; 2; 1] [0; 1; 2; 3] 3 0 0)
              chain_start_2 (Chain.mkPuzzle 2 [3; 0; 2; 1] 3) 8 8) as [Ha Hc].
  split; [apply Ha | apply Hc]; reflexivity.
Defined.

(** ** C2: the board is always a permutation *)

(** C2: for a size of at least 2, every board reached from construction by
    calls of [slide] and [randomize] is a permutation of [0 .. size*size-1]:
    it has [size*size] entries and each identifier sits at exactly one
    index.  Both variants. *)
Theorem reachable_board_permutation (n : Z) (pa : Adjacent.Puzzle) (pc : Chain.Puzzle) :
  2 <= n ->
  (Adjacent.reachable n pa ->
   Adjacent.board pa ≡ₚ seqZ 0 (n * n) /\ holds_each_once n (Adjacent.board pa)) /\
  (Chain.reachable n pc ->
   Chain.board pc ≡ₚ seqZ 0 (n * n) /\ holds_each_once n (Chain.board pc)).
Proof.
  intros Hn. split; intros Hreach.
  - pose proof (adj_reachable_size n pa Hreach) as Hsize.
    destruct (adj_reachable_wf n pa) as (_ & Hperm & _); [lia | done |].
    rewrite Hsize in Hperm. split; [done | by apply perm_identity_holds_each_once].
  - pose proof (chain_reachable_size n pc Hreach) as Hsize.
    destruct (chain_reachable_wf n pc) as (_ & Hperm & _); [lia | done |].
    rewrite Hsize in Hperm. split; [done | by apply perm_identity_holds_each_once].
Qed.

(** A run of each variant: construct, slide the tile left of the blank,
    shuffle. *)
Lemma adj_run_reachable : Adjacent.reachable 2 adj_shuffled_2.
Proof.
  apply (Adjacent.reach_randomize 2 adj_slid_2 1 square_source 0 adj_shuffled_2 4).
  - apply (Adjacent.reach_slide 2 adj_start_2 2 true adj_slid_2).
    + apply Adjacent.reach_new. reflexivity.
    + reflexivity.
  - reflexivity.
Defined.

Lemma chain_run_reachable : Chain.reachable 2 chain_shuffled_2.
Proof.
  apply (Chain.reach_randomize 2 chain_slid_2 1 square_source 0 chain_shuffled_2 4).
  - apply (Chain.reach_slide 2 chain_start_2 2 true chain_slid_2).
    + apply Chain.reach_new. reflexivity.
    + reflexivity.
  - reflexivity.
Defined.

Lemma reachable_board_permutation_witness :
  holds_each_once 2 [1; 2; 3; 0] /\ [1; 2; 3; 0] ≡ₚ seqZ 0 (2 * 2).
Proof.
  destruct (reachable_board_permutation 2 adj_shuffled_2 chain_shuffled_2) as [Ha Hc];
    [lia|].
  destruct (Ha adj_run_reachable) as [Hperm Honce].
  destruct (Hc chain_run_reachable) as [Hperm' Honce'].
  split; [exact Honce | exact Hperm'].
Defined.

(** ** C8: the cached blank coordinates *)

(** C8: in [fifteen.js], in every state reached from the construction of an
    engine of size at least 2 (so after construction, after each [randomize]
    and after each [slide]), exactly one board index holds the blank value
    [size*size-1], and [_blank_x], [_blank_y] are the coordinates of that
    index. *)
Theorem cached_blank_consistent (n : Z) (p : Adjacent.Puzzle) :
  2 <= n -> Adjacent.reachable n p ->
  Adjacent._blank_val p = Adjacent.size p * Adjacent.size p - 1 /\
  exists i : nat,
    Adjacent.board p !! i = Some (Adjacent._blank_val p) /\
    (forall j : nat, Adjacent.board p !! j = Some (Adjacent._blank_val p) -> j = i) /\
    Adjacent._blank_x p = Adjacent._x p (Z.of_nat i) /\
    Adjacent._blank_y p = Adjacent._y p (Z.of_nat i).
Proof.
  intros Hn Hreach.
  assert (Adjacent.wf p) as Hwf by (apply (adj_reachable_wf n); [lia | done]).
  destruct (adj_wf_blank p Hwf) as (Hr & _ & Hx & Hy). simpl in *.
  destruct Hwf as (_ & Hperm & _ & Hbv & _ & _ & Hb).
  split; [done|].
  exists (Z.to_nat (Adjacent._i p (Adjacent._blank_x p) (Adjacent._blank_y p))).
  rewrite Z2Nat.id by lia. repeat split; try done.
  intros j Hj. by apply (NoDup_lookup _ _ _ _ (perm_identity_NoDup _ _ Hperm) Hj).
Qed.

Lemma cached_blank_consistent_witness :
  exists i : nat,
    [1; 2; 3; 0] !! i = Some 3 /\
    (forall j : nat, [1; 2; 3; 0] !! j = Some 3 -> j = i) /\
    0 = Adjacent._x adj_shuffled_2 (Z.of_nat i) /\
    1 = Adjacent._y adj_shuffled_2 (Z.of_nat i).
Proof.
  destruct (cached_blank_consistent 2 adj_shuffled_2) as [_ H];
    [lia | exact adj_run_reachable | exact H].
Defined.

(** ** [fifteen.js]: what a successful [slide] does *)

Lemma sqrt_IZR_1 (d : Z) : sqrt (IZR d) = 1%R <-> d = 1.
Proof.
  split.
  - intros H. destruct (decide (0 <= d)) as [Hd|Hd].
    + apply eq_IZR. rewrite <- (sqrt_sqrt (IZR d)) by (by apply IZR_le).
      rewrite H. apply Rmult_1_l.
    + rewrite sqrt_neg_0 in H.
      * exfalso. by apply R1_neq_R0.
      * apply (IZR_le d 0). lia.
  - intros ->. apply sqrt_1.
Qed.

Lemma adj_legal_distance (p : Adjacent.Puzzle) (id : Z) :
  Adjacent.legal p id = true <->
  euclidean_distance (Adjacent._x p id) (Adjacent._y p id)
    (Adjacent._blank_x p) (Adjacent._blank_y p) = 1%R.
Proof.
  unfold Adjacent.legal, euclidean_distance.
  by rewrite bool_decide_eq_true, sqrt_IZR_1.
Qed.

Lemma adj_slide_true_inv (p : Adjacent.Puzzle) (id : Z) (p' : Adjacent.Puzzle) :
  Adjacent.wf p -> Adjacent.slide p id = Ok (true, p') ->
  Adjacent.position p id /\ Adjacent.legal p id = true /\
  0 <= Adjacent.blank_index p < Adjacent.size p * Adjacent.size p /\
  id <> Adjacent.blank_index p /\
  Adjacent.board p !! Z.to_nat (Adjacent.blank_index p) = Some (Adjacent._blank_val p) /\
  exists tile,
    Adjacent.board p !! Z.to_nat id = Some tile /\ tile <> Adjacent._blank_val p /\
    p' = Adjacent.mkPuzzle (Adjacent.size p)
           (<[Z.to_nat id := Adjacent._blank_val p]>
              (<[Z.to_nat (Adjacent.blank_index p) := tile]> (Adjacent.board p)))
           (Adjacent.solvedBoard p) (Adjacent._blank_val p)
           (Adjacent._x p id) (Adjacent._y p id).
Proof.
  intros Hwf Hslide.
  destruct (adj_slide_true_position p id p' Hwf Hslide) as [Hlegal Hpos].
  destruct (adj_slide_legal p id Hwf Hpos Hlegal) as (tile & Ht & Heq).
  rewrite Heq in Hslide. injection Hslide as <-.
  destruct (adj_wf_blank p Hwf) as (Hr & _ & Hx & Hy). simpl in *.
  pose proof Hwf as (_ & Hperm & _ & _ & _ & _ & Hb).
  assert (id <> Adjacent.blank_index p) as Hne.
  { intros ->. unfold Adjacent.blank_index in Hlegal.
    unfold Adjacent.legal in Hlegal. rewrite Hx, Hy in Hlegal.
    apply bool_decide_eq_true in Hlegal. lia. }
  unfold Adjacent.position in Hpos. unfold Adjacent.blank_index in *.
  repeat split; try done; try lia.
  exists tile. repeat split; try done.
  intros ->.
  pose proof (NoDup_lookup _ _ _ _ (perm_identity_NoDup _ _ Hperm) Ht Hb). lia.
Qed.

(** ** C3: the single slide *)

(** C3: in [fifteen.js], on a well-formed engine (where the cached
    coordinates are those of the index holding the blank) and for a board
    position [id], [slide(id)] returns; it returns true exactly when the
    Euclidean distance between the coordinates of [id] and of the blank is 1,
    which is exactly when [id] is next to the blank in its row or column; and
    when it returns true the tile at [id] and the blank have traded places in
    the board and the recorded blank coordinates are those of [id]. *)
Theorem adjacent_slide_spec (p : Adjacent.Puzzle) (id : Z) :
  Adjacent.wf p -> Adjacent.position p id ->
  (indexOf (Adjacent.board p) (Adjacent._blank_val p) = Adjacent.blank_index p /\
   Adjacent._x p (Adjacent.blank_index p) = Adjacent._blank_x p /\
   Adjacent._y p (Adjacent.blank_index p) = Adjacent._blank_y p) /\
  exists moved p',
    Adjacent.slide p id = Ok (moved, p') /\
    (moved = true <->
     euclidean_distance (Adjacent._x p id) (Adjacent._y p id)
       (Adjacent._blank_x p) (Adjacent._blank_y p) = 1%R) /\
    (moved = true <-> Adjacent.orthogonally_adjacent p id) /\
    (moved = true ->
     exists tile,
       Adjacent.board p !! Z.to_nat id = Some tile /\
       Adjacent.board p !! Z.to_nat (Adjacent.blank_index p) = Some (Adjacent._blank_val p) /\
       Adjacent.board p' !! Z.to_nat id = Some (Adjacent._blank_val p) /\
       Adjacent.board p' !! Z.to_nat (Adjacent.blank_index p) = Some tile /\
       Adjacent.board p' =
         <[Z.to_nat id := Adjacent._blank_val p]>
           (<[Z.to_nat (Adjacent.blank_index p) := tile]> (Adjacent.board p)) /\
       Adjacent._blank_x p' = Adjacent._x p id /\
       Adjacent._blank_y p' = Adjacent._y p id /\
       Adjacent.blank_index p' = id).
Proof.
  intros Hwf Hpos. split; [apply (adj_wf_blank p Hwf)|].
  destruct (Adjacent.legal p id) eqn:Hlegal.
  - destruct (adj_slide_legal p id Hwf Hpos Hlegal) as (tile0 & _ & Hslide).
    eexists true, _. split; [exact Hslide|].
    split; [by rewrite <- adj_legal_distance|].
    split; [by rewrite <- adj_legal_adjacent|]. intros _.
    destruct (adj_slide_true_inv p id _ Hwf Hslide)
      as (_ & _ & Hr & Hne & Hb & tile & Ht & _ & Heq).
    pose proof (adj_wf_length p Hwf) as Hlen. unfold Adjacent.position in Hpos.
    rewrite Heq. simpl. exists tile. repeat split; try done.
    + apply list_lookup_insert_eq. rewrite length_insert. lia.
    + rewrite list_lookup_insert_ne by lia. apply list_lookup_insert_eq. lia.
    + unfold Adjacent.blank_index, Adjacent._i, Adjacent._x, Adjacent._y. simpl.
      apply coord_i_x_y; [by destruct Hwf | lia].
  - exists false, p. split; [by apply adj_slide_illegal|].
    split; [rewrite <- adj_legal_distance, Hlegal; done|].
    split; [rewrite <- adj_legal_adjacent, Hlegal; done | done].
Qed.

Lemma adjacent_slide_spec_witness :
  exists moved p',
    Adjacent.slide adj_start_3 5 = Ok (moved, p') /\
    (moved = true <-> Adjacent.orthogonally_adjacent adj_start_3 5).
Proof.
  destruct (adjacent_slide_spec adj_start_3 5)
    as (_ & moved & p' & Hslide & _ & Hadj & _).
  - concrete_wf.
  - unfold Adjacent.position; simpl; lia.
  - exists moved, p'. split; [exact Hslide | exact Hadj].
Defined.

(** ** C10: the frame of a single slide *)

(** C10: in [fifteen.js], a [slide(id)] that returns true on a well-formed
    engine changes the board at two indexes and no other: [id], which held a
    tile and now holds the blank value, and the blank's previous index, which
    now holds that tile. *)
Theorem adjacent_slide_frame (p p' : Adjacent.Puzzle) (id : Z) :
  Adjacent.wf p -> Adjacent.slide p id = Ok (true, p') ->
  Z.to_nat id <> Z.to_nat (Adjacent.blank_index p) /\
  length (Adjacent.board p') = length (Adjacent.board p) /\
  Adjacent.board p' !! Z.to_nat id = Some (Adjacent._blank_val p) /\
  Adjacent.board p !! Z.to_nat id <> Some (Adjacent._blank_val p) /\
  Adjacent.board p' !! Z.to_nat (Adjacent.blank_index p) = Adjacent.board p !! Z.to_nat id /\
  Adjacent.board p !! Z.to_nat (Adjacent.blank_index p) = Some (Adjacent._blank_val p) /\
  (forall k : nat,
     k <> Z.to_nat id -> k <> Z.to_nat (Adjacent.blank_index p) ->
     Adjacent.board p' !! k = Adjacent.board p !! k).
Proof.
  intros Hwf Hslide.
  destruct (adj_slide_true_inv p id p' Hwf Hslide)
    as (Hpos & _ & Hr & Hne & Hb & tile & Ht & Htile & ->).
  pose proof (adj_wf_length p Hwf) as Hlen. unfold Adjacent.position in Hpos.
  simpl. repeat split; try done.
  - lia.
  - by rewrite !length_insert.
  - apply list_lookup_insert_eq. rewrite length_insert. lia.
  - rewrite Ht. congruence.
  - rewrite list_lookup_insert_ne by lia. rewrite Ht. apply list_lookup_insert_eq. lia.
  - intros k Hk1 Hk2. by rewrite !list_lookup_insert_ne.
Qed.

Lemma adjacent_slide_frame_witness :
  Adjacent.board adj_slid_2 !! 2%nat = Some 3 /\
  Adjacent.board adj_slid_2 !! 3%nat = Some 2 /\
  (forall k : nat, k <> 2%nat -> k <> 3%nat ->
     Adjacent.board adj_slid_2 !! k = Adjacent.board adj_start_2 !! k).
Proof.
  destruct (adjacent_slide_frame adj_start_2 adj_slid_2 2)
    as (_ & _ & Hid & _ & Hblank & _ & Hrest).
  - concrete_wf.
  - reflexivity.
  - split; [exact Hid | split; [exact Hblank | exact Hrest]].
Defined.

(** ** C5: illegal targets *)

(** C5: in both variants, [slide] on an illegal target (in [fifteen.js]: not
    next to the blank in its row or column; in the later variant: not in the
    blank's row or column, or the blank's own square) returns false, raises
    nothing, and leaves the engine, board included, as it was.  This holds of
    every engine state and every target. *)
Theorem illegal_slide_unchanged (pa : Adjacent.Puzzle) (pc : Chain.Puzzle) (id : Z) :
  (~ Adjacent.orthogonally_adjacent pa id -> Adjacent.slide pa id = Ok (false, pa)) /\
  (~ Chain.in_line_with_blank pc id -> Chain.slide pc id = Ok (false, pc)).
Proof.
  split.
  - intros Hnot. apply adj_slide_illegal.
    destruct (Adjacent.legal pa id) eqn:Hlegal; [|done].
    by apply adj_legal_adjacent in Hlegal.
  - intros Hnot. unfold Chain.slide, Chain.in_line_with_blank in *.
    destruct (decide (Chain._x pc id = Chain._x pc (Chain._blank_i pc) /\
                      Chain._y pc id = Chain._y pc (Chain._blank_i pc))) as [Hboth|Hnboth];
      [done|].
    assert (id <> Chain._blank_i pc) as Hne by (intros Heq; apply Hnboth; by rewrite <- Heq).
    destruct (decide (Chain._x pc id = Chain._x pc (Chain._blank_i pc))) as [Hx|Hx];
      [exfalso; apply Hnot; tauto|].
    destruct (decide (Chain._y pc id = Chain._y pc (Chain._blank_i pc))) as [Hy|Hy];
      [exfalso; apply Hnot; tauto | done].
Qed.

Lemma illegal_slide_unchanged_witness :
  Adjacent.slide adj_start_3 4 = Ok (false, adj_start_3) /\
  Chain.slide chain_start_3 4 = Ok (false, chain_start_3).
Proof.
  destruct (illegal_slide_unchanged adj_start_3 chain_start_3 4) as [Ha Hc]. split.
  - apply Ha. unfold Adjacent.orthogonally_adjacent. vm_compute. lia.
  - apply Hc. unfold Chain.in_line_with_blank. vm_compute. lia.
Defined.

(** ** C4: the chain slide *)

(** C4: in the later variant, on a well-formed engine and for a board
    position [i], [slide(i)] returns; it returns true exactly when [i] is in
    the blank's row or column and is not the blank's square; and when it
    returns true, every tile from [i] up to the blank's square (the blank's
    square excluded) sits one cell nearer to that square, the blank sits at
    [i], and no other cell changed. *)
Theorem chain_slide_spec (p : Chain.Puzzle) (i : Z) :
  Chain.wf p -> Chain.position p i ->
  exists moved p',
    Chain.slide p i = Ok (moved, p') /\
    (moved = true <-> Chain.in_line_with_blank p i) /\
    (moved = true -> Chain.line_shifted p i p').
Proof.
  intros Hwf Hpos.
  destruct (chain_slide_cases p i Hwf Hpos) as (moved & p' & Hslide & Hiff & Hshift & _).
  by exists moved, p'.
Qed.

Lemma chain_slide_spec_witness :
  exists moved p',
    Chain.slide chain_start_3 2 = Ok (moved, p') /\
    (moved = true <-> Chain.in_line_with_blank chain_start_3 2) /\
    (moved = true -> Chain.line_shifted chain_start_3 2 p').
Proof.
  apply (chain_slide_spec chain_start_3 2).
  - concrete_wf.
  - unfold Chain.position; simpl; lia.
Defined.

(** * Beyond the claims *)

(** ** [inversions()] is the classic inversion count *)

Lemma foldl_add_acc (l : list Z) (a : Z) :
  foldl (fun accum elem => accum + elem) a l
  = a + foldl (fun accum elem => accum + elem) 0 l.
Proof.
  revert a. induction l as [|x l IH]; intros a; simpl; [lia|].
  rewrite (IH (a + x)), (IH (0 + x)). lia.
Qed.

Lemma filter_from_app {A : Type} (f : nat -> A -> bool) (k : nat) (l1 l2 : list A) :
  filter_from f k (l1 ++ l2) = filter_from f k l1 ++ filter_from f (k + length l1) l2.
Proof.
  revert k. induction l1 as [|x l1 IH]; intros k; simpl.
  - by rewrite Nat.add_0_r.
  - rewrite IH. replace (S k + length l1)%nat with (k + S (length l1))%nat by lia.
    by destruct (f k x).
Qed.

(** The filter of [inversions()], for the tile at index [idx1]: nothing up to
    [idx1], the smaller values after it. *)
Lemma filter_from_before (idx1 : nat) (val1 : Z) (k : nat) (l : list Z) :
  (k + length l <= S idx1)%nat ->
  filter_from (fun idx2 val2 => bool_decide (idx1 < idx2)%nat && bool_decide (val2 < val1))
    k l = [].
Proof.
  revert k. induction l as [|x l IH]; intros k Hk; simpl in *; [done|].
  rewrite bool_decide_eq_false_2 by lia. simpl. apply IH. lia.
Qed.

Lemma filter_from_after (idx1 : nat) (val1 : Z) (k : nat) (l : list Z) :
  (idx1 < k)%nat ->
  filter_from (fun idx2 val2 => bool_decide (idx1 < idx2)%nat && bool_decide (val2 < val1))
    k l = filter (fun y => y < val1) l.
Proof.
  revert k. induction l as [|x l IH]; intros k Hk; simpl; [done|].
  rewrite bool_decide_eq_true_2 by lia. simpl.
  rewrite IH by lia. rewrite filter_cons.
  destruct (decide (x < val1)).
  - by rewrite bool_decide_eq_true_2.
  - by rewrite bool_decide_eq_false_2.
Qed.

Lemma inversions_filter (pre : list Z) (val1 : Z) (rest : list Z) :
  Z.of_nat (length
    (ifilter (fun idx2 val2 =>
                bool_decide (length pre < idx2)%nat && bool_decide (val2 < val1))
             (pre ++ val1 :: rest))) = smaller_in val1 rest.
Proof.
  unfold ifilter, smaller_in.
  rewrite (filter_from_app _ 0 pre (val1 :: rest)).
  rewrite filter_from_before by (simpl; lia). simpl.
  rewrite bool_decide_eq_false_2 by lia. simpl.
  by rewrite filter_from_after by lia.
Qed.

Lemma count_inversions_suffix (size : Z) (pre l : list Z) :
  foldl (fun accum elem => accum + elem) 0
    (imap (fun idx1 val1 =>
             if decide (val1 = size * size - 1) then 0
             else Z.of_nat (length
                    (ifilter (fun idx2 val2 =>
                                bool_decide (length pre + idx1 < idx2)%nat
                                && bool_decide (val2 < val1))
                             (pre ++ l))))
          l)
  = inversions_from (size * size - 1) l.
Proof.
  revert pre. induction l as [|x l IH]; intros pre; [done|].
  rewrite imap_cons. simpl foldl. rewrite foldl_add_acc. simpl inversions_from.
  f_equal.
  - case_decide; [done|]. rewrite Nat.add_0_r. apply inversions_filter.
  - rewrite <- (IH (pre ++ [x])). f_equal. apply imap_ext. intros i y _. simpl.
    rewrite <- app_assoc. simpl. rewrite length_app. simpl.
    by replace (length pre + 1 + i)%nat with (length pre + S i)%nat by lia.
Qed.

Lemma count_inversions_from (size : Z) (board : list Z) :
  count_inversions size board = inversions_from (size * size - 1) board.
Proof. apply (count_inversions_suffix size [] board). Qed.

Lemma smaller_in_without_blank (blank x : Z) (l : list Z) :
  x <= blank -> smaller_in x (without_blank blank l) = smaller_in x l.
Proof.
  intros Hx. unfold smaller_in, without_blank. rewrite list_filter_filter.
  do 2 f_equal. apply list_filter_iff. intros y. lia.
Qed.

Lemma inversions_from_classic (blank : Z) (l : list Z) :
  Forall (fun v => v <= blank) l ->
  inversions_from blank l = classic_inversions blank l.
Proof.
  unfold classic_inversions, without_blank.
  intros Hall. induction Hall as [|x l Hx Hl IH]; [done|].
  simpl. rewrite filter_cons, IH.
  destruct (decide (x = blank)) as [->|Hne].
  - by rewrite decide_False by (intros H; by apply H).
  - rewrite decide_True by done. simpl.
    fold (without_blank blank l). by rewrite smaller_in_without_blank.
Qed.

(** ** Moving one tile past others *)

Lemma smaller_in_app (x : Z) (l1 l2 : list Z) :
  smaller_in x (l1 ++ l2) = smaller_in x l1 + smaller_in x l2.
Proof. unfold smaller_in. rewrite filter_app, length_app. lia. Qed.

Lemma smaller_in_cons (x y : Z) (l : list Z) :
  smaller_in x (y :: l) = smaller_in x [y] + smaller_in x l.
Proof. apply (smaller_in_app x [y] l). Qed.

Lemma cross_inversions_app_r (l1 l2 l3 : list Z) :
  cross_inversions l1 (l2 ++ l3) = cross_inversions l1 l2 + cross_inversions l1 l3.
Proof.
  induction l1 as [|x l1 IH]; simpl; [done|]. rewrite IH, smaller_in_app. lia.
Qed.

Lemma cross_inversions_cons_r (l1 : list Z) (x : Z) (l2 : list Z) :
  cross_inversions l1 (x :: l2) = cross_inversions l1 [x] + cross_inversions l1 l2.
Proof. apply (cross_inversions_app_r l1 [x] l2). Qed.

Lemma tile_inversions_app (l1 l2 : list Z) :
  tile_inversions (l1 ++ l2)
  = tile_inversions l1 + tile_inversions l2 + cross_inversions l1 l2.
Proof.
  induction l1 as [|x l1 IH]; simpl; [lia|]. rewrite IH, smaller_in_app. lia.
Qed.

(** Around a value that [l] does not hold, every entry of [l] is on one
    side. *)
Lemma cross_inversions_single (l : list Z) (x : Z) :
  x ∉ l -> cross_inversions l [x] + smaller_in x l = Z.of_nat (length l).
Proof.
  induction l as [|m l IH]; intros Hx; simpl; [done|].
  apply not_elem_of_cons in Hx as [Hne Hx]. specialize (IH Hx).
  rewrite (smaller_in_cons x m l).
  assert (smaller_in m [x] + smaller_in x [m] = 1) as Hone.
  { unfold smaller_in. rewrite !filter_cons, !filter_nil.
    repeat case_decide; simpl; lia. }
  lia.
Qed.

(** Moving [x] from the front of [M] to its back changes the count by the
    length of [M], up to an even number. *)
Lemma move_tile_inversions (A M B : list Z) (x : Z) :
  x ∉ M ->
  tile_inversions (A ++ x :: M ++ B) + 2 * cross_inversions M [x]
  = tile_inversions (A ++ M ++ x :: B) + Z.of_nat (length M).
Proof.
  intros Hx. pose proof (cross_inversions_single M x Hx) as Hside.
  rewrite (tile_inversions_app A (x :: M ++ B)), (tile_inversions_app A (M ++ x :: B)).
  rewrite (tile_inversions_app M (x :: B)). simpl.
  rewrite (tile_inversions_app M B), smaller_in_app.
  rewrite (cross_inversions_cons_r A x (M ++ B)), !(cross_inversions_app_r A M).
  rewrite (cross_inversions_cons_r A x B), (cross_inversions_cons_r M x B).
  lia.
Qed.

Lemma move_tile_parity (A M B : list Z) (x : Z) :
  x ∉ M ->
  Z.even (tile_inversions (A ++ M ++ x :: B))
  = xorb (Z.even (tile_inversions (A ++ x :: M ++ B))) (Z.odd (Z.of_nat (length M))).
Proof.
  intros Hx. pose proof (move_tile_inversions A M B x Hx) as Heq.
  assert (Z.even (tile_inversions (A ++ x :: M ++ B) + 2 * cross_inversions M [x])
          = Z.even (tile_inversions (A ++ M ++ x :: B) + Z.of_nat (length M))) as Hpar
    by (by rewrite Heq).
  rewrite !Z.even_add, Z.even_mul in Hpar. simpl in Hpar.
  rewrite <- Z.negb_even.
  destruct (Z.even (tile_inversions (A ++ x :: M ++ B))),
           (Z.even (tile_inversions (A ++ M ++ x :: B))),
           (Z.even (Z.of_nat (length M))); simpl in *; congruence.
Qed.

(** ** Two cells of an array *)

Lemma split_two (l : list Z) (lo hi : nat) (x y : Z) :
  (lo < hi)%nat -> l !! lo = Some x -> l !! hi = Some y ->
  exists A M B,
    l = A ++ x :: M ++ y :: B /\ length A = lo /\ length M = (hi - lo - 1)%nat.
Proof.
  intros Hlt Hlo Hhi.
  pose proof (take_drop_middle l lo x Hlo) as Hl.
  assert (drop (S lo) l !! (hi - lo - 1)%nat = Some y) as Hhi'.
  { rewrite lookup_drop. by replace (S lo + (hi - lo - 1))%nat with hi by lia. }
  pose proof (take_drop_middle _ _ _ Hhi') as Hr.
  exists (take lo l), (take (hi - lo - 1) (drop (S lo) l)),
         (drop (S (hi - lo - 1)) (drop (S lo) l)).
  apply lookup_lt_Some in Hlo as Hlo_lt. apply lookup_lt_Some in Hhi' as Hhi_lt.
  rewrite Hr, Hl. repeat split.
  - rewrite length_take. lia.
  - rewrite length_take. lia.
Qed.

Lemma insert_two (A M B : list Z) (x y x' y' : Z) :
  <[length A := x']> (<[(length A + S (length M))%nat := y']> (A ++ x :: M ++ y :: B))
  = A ++ x' :: M ++ y' :: B.
Proof.
  rewrite insert_app_r. simpl.
  rewrite <- (Nat.add_0_r (length M)) at 1. rewrite insert_app_r. simpl.
  rewrite <- (Nat.add_0_r (length A)) at 1. by rewrite insert_app_r.
Qed.

Lemma without_blank_absent (blank : Z) (l : list Z) :
  blank ∉ l -> without_blank blank l = l.
Proof.
  unfold without_blank. induction l as [|x l IH]; intros Hb; [done|].
  apply not_elem_of_cons in Hb as [Hne Hb].
  rewrite filter_cons_True by done. by rewrite IH.
Qed.

(** ** What a swap with the blank does to the inversion count *)

Section SwapWithBlank.
Variables (blank : Z) (b : list Z) (i j : nat) (t : Z).
Hypothesis b_NoDup : NoDup b.
Hypothesis tile_at_i : b !! i = Some t.
Hypothesis blank_at_j : b !! j = Some blank.
Hypothesis i_ne_j : i <> j.

Lemma swap_with_blank_parity :
  Z.even (classic_inversions blank (<[i := blank]> (<[j := t]> b)))
  = xorb (Z.even (classic_inversions blank b)) (Z.even (Z.of_nat i - Z.of_nat j)).
Proof.
  assert (t <> blank) as Ht.
  { intros ->. by pose proof (NoDup_lookup _ _ _ _ b_NoDup tile_at_i blank_at_j). }
  unfold classic_inversions.
  destruct (decide (i < j)%nat) as [Hlt|Hge].
  - destruct (split_two b i j t blank Hlt tile_at_i blank_at_j)
      as (A & M & B & Hb & HA & HM).
    assert (<[i := blank]> (<[j := t]> b) = A ++ blank :: M ++ t :: B) as Hb'.
    { rewrite Hb. replace j with (length A + S (length M))%nat by lia.
      rewrite <- HA. apply insert_two. }
    rewrite Hb in b_NoDup. rewrite Hb', Hb.
    apply NoDup_app in b_NoDup as (_ & _ & [HtM (_ & HbM & _)%NoDup_app]%NoDup_cons).
    assert (t ∉ M) by (intros ?; apply HtM, elem_of_app; by left).
    unfold without_blank.
    rewrite !filter_app, !filter_cons, !filter_app, !filter_cons.
    rewrite !(decide_True (P := t <> blank)) by done.
    rewrite !decide_False by (intros Hn; by apply Hn).
    fold (without_blank blank M).
    rewrite without_blank_absent by (intros Hin; apply (HbM blank Hin); constructor).
    rewrite (move_tile_parity _ M _ t) by done.
    f_equal. rewrite HM, <- Z.negb_even.
    replace (Z.of_nat i - Z.of_nat j) with (- (Z.of_nat (j - i - 1) + 1)) by lia.
    rewrite Z.even_opp, Z.even_add. simpl. by destruct (Z.even (Z.of_nat (j - i - 1))).
  - assert (j < i)%nat as Hlt by lia.
    destruct (split_two b j i blank t Hlt blank_at_j tile_at_i)
      as (A & M & B & Hb & HA & HM).
    assert (<[i := blank]> (<[j := t]> b) = A ++ t :: M ++ blank :: B) as Hb'.
    { rewrite list_insert_insert_ne by done.
      rewrite Hb. replace i with (length A + S (length M))%nat by lia.
      rewrite <- HA. apply insert_two. }
    rewrite Hb in b_NoDup. rewrite Hb', Hb.
    apply NoDup_app in b_NoDup as (_ & _ & [HbM (_ & HtM & _)%NoDup_app]%NoDup_cons).
    assert (t ∉ M) by (intros Hin; apply (HtM t Hin); constructor).
    unfold without_blank.
    rewrite !filter_app, !filter_cons, !filter_app, !filter_cons.
    rewrite !(decide_True (P := t <> blank)) by done.
    rewrite !decide_False by (intros Hn; by apply Hn).
    fold (without_blank blank M).
    rewrite without_blank_absent by (intros ?; apply HbM, elem_of_app; by left).
    rewrite (move_tile_parity _ M _ t) by done.
    rewrite HM, <- Z.negb_even.
    replace (Z.of_nat i - Z.of_nat j) with (Z.of_nat (i - j - 1) + 1) by lia.
    rewrite Z.even_add. simpl.
    by destruct (Z.even (tile_inversions _)), (Z.even (Z.of_nat (i - j - 1))).
Qed.

End SwapWithBlank.

(** ** The rule of [solvable()] along a move of the blank *)

Lemma adj_solvable_rule (p : Adjacent.Puzzle) :
  Adjacent.solvable p
  = solvable_rule (Adjacent.size p) (Adjacent._blank_y p)
      (count_inversions (Adjacent.size p) (Adjacent.board p)).
Proof. reflexivity. Qed.

Lemma chain_solvable_rule (p : Chain.Puzzle) :
  Chain.solvable p
  = solvable_rule (Chain.size p) (coord_y (Chain.size p) (Chain._blank_i p))
      (count_inversions (Chain.size p) (Chain.board p)).
Proof. reflexivity. Qed.

Lemma solvable_rule_parity (size y inv : Z) :
  0 <= size -> 0 <= y ->
  solvable_rule size y inv
  = if Z.even size then Bool.eqb (Z.odd y) (Z.even inv) else Z.even inv.
Proof.
  intros Hs Hy. unfold solvable_rule.
  rewrite !rem_2_even_decide, !rem_2_odd_decide by done.
  rewrite <- (Z.negb_even size). by destruct (Z.even size), (Z.even inv).
Qed.

(** One cell of travel: [d] is the difference of the two indexes, [y] and
    [y'] the rows.  A step along a row keeps the count; a step along a column
    changes the row by one and the count by the parity of [size - 1]. *)
Lemma solvable_rule_step (size y y' inv inv' d : Z) :
  0 < size -> 0 <= y -> 0 <= y' ->
  Z.even inv' = xorb (Z.even inv) (Z.even d) ->
  ((d = size \/ d = - size) /\ (y' = y + 1 \/ y' = y - 1)) \/
  ((d = 1 \/ d = -1) /\ y' = y) ->
  solvable_rule size y' inv' = solvable_rule size y inv.
Proof.
  intros Hs Hy Hy' Hinv Hd. rewrite !solvable_rule_parity by lia. rewrite Hinv.
  destruct Hd as [[Hd Hrow]|[Hd ->]].
  - assert (Z.even d = Z.even size) as -> by (destruct Hd as [->| ->]; by rewrite ?Z.even_opp).
    assert (Z.odd y' = negb (Z.odd y)) as ->.
    { destruct Hrow as [->| ->]; rewrite ?Z.odd_add, ?Z.odd_sub; simpl;
        by destruct (Z.odd y). }
    by destruct (Z.even size), (Z.odd y), (Z.even inv).
  - assert (Z.even d = false) as -> by (by destruct Hd as [->| ->]).
    by destruct (Z.even size), (Z.odd y), (Z.even inv).
Qed.

Lemma perm_identity_bounded (b : list Z) (n : Z) :
  b ≡ₚ seqZ 0 n -> Forall (fun v => v <= n - 1) b.
Proof.
  intros Hperm. apply Forall_forall. intros v Hv.
  apply (perm_identity_elem _ _ Hperm) in Hv. lia.
Qed.

(** Two board positions next to each other, as a difference of indexes. *)
Lemma neighbour_difference (n i j : Z) :
  0 < n -> 0 <= i -> 0 <= j ->
  (coord_x n i = coord_x n j /\ Z.abs (coord_y n i - coord_y n j) = 1) \/
  (coord_y n i = coord_y n j /\ Z.abs (coord_x n i - coord_x n j) = 1) ->
  ((i - j = n \/ i - j = - n) /\
   (coord_y n i = coord_y n j + 1 \/ coord_y n i = coord_y n j - 1)) \/
  ((i - j = 1 \/ i - j = -1) /\ coord_y n i = coord_y n j).
Proof.
  intros Hn Hi Hj Hadj.
  pose proof (coord_i_x_y n Hn i Hi) as Ei. pose proof (coord_i_x_y n Hn j Hj) as Ej.
  unfold coord_i in *. destruct Hadj as [[Hx Hy]|[Hy Hx]]; [left | right]; split; lia.
Qed.

(** The blank and a neighbouring tile trade places: [solvable()]'s rule gives
    the same answer before and after. *)
Lemma swap_neighbour_rule (n : Z) (b : list Z) (i j t : Z) :
  0 < n -> b ≡ₚ seqZ 0 (n * n) ->
  0 <= i -> 0 <= j ->
  b !! Z.to_nat i = Some t -> b !! Z.to_nat j = Some (n * n - 1) ->
  (coord_x n i = coord_x n j /\ Z.abs (coord_y n i - coord_y n j) = 1) \/
  (coord_y n i = coord_y n j /\ Z.abs (coord_x n i - coord_x n j) = 1) ->
  solvable_rule n (coord_y n i)
    (count_inversions n (<[Z.to_nat i := n * n - 1]> (<[Z.to_nat j := t]> b)))
  = solvable_rule n (coord_y n j) (count_inversions n b).
Proof.
  intros Hn Hperm Hi Hj Ht Hb Hadj.
  pose proof (neighbour_difference n i j Hn Hi Hj Hadj) as Hd.
  assert (Z.to_nat i <> Z.to_nat j) as Hne by lia.
  pose proof (perm_identity_length _ _ Hperm) as Hlen.
  apply lookup_lt_Some in Ht as Hi_lt. apply lookup_lt_Some in Hb as Hj_lt.
  assert (<[Z.to_nat i := n * n - 1]> (<[Z.to_nat j := t]> b) ≡ₚ seqZ 0 (n * n)) as Hperm'.
  { by rewrite (insert_crosswise_Permutation _ _ _ _ _ Hb Ht). }
  apply (solvable_rule_step n _ _ _ _ (i - j)); [done | | | | done].
  - apply Z.div_pos; lia.
  - apply Z.div_pos; lia.
  - rewrite !count_inversions_from.
    rewrite !inversions_from_classic by (by apply perm_identity_bounded).
    rewrite (swap_with_blank_parity _ b (Z.to_nat i) (Z.to_nat j) t);
      [| by eapply perm_identity_NoDup | done | done | done].
    by rewrite !Z2Nat.id by lia.
Qed.

(** ** [slide] keeps [solvable()] *)

Lemma adj_slide_keeps_solvable (p : Adjacent.Puzzle) (id : Z) (moved : bool)
    (p' : Adjacent.Puzzle) :
  Adjacent.wf p -> Adjacent.slide p id = Ok (moved, p') ->
  Adjacent.solvable p' = Adjacent.solvable p.
Proof.
  intros Hwf Hslide. destruct moved.
  - destruct (adj_slide_true_inv p id p' Hwf Hslide)
      as (Hpos & Hlegal & Hr & Hne & Hb & tile & Ht & _ & ->).
    destruct (adj_wf_blank p Hwf) as (_ & _ & Hx & Hy). simpl in Hx, Hy.
    fold (Adjacent.blank_index p) in Hx, Hy.
    apply adj_legal_adjacent in Hlegal. unfold Adjacent.orthogonally_adjacent in Hlegal.
    pose proof Hwf as (Hs & Hperm & _ & Hbv & _).
    unfold Adjacent.position in Hpos.
    remember (Adjacent.blank_index p) as bi eqn:Hbi.
    rewrite <- Hx, <- Hy in Hlegal. rewrite !adj_solvable_rule. simpl.
    rewrite <- Hy, Hbv in *. unfold Adjacent._x, Adjacent._y in *.
    apply swap_neighbour_rule; try done; lia.
  - unfold Adjacent.slide in Hslide. destruct (Adjacent.legal p id).
    + apply bind_Ok in Hslide as (? & _ & (? & _ & (? & _ & [=])%bind_Ok)%bind_Ok).
    + by injection Hslide as <-.
Qed.

(** ** The chain slide as a walk of the blank *)

(** A chain slide that returns true is a walk of the blank to [i], along its
    column in steps of [size] or along its row in steps of 1. *)
Lemma chain_slide_walk (p : Chain.Puzzle) (i : Z) (p' : Chain.Puzzle) :
  Chain.wf p -> Chain.position p i -> Chain.slide p i = Ok (true, p') ->
  exists (k : nat) (d : Z) (b' : list Z),
    (1 <= k)%nat /\ i = Chain._blank_i p + Z.of_nat k * d /\
    ((d = Chain.size p \/ d = - Chain.size p) \/
     ((d = 1 \/ d = -1) /\
      coord_y (Chain.size p) i = coord_y (Chain.size p) (Chain._blank_i p))) /\
    Chain.walk k d (Chain._blank_i p) (Chain.board p) = Ok b' /\
    p' = Chain.with_board p b'.
Proof.
  intros Hwf Hpos Hslide.
  destruct (chain_wf_blank p Hwf) as [Hb _]. pose proof Hwf as (Hs & _).
  unfold Chain.position in Hpos.
  pose proof (coord_i_x_y (Chain.size p) Hs i) as Hi.
  pose proof (coord_i_x_y (Chain.size p) Hs (Chain._blank_i p)) as Hbi.
  unfold coord_i in *.
  assert (forall step m, 0 < step -> m <> 0 -> Chain._blank_i p = i + m * step ->
          Chain.move_blank p step i (Chain._blank_i p) = Ok (true, p') ->
          exists (k : nat) (d : Z) (b' : list Z),
            (1 <= k)%nat /\ i = Chain._blank_i p + Z.of_nat k * d /\
            (d = step \/ d = - step) /\
            Chain.walk k d (Chain._blank_i p) (Chain.board p) = Ok b' /\
            p' = Chain.with_board p b') as Hmove.
  { intros step m Hstep Hm Heq. unfold Chain.move_blank.
    destruct (decide (0 < m)) as [Hpos_m|Hneg_m].
    - rewrite !decide_True by nia.
      rewrite (chain_while_gt_walk (Z.to_nat m)) by nia.
      intros (b' & Hwalk & [= <-])%bind_Ok.
      exists (Z.to_nat m), (- step), b'. repeat split; try done; [lia | lia | by right].
    - rewrite !(decide_False (P := Chain._blank_i p > i)) by nia.
      rewrite decide_True by nia.
      rewrite (chain_while_lt_walk (Z.to_nat (- m))) by nia.
      intros (b' & Hwalk & [= <-])%bind_Ok.
      exists (Z.to_nat (- m)), step, b'. repeat split; try done; [lia | lia | by left]. }
  unfold Chain.slide, Chain._x, Chain._y in Hslide.
  destruct (decide (coord_x (Chain.size p) i = coord_x (Chain.size p) (Chain._blank_i p) /\
                    coord_y (Chain.size p) i = coord_y (Chain.size p) (Chain._blank_i p)))
    as [Hboth|Hnot]; [discriminate|].
  destruct (decide (coord_x (Chain.size p) i = coord_x (Chain.size p) (Chain._blank_i p)))
    as [Hx|Hx].
  { destruct (Hmove (Chain.size p)
                (coord_y (Chain.size p) (Chain._blank_i p) - coord_y (Chain.size p) i))
      as (k & d & b' & Hk & Hd & Hdir & Hwalk & Hp'); [done | | lia | done |].
    { intros ?. apply Hnot. split; [done | lia]. }
    exists k, d, b'. repeat split; try done. by left. }
  destruct (decide (coord_y (Chain.size p) i = coord_y (Chain.size p) (Chain._blank_i p)))
    as [Hy|Hy]; [|discriminate].
  destruct (Hmove 1
              (coord_x (Chain.size p) (Chain._blank_i p) - coord_x (Chain.size p) i))
    as (k & d & b' & Hk & Hd & Hdir & Hwalk & Hp'); [done | lia | lia | done |].
  exists k, d, b'. repeat split; try done. by right.
Qed.

(** Rows and columns one step away. *)
Lemma coord_step_column (n j d : Z) :
  0 < n -> 0 <= j -> 0 <= j + d -> d = n \/ d = - n ->
  coord_x n (j + d) = coord_x n j /\ Z.abs (coord_y n (j + d) - coord_y n j) = 1.
Proof.
  intros Hn Hj Hjd Hd. unfold coord_x, coord_y.
  rewrite !Z.rem_mod_nonneg by lia.
  destruct Hd as [->| ->].
  - replace (j + n) with (j + 1 * n) by lia.
    rewrite Z_mod_plus_full, Z_div_plus_full by lia. lia.
  - replace (j + - n) with (j + -1 * n) by lia.
    rewrite Z_mod_plus_full, Z_div_plus_full by lia. lia.
Qed.

Lemma coord_step_row (n j d : Z) :
  0 < n -> 0 <= j -> 0 <= j + d -> d = 1 \/ d = -1 ->
  coord_y n (j + d) = coord_y n j ->
  coord_y n (j + d) = coord_y n j /\ Z.abs (coord_x n (j + d) - coord_x n j) = 1.
Proof.
  intros Hn Hj Hjd Hd Hy.
  pose proof (coord_i_x_y n Hn j Hj) as Ej.
  pose proof (coord_i_x_y n Hn (j + d) Hjd) as Ejd.
  unfold coord_i in *. rewrite Hy in Ejd. split; [done | lia].
Qed.

(** Between two cells of one row, every cell is in that row. *)
Lemma coord_y_between (n j d k : Z) :
  0 < n -> 0 <= k -> d = 1 \/ d = -1 ->
  coord_y n (j + (k + 1) * d) = coord_y n j ->
  coord_y n (j + d) = coord_y n j /\ coord_y n (j + d + k * d) = coord_y n (j + d).
Proof.
  intros Hn Hk Hd Hy. unfold coord_y in *.
  replace (j + d + k * d) with (j + (k + 1) * d) by lia.
  destruct Hd as [->| ->].
  - pose proof (Z.div_le_mono j (j + 1) n Hn). 
    pose proof (Z.div_le_mono (j + 1) (j + (k + 1) * 1) n Hn). lia.
  - pose proof (Z.div_le_mono (j + -1) j n Hn).
    pose proof (Z.div_le_mono (j + (k + 1) * -1) (j + -1) n Hn). lia.
Qed.

Lemma chain_walk_keeps_rule (n : Z) (k : nat) (d j : Z) (b b' : list Z) :
  0 < n -> b ≡ₚ seqZ 0 (n * n) ->
  0 <= j < n * n -> 0 <= j + Z.of_nat k * d < n * n ->
  b !! Z.to_nat j = Some (n * n - 1) ->
  ((d = n \/ d = - n) \/
   ((d = 1 \/ d = -1) /\ coord_y n (j + Z.of_nat k * d) = coord_y n j)) ->
  Chain.walk k d j b = Ok b' ->
  b' ≡ₚ seqZ 0 (n * n) /\
  b' !! Z.to_nat (j + Z.of_nat k * d) = Some (n * n - 1) /\
  solvable_rule n (coord_y n (j + Z.of_nat k * d)) (count_inversions n b')
  = solvable_rule n (coord_y n j) (count_inversions n b).
Proof.
  intros Hn. revert j b. induction k as [|k IH]; intros j b Hperm Hj Hend Hblank Hdir Hwalk.
  - simpl in Hwalk. injection Hwalk as <-. by rewrite Z.add_0_r.
  - simpl in Hwalk. apply bind_Ok in Hwalk as (b1 & Hswap & Hwalk).
    apply chain_swap_Ok in Hswap as (v1 & v2 & _ & Hjd & Hv1 & Hv2 & ->).
    rewrite Hblank in Hv1. injection Hv1 as <-.
    pose proof (perm_identity_length _ _ Hperm) as Hlen.
    apply lookup_lt_Some in Hv2 as Hjd_lt.
    assert (d <> 0) as Hd0 by (destruct Hdir as [[?|?]|[[?|?] _]]; lia).
    assert (j + d <> j) by lia.
    set (b1 := <[Z.to_nat (j + d) := n * n - 1]> (<[Z.to_nat j := v2]> b)) in *.
    assert (b1 ≡ₚ seqZ 0 (n * n)) as Hperm1.
    { unfold b1. by rewrite (insert_crosswise_Permutation _ _ _ _ _ Hblank Hv2). }
    assert (b1 !! Z.to_nat (j + d) = Some (n * n - 1)) as Hblank1.
    { unfold b1. apply list_lookup_insert_eq. rewrite length_insert. lia. }
    replace (j + Z.of_nat (S k) * d) with (j + d + Z.of_nat k * d) in * by lia.
    assert (((d = n \/ d = - n) \/
             ((d = 1 \/ d = -1) /\
              coord_y n (j + d + Z.of_nat k * d) = coord_y n (j + d))) /\
            ((coord_x n (j + d) = coord_x n j /\
              Z.abs (coord_y n (j + d) - coord_y n j) = 1) \/
             (coord_y n (j + d) = coord_y n j /\
              Z.abs (coord_x n (j + d) - coord_x n j) = 1))) as [Hdir1 Hadj].
    { destruct Hdir as [Hcol|[Hrow Hy]].
      - split; [by left|]. left. apply coord_step_column; (done || lia).
      - replace (j + d + Z.of_nat k * d) with (j + (Z.of_nat k + 1) * d) in Hy by lia.
        destruct (coord_y_between n j d (Z.of_nat k)) as [Hy1 Hy2]; [done | lia | done | done |].
        split; [right; by split|]. right. apply coord_step_row; (done || lia). }
    destruct (IH (j + d) b1) as (Hperm' & Hblank' & Hrule); try done; [lia|].
    repeat split; try done.
    rewrite Hrule. unfold b1. apply swap_neighbour_rule; (done || lia).
Qed.

Lemma chain_slide_keeps_solvable (p : Chain.Puzzle) (i : Z) (moved : bool)
    (p' : Chain.Puzzle) :
  Chain.wf p -> Chain.position p i -> Chain.slide p i = Ok (moved, p') ->
  Chain.solvable p' = Chain.solvable p.
Proof.
  intros Hwf Hpos Hslide. destruct moved.
  - destruct (chain_slide_walk p i p' Hwf Hpos Hslide)
      as (k & d & b' & Hk & Hi & Hdir & Hwalk & ->).
    destruct (chain_wf_blank p Hwf) as [Hb Hblank].
    pose proof Hwf as (Hs & Hperm & Hbv). unfold Chain.position in Hpos.
    rewrite Hbv in Hblank.
    destruct (chain_walk_keeps_rule (Chain.size p) k d (Chain._blank_i p) (Chain.board p) b')
      as (Hperm' & Hblank' & Hrule); try done; [lia | by rewrite <- Hi |].
    rewrite !chain_solvable_rule. simpl. rewrite <- Hrule. f_equal. f_equal.
    unfold Chain._blank_i at 1. simpl. rewrite Hbv.
    rewrite (indexOf_lookup b' _ _ (perm_identity_NoDup _ _ Hperm') Hblank'). lia.
  - destruct (chain_slide_cases p i Hwf Hpos) as (moved & p'' & Hslide' & _ & _ & Hsame).
    rewrite Hslide in Hslide'. injection Hslide' as <- <-. by rewrite Hsame.
Qed.

(** ** The fresh board and the reachable boards are solvable *)

Lemma smaller_in_none (x : Z) (l : list Z) :
  Forall (fun y => x <= y) l -> smaller_in x l = 0.
Proof.
  unfold smaller_in. induction 1 as [|y l Hy _ IH]; [done|].
  by rewrite filter_cons_False by lia.
Qed.

Lemma inversions_from_seqZ (blank m n : Z) : inversions_from blank (seqZ m n) = 0.
Proof.
  remember (Z.to_nat n) as k eqn:Hk. revert m n Hk.
  induction k as [|k IH]; intros m n Hk.
  - by rewrite seqZ_nil by lia.
  - rewrite seqZ_cons by lia. simpl. rewrite IH by lia.
    rewrite smaller_in_none; [by case_decide|].
    apply Forall_forall. intros y Hy%elem_of_seqZ. lia.
Qed.

Lemma count_inversions_identity (n : Z) : count_inversions n (seqZ 0 (n * n)) = 0.
Proof. by rewrite count_inversions_from, inversions_from_seqZ. Qed.

Lemma solvable_rule_fresh (n : Z) : 0 < n -> solvable_rule n (n - 1) 0 = true.
Proof.
  intros Hn. rewrite solvable_rule_parity by lia. simpl.
  destruct (Z.even n) eqn:He; [|done].
  by rewrite Z.odd_sub, <- Z.negb_even, He.
Qed.

Lemma adj_fresh_solvable (n : Z) (p : Adjacent.Puzzle) :
  0 < n -> Adjacent.constructor n = Ok p -> Adjacent.solvable p = true.
Proof.
  intros Hn [_ ->]%adj_constructor_inv. rewrite adj_solvable_rule. simpl.
  rewrite count_inversions_identity. by apply solvable_rule_fresh.
Qed.

Lemma chain_fresh_solvable (n : Z) (p : Chain.Puzzle) :
  0 < n -> Chain.constructor n = Ok p -> Chain.solvable p = true.
Proof.
  intros Hn [_ ->]%chain_constructor_inv. rewrite chain_solvable_rule. simpl.
  rewrite count_inversions_identity.
  replace (coord_y n (Chain._blank_i _)) with (n - 1); [by apply solvable_rule_fresh|].
  unfold Chain._blank_i. simpl.
  rewrite (indexOf_lookup _ (Z.to_nat (n * n - 1)) (n * n - 1)).
  - replace (Z.of_nat (Z.to_nat (n * n - 1))) with (coord_i n (n - 1) (n - 1))
      by (unfold coord_i; nia).
    symmetry. apply coord_y_i; lia.
  - apply NoDup_seqZ.
  - rewrite lookup_identity by nia. f_equal. nia.
Qed.

Lemma adj_randomize_solvable (fuel : nat) (rnd : random_source) (k : nat)
    (p p' : Adjacent.Puzzle) (k' : nat) :
  Adjacent.randomize fuel rnd k p = Ok (p', k') -> Adjacent.solvable p' = true.
Proof.
  revert k p. induction fuel as [|fuel IH]; intros k p Hrun; [discriminate|].
  simpl in Hrun. destruct (Adjacent.randomize_round rnd k p) as [p1 k1].
  destruct (Adjacent.solvable p1) eqn:Hsolvable.
  - by injection Hrun as <- <-.
  - by eapply IH.
Qed.

Lemma chain_randomize_solvable (fuel : nat) (rnd : random_source) (k : nat)
    (p p' : Chain.Puzzle) (k' : nat) :
  Chain.randomize fuel rnd k p = Ok (p', k') -> Chain.solvable p' = true.
Proof.
  revert k p. induction fuel as [|fuel IH]; intros k p Hrun; [discriminate|].
  simpl in Hrun. destruct (Chain.randomize_round rnd k p) as [p1 k1].
  destruct (Chain.solvable p1) eqn:Hsolvable.
  - by injection Hrun as <- <-.
  - by eapply IH.
Qed.

(** The loops of the chain slide cannot end beyond the board. *)
Lemma chain_while_lt_beyond (fuel : nat) (step i j : Z) (b b' : list Z) :
  0 < step -> Z.of_nat (length b) <= i -> j < Z.of_nat (length b) ->
  Chain.while_lt fuel step i j b <> Ok b'.
Proof.
  intros Hstep. revert j b. induction fuel as [|fuel IH]; intros j b Hi Hj; simpl;
    rewrite decide_True by lia; [done|].
  intros (b1 & Hswap & Hloop)%bind_Ok.
  apply chain_swap_Ok in Hswap as (v1 & v2 & _ & _ & Hv1 & Hv2 & ->).
  apply lookup_lt_Some in Hv2.
  apply IH in Hloop; [done | rewrite !length_insert; lia..].
Qed.

Lemma chain_while_gt_beyond (fuel : nat) (step i j : Z) (b b' : list Z) :
  0 < step -> i < 0 -> 0 <= j ->
  Chain.while_gt fuel step i j b <> Ok b'.
Proof.
  intros Hstep Hi. revert j b. induction fuel as [|fuel IH]; intros j b Hj; simpl;
    rewrite decide_True by lia; [done|].
  intros (b1 & Hswap & Hloop)%bind_Ok.
  apply chain_swap_Ok in Hswap as (v1 & v2 & _ & Hjs & _ & _ & ->).
  by apply (IH (j - step) _) in Hloop.
Qed.

(** A chain slide that returns true was asked for a board position. *)
Lemma chain_slide_true_position (p : Chain.Puzzle) (i : Z) (p' : Chain.Puzzle) :
  Chain.wf p -> Chain.slide p i = Ok (true, p') -> Chain.position p i.
Proof.
  intros Hwf Hslide. pose proof (chain_wf_length p Hwf) as Hlen.
  destruct (chain_wf_blank p Hwf) as [Hb _]. pose proof Hwf as (Hs & _).
  unfold Chain.position.
  destruct (decide (0 <= i < Chain.size p * Chain.size p)) as [|Hout]; [done|].
  exfalso.
  assert (coord_y (Chain.size p) i <> coord_y (Chain.size p) (Chain._blank_i p)) as Hrow.
  { pose proof (coord_y_range (Chain.size p) Hs (Chain._blank_i p) Hb).
    unfold coord_y in *. destruct (decide (i < 0)).
    - pose proof (Z.div_lt_upper_bound i (Chain.size p) 0 Hs). lia.
    - pose proof (Z.div_le_lower_bound i (Chain.size p) (Chain.size p) Hs). lia. }
  unfold Chain.slide, Chain._x, Chain._y in Hslide.
  rewrite decide_False in Hslide by (intros [_ ?]; done).
  destruct (decide (coord_x (Chain.size p) i = coord_x (Chain.size p) (Chain._blank_i p)));
    [|by rewrite decide_False in Hslide].
  unfold Chain.move_blank in Hslide. destruct (decide (i < 0)).
  - rewrite decide_True in Hslide by lia.
    apply bind_Ok in Hslide as (b' & Hloop & _).
    by apply chain_while_gt_beyond in Hloop; [| lia..].
  - rewrite decide_False, decide_True in Hslide by lia.
    apply bind_Ok in Hslide as (b' & Hloop & _).
    by apply chain_while_lt_beyond in Hloop; [| lia..].
Qed.

(** A chain slide that returns false changed nothing. *)
Lemma chain_slide_false_same (p : Chain.Puzzle) (i : Z) (p' : Chain.Puzzle) :
  Chain.slide p i = Ok (false, p') -> p' = p.
Proof.
  unfold Chain.slide, Chain.move_blank. repeat case_decide;
    try (by intros [= <-]);
    try (by intros (? & _ & [=])%bind_Ok).
Qed.

Lemma chain_slide_keeps_solvable_any (p : Chain.Puzzle) (i : Z) (moved : bool)
    (p' : Chain.Puzzle) :
  Chain.wf p -> Chain.slide p i = Ok (moved, p') ->
  Chain.solvable p' = Chain.solvable p.
Proof.
  intros Hwf Hslide. destruct moved.
  - apply (chain_slide_keeps_solvable p i true); [done | | done].
    by eapply chain_slide_true_position.
  - by apply chain_slide_false_same in Hslide as ->.
Qed.

Lemma adj_reachable_solvable (n : Z) (p : Adjacent.Puzzle) :
  0 < n -> Adjacent.reachable n p -> Adjacent.solvable p = true.
Proof.
  intros Hn Hreach.
  induction Hreach as [p Hnew | p id moved p' Hp IH Hslide | p fuel rnd k p' k' _ IH Hrun].
  - by eapply adj_fresh_solvable.
  - rewrite <- IH. eapply adj_slide_keeps_solvable; [|done]. by eapply adj_reachable_wf.
  - by eapply adj_randomize_solvable.
Qed.

Lemma chain_reachable_solvable (n : Z) (p : Chain.Puzzle) :
  0 < n -> Chain.reachable n p -> Chain.solvable p = true.
Proof.
  intros Hn Hreach.
  induction Hreach as [p Hnew | p i moved p' Hp IH Hslide | p fuel rnd k p' k' _ IH Hrun].
  - by eapply chain_fresh_solvable.
  - rewrite <- IH. eapply chain_slide_keeps_solvable_any; [|done].
    by eapply chain_reachable_wf.
  - by eapply chain_randomize_solvable.
Qed.

(** ** [shuffle]: the draws it makes and the arrays it can return *)

Lemma shuffle_loop_cursor (fuel : nat) (rnd : random_source) (k : nat)
    (arr acc : list Z) :
  length arr = fuel -> (shuffle_loop fuel rnd k arr acc).2 = (k + fuel)%nat.
Proof.
  revert k arr acc. induction fuel as [|fuel IH]; intros k arr acc Hlen; simpl.
  - lia.
  - case_decide as Hz; [lia|].
    assert (random_index rnd k (length arr) < length arr)%nat as Hri
      by (apply Nat.mod_upper_bound; lia).
    rewrite IH; [lia|]. rewrite length_delete by (by apply lookup_lt_is_Some_2). lia.
Qed.

Lemma shuffle_loop_acc (fuel : nat) (rnd : random_source) (k : nat) (arr acc : list Z) :
  (shuffle_loop fuel rnd k arr acc).1 = acc ++ (shuffle_loop fuel rnd k arr []).1.
Proof.
  revert k arr acc. induction fuel as [|fuel IH]; intros k arr acc; simpl.
  - by rewrite app_nil_r.
  - case_decide; simpl; [by rewrite app_nil_r|].
    rewrite (IH _ _ (acc ++ _)), (IH _ _ [_]). by rewrite <- app_assoc.
Qed.

(** [shuffle] looks at the oracle from the cursor on only. *)
Lemma shuffle_loop_ext (fuel : nat) (rnd1 rnd2 : random_source) (k : nat)
    (arr acc : list Z) :
  (forall c, (k <= c)%nat -> rnd1 c = rnd2 c) ->
  shuffle_loop fuel rnd1 k arr acc = shuffle_loop fuel rnd2 k arr acc.
Proof.
  revert k arr acc. induction fuel as [|fuel IH]; intros k arr acc Hext; simpl; [done|].
  case_decide; [done|]. unfold random_index. rewrite (Hext k) by lia.
  apply IH. intros c Hc. apply Hext. lia.
Qed.

Lemma shuffle_reaches (l' arr : list Z) (k : nat) :
  l' ≡ₚ arr -> exists rnd, shuffle rnd k arr = (l', (k + length arr)%nat).
Proof.
  revert arr k. induction l' as [|x r IH]; intros arr k Hperm.
  - apply Permutation_nil_l in Hperm. subst arr. exists (fun _ => 0%nat).
    unfold shuffle. simpl. f_equal. lia.
  - assert (x ∈ arr) as [i Hi]%list_elem_of_lookup_1 by (rewrite <- Hperm; constructor).
    apply lookup_lt_Some in Hi as Hlt.
    assert (r ≡ₚ delete i arr) as Hrest.
    { apply (Permutation_cons_inv (a := x)).
      by rewrite Hperm, <- (delete_Permutation arr i x Hi). }
    destruct (IH (delete i arr) (S k) Hrest) as [rnd' Hrnd'].
    exists (fun c => if decide (c = k) then i else rnd' c).
    unfold shuffle in *. destruct arr as [|a arr]; [simpl in Hlt; lia|].
    cbn [shuffle_loop length]. rewrite decide_False by lia.
    unfold random_index. rewrite decide_True by done.
    rewrite Nat.mod_small by done.
    rewrite (list_lookup_total_correct _ _ _ Hi). simpl app.
    rewrite (shuffle_loop_ext _ _ rnd')
      by (intros c Hc; rewrite decide_False by lia; done).
    assert (length (delete i (a :: arr)) = length arr) as Hlen
      by (rewrite length_delete by eauto; simpl; lia).
    rewrite <- Hlen.
    rewrite (surjective_pairing (shuffle_loop _ rnd' (S k) _ [x])).
    rewrite shuffle_loop_acc, Hrnd', shuffle_loop_cursor by done. simpl.
    f_equal. lia.
Qed.

(** ** Coordinates of a negative index *)

Lemma coord_roundtrip_negative (n i : Z) :
  0 < n -> i < 0 ->
  coord_i n (coord_x n i) (coord_y n i)
  = if decide (coord_x n i = 0) then i else i - n.
Proof.
  intros Hn Hi. unfold coord_i, coord_x, coord_y.
  pose proof (Z.quot_rem' i n) as Hq. pose proof (Z.rem_nonpos i n) as Hr.
  pose proof (Z.rem_bound_abs i n) as Ha.
  pose proof (Z.div_mod i n) as Hd. pose proof (Z.mod_pos_bound i n Hn) as Hm.
  generalize dependent (Z.rem i n). generalize dependent (Z.quot i n).
  generalize dependent (i mod n). generalize dependent (i / n).
  intros q2 r2 Hd Hm q1 r1 Hq Hr Ha.
  assert (q1 = q2 \/ q1 = q2 + 1) as [->| ->] by nia; case_decide; nia.
Qed.

(** ** [solved()] compares index by index *)

Lemma every_from_spec {A : Type} (f : nat -> A -> bool) (k : nat) (l : list A) :
  every_from f k l = true <-> forall i x, l !! i = Some x -> f (k + i)%nat x = true.
Proof.
  revert k. induction l as [|y l IH]; intros k; simpl.
  - split; [intros _ i x; by rewrite lookup_nil | done].
  - rewrite andb_true_iff, IH. split.
    + intros [Hy Hl] [|i] x; simpl.
      * intros [= <-]. by rewrite Nat.add_0_r.
      * intros Hx. replace (k + S i)%nat with (S k + i)%nat by lia. by apply Hl.
    + intros H. split.
      * rewrite <- (Nat.add_0_r k). by apply (H 0%nat).
      * intros i x Hx. replace (S k + i)%nat with (k + S i)%nat by lia. by apply (H (S i)).
Qed.

Lemma equals_elementwise_spec (board reference : list Z) :
  equals_elementwise board reference = true
  <-> forall i v, board !! i = Some v -> reference !! i = Some v.
Proof.
  unfold equals_elementwise, every. rewrite every_from_spec. simpl.
  split; intros H i v Hv; specialize (H i v Hv).
  - destruct (reference !! i) as [w|]; [|done].
    apply bool_decide_eq_true in H. by subst.
  - rewrite H. by apply bool_decide_eq_true.
Qed.

Lemma equals_elementwise_eq (board reference : list Z) :
  length board = length reference ->
  equals_elementwise board reference = true <-> board = reference.
Proof.
  intros Hlen. rewrite equals_elementwise_spec. split.
  - intros H. apply list_eq. intros i.
    destruct (board !! i) as [v|] eqn:Hv; [symmetry; by apply H|].
    symmetry. apply lookup_ge_None. apply lookup_ge_None in Hv. lia.
  - by intros ->.
Qed.

(** ** Sliding back *)

Lemma adj_slide_undo (p : Adjacent.Puzzle) (id : Z) (p' : Adjacent.Puzzle) :
  Adjacent.wf p -> Adjacent.slide p id = Ok (true, p') ->
  Adjacent.slide p' (Adjacent.blank_index p) = Ok (true, p).
Proof.
  intros Hwf Hslide.
  pose proof (adj_wf_slide p id true p' Hwf Hslide) as Hwf'.
  destruct (adj_slide_true_inv p id p' Hwf Hslide)
    as (Hpos & Hlegal & Hr & Hne & Hb & tile & Ht & _ & Hp').
  destruct (adj_wf_blank p Hwf) as (_ & _ & Hx & Hy). simpl in Hx, Hy.
  fold (Adjacent.blank_index p) in Hx, Hy.
  pose proof (adj_wf_length p Hwf) as Hlen. pose proof Hwf as (Hs & _).
  unfold Adjacent.position in Hpos.
  remember (Adjacent.blank_index p) as bi eqn:Hbi.
  destruct (adj_slide_legal p' bi Hwf') as (tile' & Ht' & Hback).
  { unfold Adjacent.position. by rewrite Hp'. }
  { unfold Adjacent.legal in *. apply bool_decide_eq_true in Hlegal.
    apply bool_decide_eq_true. rewrite Hp'. unfold Adjacent._x, Adjacent._y in *.
    simpl. rewrite Hx, Hy. lia. }
  rewrite Hback. f_equal. f_equal. rewrite Hp' in Ht' |- *.
  unfold Adjacent._i, Adjacent._x, Adjacent._y in *. simpl in *.
  rewrite list_lookup_insert_ne in Ht' by lia.
  rewrite list_lookup_insert_eq in Ht' by lia. injection Ht' as <-.
  rewrite coord_i_x_y by lia. rewrite Hx, Hy.
  rewrite list_insert_insert_eq.
  rewrite (list_insert_insert_ne _ (Z.to_nat bi) (Z.to_nat id)) by lia.
  rewrite list_insert_insert_eq.
  rewrite (list_insert_id _ (Z.to_nat bi)) by done.
  rewrite (list_insert_id _ (Z.to_nat id)) by done.
  by destruct p.
Qed.

Lemma chain_swap_undo (b : list Z) (i1 i2 : Z) (b1 : list Z) :
  Chain._swap b i1 i2 = Ok b1 -> Chain._swap b1 i2 i1 = Ok b.
Proof.
  intros (v1 & v2 & Hi1 & Hi2 & Hv1 & Hv2 & ->)%chain_swap_Ok.
  apply lookup_lt_Some in Hv1 as Hlt1. apply lookup_lt_Some in Hv2 as Hlt2.
  apply chain_swap_Ok.
  destruct (decide (Z.to_nat i1 = Z.to_nat i2)) as [Heq|Hne].
  - rewrite Heq in *. assert (v1 = v2) as <- by congruence.
    exists v1, v1. repeat split; try done.
    + apply list_lookup_insert_eq. by rewrite length_insert.
    + apply list_lookup_insert_eq. by rewrite length_insert.
    + rewrite !list_insert_insert_eq. by rewrite list_insert_id.
  - exists v1, v2. repeat split; try done.
    + apply list_lookup_insert_eq. by rewrite length_insert.
    + rewrite list_lookup_insert_ne by done. by apply list_lookup_insert_eq.
    + rewrite list_insert_insert_eq.
      rewrite (list_insert_insert_ne _ (Z.to_nat i2) (Z.to_nat i1)) by done.
      rewrite list_insert_insert_eq.
      rewrite (list_insert_id _ (Z.to_nat i2)) by done.
      by rewrite list_insert_id.
Qed.

Lemma chain_walk_snoc (k : nat) (d j : Z) (b : list Z) :
  Chain.walk (S k) d j b
  = (do b2 <- Chain.walk k d j b;
     Chain._swap b2 (j + Z.of_nat k * d) (j + Z.of_nat k * d + d)).
Proof.
  revert j b. induction k as [|k IH]; intros j b.
  - simpl. rewrite Z.add_0_r. by destruct (Chain._swap b j (j + d)).
  - change (Chain.walk (S (S k)) d j b)
      with (do b1 <- Chain._swap b j (j + d); Chain.walk (S k) d (j + d) b1).
    change (Chain.walk (S k) d j b)
      with (do b1 <- Chain._swap b j (j + d); Chain.walk k d (j + d) b1).
    destruct (Chain._swap b j (j + d)) as [b1|e]; cbn [result_bind]; [|done].
    rewrite IH.
    by replace (j + Z.of_nat (S k) * d) with (j + d + Z.of_nat k * d) by lia.
Qed.

(** Walking back over the same cells undoes a walk. *)
Lemma chain_walk_reverse (k : nat) (d j : Z) (b b' : list Z) :
  Chain.walk k d j b = Ok b' ->
  Chain.walk k (- d) (j + Z.of_nat k * d) b' = Ok b.
Proof.
  revert j b. induction k as [|k IH]; intros j b Hwalk.
  - simpl in *. by injection Hwalk as ->.
  - simpl in Hwalk. apply bind_Ok in Hwalk as (b1 & Hswap & Hwalk).
    rewrite chain_walk_snoc. apply bind_Ok. exists b1. split.
    + replace (j + Z.of_nat (S k) * d) with (j + d + Z.of_nat k * d) by lia.
      by apply IH.
    + replace (j + Z.of_nat (S k) * d + Z.of_nat k * - d) with (j + d) by lia.
      replace (j + d + - d) with j by lia.
      by apply chain_swap_undo.
Qed.

Lemma coord_column_steps (n j m : Z) :
  0 < n -> 0 <= j -> 0 <= j + m * n ->
  coord_x n (j + m * n) = coord_x n j /\ coord_y n (j + m * n) = coord_y n j + m.
Proof.
  intros Hn Hj Hjm. unfold coord_x, coord_y.
  rewrite !Z.rem_mod_nonneg by lia.
  by rewrite Z_mod_plus_full, Z_div_plus_full by lia.
Qed.

(** The blank of [p] after a walk sits where the walk ended. *)
Lemma chain_walk_blank (p : Chain.Puzzle) (k : nat) (d : Z) (b' : list Z) :
  Chain.wf p -> d <> 0 ->
  0 <= Chain._blank_i p + Z.of_nat k * d < Chain.size p * Chain.size p ->
  Chain.walk k d (Chain._blank_i p) (Chain.board p) = Ok b' ->
  Chain.wf (Chain.with_board p b') /\
  Chain._blank_i (Chain.with_board p b') = Chain._blank_i p + Z.of_nat k * d.
Proof.
  intros Hwf Hd Hend Hwalk.
  destruct (chain_wf_blank p Hwf) as [Hb Hblank]. pose proof Hwf as (Hs & Hperm & Hbv).
  assert (b' ≡ₚ Chain.board p) as Hperm'.
  { clear -Hwalk. revert Hwalk. generalize (Chain._blank_i p) (Chain.board p).
    induction k as [|k IH]; intros j b; simpl; [by intros [= ->]|].
    intros (b1 & Hswap & Hloop)%bind_Ok.
    rewrite (IH _ _ Hloop). by eapply chain_swap_Permutation. }
  split; [unfold Chain.wf; simpl; by rewrite Hperm'|].
  pose proof (chain_wf_length p Hwf) as Hlen.
  destruct (chain_walk_spec k d (Chain._blank_i p) (Chain.board p))
    as (b'' & Hwalk' & Hlast & _); [done | lia | lia |].
  rewrite Hwalk in Hwalk'. injection Hwalk' as <-.
  unfold Chain._blank_i at 1. simpl.
  rewrite (indexOf_lookup b' (Z.to_nat (Chain._blank_i p + Z.of_nat k * d))
             (Chain.blank_val p)); [lia | | by rewrite Hlast].
  rewrite Hperm'. by eapply perm_identity_NoDup.
Qed.

Lemma chain_slide_undo (p : Chain.Puzzle) (i : Z) (p' : Chain.Puzzle) :
  Chain.wf p -> Chain.slide p i = Ok (true, p') ->
  Chain.slide p' (Chain._blank_i p) = Ok (true, p).
Proof.
  intros Hwf Hslide.
  pose proof (chain_slide_true_position p i p' Hwf Hslide) as Hpos.
  destruct (chain_slide_walk p i p' Hwf Hpos Hslide)
    as (k & d & b' & Hk & Hi & Hdir & Hwalk & ->).
  destruct (chain_wf_blank p Hwf) as [Hb _]. pose proof Hwf as (Hs & _).
  unfold Chain.position in Hpos.
  assert (d <> 0) as Hd.
  { destruct Hdir as [[?|?]|[[?|?] _]]; lia. }
  destruct (chain_walk_blank p k d b' Hwf) as [Hwf' Hblank']; [done | lia | done |].
  rewrite <- Hi in Hblank'.
  set (p' := Chain.with_board p b') in *.
  assert (Chain.position p' (Chain._blank_i p)) as Hpos' by done.
  destruct (chain_slide_cases p' (Chain._blank_i p) Hwf' Hpos')
    as (moved & p'' & Hback & Hiff & _ & _).
  assert (moved = true) as ->.
  { apply Hiff. unfold Chain.in_line_with_blank. rewrite Hblank'.
    unfold Chain._x, Chain._y. change (Chain.size p') with (Chain.size p).
    split; [|nia]. destruct Hdir as [Hcol|[_ Hrow]]; [left | by right].
    assert (exists m, i = Chain._blank_i p + m * Chain.size p) as [m ->].
    { destruct Hcol as [->| ->]; [by exists (Z.of_nat k) | exists (- Z.of_nat k); lia]. }
    symmetry. apply coord_column_steps; lia. }
  rewrite Hback. f_equal. f_equal.
  destruct (chain_slide_walk p' (Chain._blank_i p) p'' Hwf' Hpos' Hback)
    as (k' & d' & b'' & Hk' & Hi' & Hdir' & Hwalk' & ->).
  rewrite Hblank' in Hi', Hdir', Hwalk'.
  change (Chain.size p') with (Chain.size p) in *. change (Chain.board p') with b' in *.
  assert (k' = k /\ d' = - d) as [-> ->].
  { destruct Hdir as [Hcol|[Hrow Hy]], Hdir' as [Hcol'|[Hrow' Hy']].
    - destruct Hcol as [->| ->], Hcol' as [->| ->]; nia.
    - exfalso.
      assert (exists m, m <> 0 /\ i = Chain._blank_i p + m * Chain.size p) as (m & Hm & Hi'').
      { destruct Hcol as [Hcol|Hcol]; rewrite Hcol in Hi;
          [exists (Z.of_nat k) | exists (- Z.of_nat k)]; split; lia. }
      destruct (coord_column_steps (Chain.size p) (Chain._blank_i p) m) as [_ Hym];
        [lia..|].
      rewrite <- Hi'' in Hym. lia.
    - exfalso.
      assert (exists m, m <> 0 /\ Chain._blank_i p = i + m * Chain.size p)
        as (m & Hm & Hi'').
      { destruct Hcol' as [Hcol'|Hcol']; rewrite Hcol' in Hi';
          [exists (Z.of_nat k') | exists (- Z.of_nat k')]; split; lia. }
      destruct (coord_column_steps (Chain.size p) i m) as [_ Hym]; [lia..|].
      rewrite <- Hi'' in Hym. lia.
    - destruct Hrow as [->| ->], Hrow' as [->| ->]; lia. }
  apply chain_walk_reverse in Hwalk. rewrite <- Hi in Hwalk.
  rewrite Hwalk in Hwalk'. injection Hwalk' as <-.
  unfold p', Chain.with_board. simpl. by destruct p.
Qed.

(** ** The two variants on a neighbour of the blank *)

Lemma chain_adjacent_agree (pa : Adjacent.Puzzle) (pc : Chain.Puzzle) (id : Z)
    (pa' : Adjacent.Puzzle) :
  Adjacent.wf pa ->
  Chain.size pc = Adjacent.size pa -> Chain.board pc = Adjacent.board pa ->
  Chain.blank_val pc = Adjacent._blank_val pa ->
  Adjacent.slide pa id = Ok (true, pa') ->
  exists pc', Chain.slide pc id = Ok (true, pc') /\ Chain.board pc' = Adjacent.board pa'.
Proof.
  intros Hwfa Hsize Hboard Hbv Hslide.
  destruct (adj_slide_true_inv pa id pa' Hwfa Hslide)
    as (Hpos & Hlegal & Hr & Hne & Hb & tile & Ht & _ & ->).
  destruct (adj_wf_blank pa Hwfa) as (_ & Hidx & Hx & Hy). simpl in Hidx, Hx, Hy.
  fold (Adjacent.blank_index pa) in Hidx, Hx, Hy.
  pose proof Hwfa as (Hs & Hperm & _ & Hbva & _).
  assert (Chain.wf pc) as Hwfc.
  { unfold Chain.wf. by rewrite Hsize, Hboard, Hbv. }
  assert (Chain._blank_i pc = Adjacent.blank_index pa) as Hbi.
  { unfold Chain._blank_i. by rewrite Hboard, Hbv. }
  assert (Chain.position pc id) as Hposc.
  { unfold Chain.position, Adjacent.position in *. by rewrite Hsize. }
  apply adj_legal_adjacent in Hlegal. unfold Adjacent.orthogonally_adjacent in Hlegal.
  unfold Adjacent._x, Adjacent._y in *. rewrite <- Hx, <- Hy in Hlegal.
  unfold Adjacent.position in Hpos.
  destruct (chain_slide_cases pc id Hwfc Hposc) as (moved & pc' & Hslidec & Hiff & _ & _).
  assert (moved = true) as ->.
  { apply Hiff. unfold Chain.in_line_with_blank, Chain._x, Chain._y.
    rewrite Hbi, Hsize. split; [tauto | done]. }
  exists pc'. split; [done|].
  destruct (chain_slide_walk pc id pc' Hwfc Hposc Hslidec)
    as (k & d & b' & Hk & Hi & Hdir & Hwalk & ->).
  rewrite Hbi, Hsize, Hboard in *. simpl.
  pose proof (neighbour_difference _ id (Adjacent.blank_index pa) Hs) as Hdiff.
  destruct Hdiff as [[Hd Hrow]|[Hd Hrow]]; [lia | lia | done | |].
  - assert (k = 1%nat) as ->.
    { destruct Hdir as [Hcol|[Hr1 Hsame]]; [|lia].
      destruct Hcol as [->| ->], Hd as [Hd|Hd]; nia. }
    simpl in Hwalk. apply bind_Ok in Hwalk as (b1 & Hswap & [= <-]).
    apply chain_swap_Ok in Hswap as (v1 & v2 & _ & _ & Hv1 & Hv2 & ->).
    replace (Adjacent.blank_index pa + d) with id in * by lia.
    congruence.
  - assert (k = 1%nat) as ->.
    { destruct Hdir as [Hcol|[Hr1 Hsame]].
      - destruct Hcol as [->| ->], Hd as [Hd|Hd]; nia.
      - destruct Hr1 as [->| ->], Hd as [Hd|Hd]; lia. }
    simpl in Hwalk. apply bind_Ok in Hwalk as (b1 & Hswap & [= <-]).
    apply chain_swap_Ok in Hswap as (v1 & v2 & _ & _ & Hv1 & Hv2 & ->).
    replace (Adjacent.blank_index pa + d) with id in * by lia.
    congruence.
Qed.

(** ** The display of the later variant *)

Lemma update_from_spec (vals : list Z) (i : nat) (sq : list Z) :
  NoDup vals -> Forall (fun v => 0 <= v < Z.of_nat (length sq)) vals ->
  exists sq',
    Display.update_from i vals sq = Ok sq' /\ length sq' = length sq /\
    (forall (j : nat) v, vals !! j = Some v ->
       sq' !! Z.to_nat v = Some (Z.of_nat (i + j))) /\
    (forall w : nat, (forall v, v ∈ vals -> Z.to_nat v <> w) -> sq' !! w = sq !! w).
Proof.
  revert i sq. induction vals as [|v rest IH]; intros i sq Hnd Hall.
  - exists sq. split; [done|]. split; [done|].
    split; [intros j v; by rewrite lookup_nil | done].
  - apply NoDup_cons in Hnd as [Hv Hnd]. apply Forall_cons in Hall as [Hr Hall].
    destruct (IH (S i) (<[Z.to_nat v := Z.of_nat i]> sq) Hnd)
      as (sq' & Hrun & Hlen & Hset & Hother).
    { by rewrite length_insert. }
    exists sq'. simpl. unfold js_set. rewrite decide_True by done. simpl.
    rewrite length_insert in Hlen. split; [done|]. split; [done|]. split.
    + intros [|j] w; simpl.
      * intros [= <-]. rewrite Hother.
        -- rewrite list_lookup_insert_eq by lia. do 2 f_equal. lia.
        -- intros u Hu Heq. apply Forall_forall with (x := u) in Hall; [|done].
           assert (u = v) as -> by lia. done.
      * intros Hw. rewrite (Hset j w Hw). do 2 f_equal. lia.
    + intros w Hw. rewrite Hother.
      * apply list_lookup_insert_ne. apply Hw. constructor.
      * intros u Hu. apply Hw. by constructor.
Qed.

Lemma display_update_in_sync (p : Chain.Puzzle) (sq : list Z) :
  Chain.wf p -> length sq = length (Chain.board p) ->
  exists sq',
    Display.updateDisplay p sq = Ok sq' /\ Display.in_sync (Display.mkDisplay p sq').
Proof.
  intros Hwf Hlen. pose proof Hwf as (Hs & Hperm & _).
  destruct (update_from_spec (Chain.board p) 0 sq) as (sq' & Hrun & Hlen' & Hset & _).
  - by eapply perm_identity_NoDup.
  - apply Forall_forall. intros v Hv%(perm_identity_elem _ _ Hperm).
    rewrite Hlen, (perm_identity_length _ _ Hperm). lia.
  - exists sq'. split; [done|]. split; simpl; [congruence|].
    intros i val Hi. split; [|by apply Hset].
    apply list_elem_of_lookup_2, (perm_identity_elem _ _ Hperm) in Hi. lia.
Qed.

Lemma build_squares_identity (m : Z) (k : Z) (sq : list Z) :
  k = Z.of_nat (length sq) ->
  Display.build_squares (seqZ k m) sq = Ok (sq ++ seqZ k m).
Proof.
  remember (Z.to_nat m) as c eqn:Hc. revert m k sq Hc.
  induction c as [|c IH]; intros m k sq Hc Hk.
  - rewrite seqZ_nil by lia. simpl. by rewrite app_nil_r.
  - rewrite seqZ_cons by lia. simpl. unfold Display.js_put.
    rewrite decide_False by lia. rewrite decide_True by done. simpl.
    rewrite IH; [by rewrite <- app_assoc | lia | rewrite length_app; simpl; lia].
Qed.

Lemma display_fresh (n : Z) (p : Chain.Puzzle) :
  0 < n -> Chain.constructor n = Ok p ->
  Display.constructor p = Ok (Display.mkDisplay p (seqZ 0 (n * n))) /\
  Display.in_sync (Display.mkDisplay p (seqZ 0 (n * n))).
Proof.
  intros Hn [_ ->]%chain_constructor_inv. unfold Display.constructor. simpl.
  rewrite build_squares_identity by done. simpl. split; [done|].
  split; simpl; [done|]. intros i val [-> Hi]%lookup_seqZ. split; [lia|].
  rewrite Z.add_0_l, Nat2Z.id. by apply lookup_identity.
Qed.

Lemma display_move_in_sync (d : Display.PuzzleDisplay) (val : Z) :
  Chain.wf (Display.puzzle d) -> Display.in_sync d ->
  0 <= val < Chain.size (Display.puzzle d) * Chain.size (Display.puzzle d) ->
  exists (i : nat) (moved : bool) (d' : Display.PuzzleDisplay),
    Chain.board (Display.puzzle d) !! i = Some val /\
    Chain.slide (Display.puzzle d) (Z.of_nat i) = Ok (moved, Display.puzzle d') /\
    Display.move d val = Ok (d', moved && Chain.solved (Display.puzzle d')) /\
    Display.in_sync d'.
Proof.
  intros Hwf [Hlen Hsync] Hval. pose proof Hwf as (Hs & Hperm & _).
  destruct (perm_identity_once _ _ Hperm val Hval) as (i & Hi & _).
  destruct (Hsync i val Hi) as [_ Hsq].
  apply lookup_lt_Some in Hi as Hlt. rewrite (perm_identity_length _ _ Hperm) in Hlt.
  destruct (chain_slide_cases (Display.puzzle d) (Z.of_nat i) Hwf)
    as (moved & p' & Hslide & _ & _ & Hsame).
  { unfold Chain.position. lia. }
  unfold Display.move, js_get. rewrite decide_True by lia. rewrite Hsq. simpl.
  rewrite Hslide. simpl. destruct moved; simpl.
  - pose proof (chain_wf_slide _ _ _ _ Hwf Hslide) as Hwf'.
    destruct (display_update_in_sync p' (Display.squares d) Hwf') as (sq' & Hup & Hsync').
    { apply chain_slide_Permutation in Hslide as (_ & _ & Hp). by rewrite Hlen, Hp. }
    rewrite Hup. simpl.
    by exists i, true, (Display.mkDisplay p' sq').
  - rewrite (Hsame eq_refl) in *.
    exists i, false, (Display.mkDisplay (Display.puzzle d) (Display.squares d)).
    split; [done|]. split; [done|]. split; [done|]. split; [done | exact Hsync].
Qed.

Lemma display_randomize_in_sync (fuel : nat) (rnd : random_source) (k : nat)
    (d : Display.PuzzleDisplay) (p' : Chain.Puzzle) (k' : nat) :
  Chain.wf (Display.puzzle d) ->
  length (Display.squares d) = length (Chain.board (Display.puzzle d)) ->
  Chain.randomize fuel rnd k (Display.puzzle d) = Ok (p', k') ->
  exists sq',
    Display.randomize fuel rnd k d = Ok (Display.mkDisplay p' sq', k') /\
    Display.in_sync (Display.mkDisplay p' sq').
Proof.
  intros Hwf Hlen Hrun.
  pose proof (chain_wf_randomize _ _ _ _ _ _ Hwf Hrun) as Hwf'.
  destruct (display_update_in_sync p' (Display.squares d) Hwf') as (sq' & Hup & Hsync).
  { rewrite Hlen. pose proof (chain_randomize_size _ _ _ _ _ _ Hrun) as Hsz.
    destruct Hwf as (_ & Hp & _), Hwf' as (_ & Hp' & _).
    rewrite (perm_identity_length _ _ Hp), (perm_identity_length _ _ Hp').
    by rewrite Hsz. }
  exists sq'. unfold Display.randomize. rewrite Hrun. simpl. by rewrite Hup.
Qed.

(** ** [redWhiteStyle] paints a checkerboard *)

Lemma redWhiteStyle_parity (size tileId : Z) :
  0 < size -> 0 <= tileId ->
  (redWhiteStyle size tileId).1
  = if Z.even (coord_x size tileId + coord_y size tileId)
    then "square tile red"%string else "square tile white"%string.
Proof.
  intros Hs Ht. unfold redWhiteStyle. simpl.
  pose proof (coord_i_x_y size Hs tileId Ht) as Hid. unfold coord_i in Hid.
  set (x := coord_x size tileId) in *. set (y := coord_y size tileId) in *.
  assert (Z.even tileId = Bool.eqb (Z.even (size * y)) (Z.even x)) as Hpar
    by (by rewrite <- Hid at 1; rewrite Z.even_add).
  rewrite Z.even_mul in Hpar.
  destruct (decide (Z.rem size 2 = 0)) as [He|Ho].
  - apply rem_2_even in He as He'. rewrite He' in Hpar. simpl in Hpar.
    destruct (decide (Z.rem (tileId + y) 2 = 0)) as [H1|H1];
      rewrite rem_2_even in H1; rewrite Z.even_add, Hpar in H1;
      rewrite Z.even_add; by destruct (Z.even x), (Z.even y).
  - rewrite rem_2_even in Ho. apply not_true_is_false in Ho. rewrite Ho in Hpar.
    simpl in Hpar.
    destruct (decide (Z.rem tileId 2 = 0)) as [H1|H1];
      rewrite rem_2_even, Hpar in H1;
      rewrite Z.even_add; by destruct (Z.even x), (Z.even y).
Qed.

(** ** More on [randomize] *)

Lemma solvable_rule_negative_odd (size y inv : Z) :
  size < 0 -> Z.odd size = true -> solvable_rule size y inv = false.
Proof.
  intros Hs Ho. unfold solvable_rule.
  assert (Z.rem size 2 = -1) as ->; [|done].
  replace size with (- - size) by lia. rewrite Z.rem_opp_l'.
  assert (Z.rem (- size) 2 = 1) as ->; [|done].
  apply rem_2_odd; [lia | by rewrite Z.odd_opp].
Qed.

Lemma adj_round_facts (rnd : random_source) (k : nat) (p : Adjacent.Puzzle) :
  Adjacent.size (Adjacent.randomize_round rnd k p).1 = Adjacent.size p /\
  Adjacent._blank_val (Adjacent.randomize_round rnd k p).1 = Adjacent._blank_val p /\
  Adjacent.solvedBoard (Adjacent.randomize_round rnd k p).1 = Adjacent.solvedBoard p /\
  Adjacent.board (Adjacent.randomize_round rnd k p).1 ≡ₚ Adjacent.board p /\
  (Adjacent.randomize_round rnd k p).2 = (k + length (Adjacent.board p))%nat.
Proof.
  unfold Adjacent.randomize_round.
  pose proof (shuffle_Permutation rnd k (Adjacent.board p)) as Hperm.
  pose proof (shuffle_loop_cursor _ rnd k (Adjacent.board p) [] eq_refl) as Hcur.
  fold (shuffle rnd k (Adjacent.board p)) in Hcur.
  by destruct (shuffle rnd k (Adjacent.board p)).
Qed.

Lemma chain_round_facts (rnd : random_source) (k : nat) (p : Chain.Puzzle) :
  Chain.size (Chain.randomize_round rnd k p).1 = Chain.size p /\
  Chain.blank_val (Chain.randomize_round rnd k p).1 = Chain.blank_val p /\
  Chain.board (Chain.randomize_round rnd k p).1 ≡ₚ Chain.board p /\
  (Chain.randomize_round rnd k p).2 = (k + length (Chain.board p))%nat.
Proof.
  unfold Chain.randomize_round.
  pose proof (shuffle_Permutation rnd k (Chain.board p)) as Hperm.
  pose proof (shuffle_loop_cursor _ rnd k (Chain.board p) [] eq_refl) as Hcur.
  fold (shuffle rnd k (Chain.board p)) in Hcur.
  by destruct (shuffle rnd k (Chain.board p)).
Qed.

Lemma adj_randomize_facts (fuel : nat) (rnd : random_source) (k : nat)
    (p p' : Adjacent.Puzzle) (k' : nat) :
  Adjacent.randomize fuel rnd k p = Ok (p', k') ->
  Adjacent.size p' = Adjacent.size p /\
  Adjacent._blank_val p' = Adjacent._blank_val p /\
  Adjacent.solvedBoard p' = Adjacent.solvedBoard p /\
  Adjacent.board p' ≡ₚ Adjacent.board p /\
  exists rounds : nat,
    (1 <= rounds <= fuel)%nat /\ k' = (k + rounds * length (Adjacent.board p))%nat.
Proof.
  revert k p. induction fuel as [|fuel IH]; intros k p Hrun; [discriminate|].
  simpl in Hrun. destruct (adj_round_facts rnd k p) as (Hs & Hb & Hsb & Hperm & Hk).
  destruct (Adjacent.randomize_round rnd k p) as [p1 k1]. simpl in *.
  destruct (Adjacent.solvable p1).
  - injection Hrun as <- <-. repeat split; try done. exists 1%nat. lia.
  - destruct (IH _ _ Hrun) as (Hs' & Hb' & Hsb' & Hperm' & rounds & Hr & ->).
    repeat split; try congruence; [by rewrite Hperm'|].
    exists (S rounds). rewrite Hperm. split; [lia|]. subst k1. lia.
Qed.

Lemma chain_randomize_facts (fuel : nat) (rnd : random_source) (k : nat)
    (p p' : Chain.Puzzle) (k' : nat) :
  Chain.randomize fuel rnd k p = Ok (p', k') ->
  Chain.size p' = Chain.size p /\
  Chain.blank_val p' = Chain.blank_val p /\
  Chain.board p' ≡ₚ Chain.board p /\
  exists rounds : nat,
    (1 <= rounds <= fuel)%nat /\ k' = (k + rounds * length (Chain.board p))%nat.
Proof.
  revert k p. induction fuel as [|fuel IH]; intros k p Hrun; [discriminate|].
  simpl in Hrun. destruct (chain_round_facts rnd k p) as (Hs & Hb & Hperm & Hk).
  destruct (Chain.randomize_round rnd k p) as [p1 k1]. simpl in *.
  destruct (Chain.solvable p1).
  - injection Hrun as <- <-. repeat split; try done. exists 1%nat. lia.
  - destruct (IH _ _ Hrun) as (Hs' & Hb' & Hperm' & rounds & Hr & ->).
    repeat split; try congruence; [by rewrite Hperm'|].
    exists (S rounds). rewrite Hperm. split; [lia|]. subst k1. lia.
Qed.

Lemma adj_randomize_never (fuel : nat) (rnd : random_source) (k : nat)
    (p : Adjacent.Puzzle) :
  Adjacent.size p < 0 -> Z.odd (Adjacent.size p) = true ->
  Adjacent.randomize fuel rnd k p = Err OutOfFuel.
Proof.
  intros Hs Ho. revert k p Hs Ho. induction fuel as [|fuel IH]; intros k p Hs Ho; [done|].
  simpl. destruct (adj_round_facts rnd k p) as (Hsz & _).
  destruct (Adjacent.randomize_round rnd k p) as [p1 k1]. simpl in Hsz.
  rewrite adj_solvable_rule, solvable_rule_negative_odd by (by rewrite Hsz).
  apply IH; by rewrite Hsz.
Qed.

Lemma chain_randomize_never (fuel : nat) (rnd : random_source) (k : nat)
    (p : Chain.Puzzle) :
  Chain.size p < 0 -> Z.odd (Chain.size p) = true ->
  Chain.randomize fuel rnd k p = Err OutOfFuel.
Proof.
  intros Hs Ho. revert k p Hs Ho. induction fuel as [|fuel IH]; intros k p Hs Ho; [done|].
  simpl. destruct (chain_round_facts rnd k p) as (Hsz & _).
  destruct (Chain.randomize_round rnd k p) as [p1 k1]. simpl in Hsz.
  rewrite chain_solvable_rule, solvable_rule_negative_odd by (by rewrite Hsz).
  apply IH; by rewrite Hsz.
Qed.

(** ** [solved()] and the identity board *)

Lemma adj_solved_identity (p : Adjacent.Puzzle) :
  Adjacent.wf p ->
  Adjacent.solved p = true <-> Adjacent.board p = seqZ 0 (Adjacent.size p * Adjacent.size p).
Proof.
  intros (_ & Hperm & Hsb & _). unfold Adjacent.solved. rewrite Hsb.
  apply equals_elementwise_eq. by rewrite Hperm.
Qed.

Lemma chain_solved_identity (p : Chain.Puzzle) :
  Chain.wf p ->
  Chain.solved p = true <-> Chain.board p = seqZ 0 (Chain.size p * Chain.size p).
Proof.
  intros (_ & Hperm & _). unfold Chain.solved.
  apply equals_elementwise_eq. by rewrite Hperm.
Qed.

Lemma adj_slide_changes_board (p : Adjacent.Puzzle) (id : Z) (p' : Adjacent.Puzzle) :
  Adjacent.wf p -> Adjacent.slide p id = Ok (true, p') ->
  Adjacent.size p' = Adjacent.size p /\ Adjacent.board p' <> Adjacent.board p.
Proof.
  intros Hwf Hslide.
  destruct (adj_slide_true_inv p id p' Hwf Hslide)
    as (Hpos & _ & Hr & Hne & Hb & tile & Ht & Htile & ->).
  pose proof (adj_wf_length p Hwf) as Hlen. unfold Adjacent.position in Hpos.
  simpl. split; [done|]. intros Heq.
  assert (Adjacent.board p !! Z.to_nat id = Some (Adjacent._blank_val p)) as Hid.
  { rewrite <- Heq. apply list_lookup_insert_eq. rewrite length_insert. lia. }
  congruence.
Qed.

Lemma chain_slide_changes_board (p : Chain.Puzzle) (i : Z) (p' : Chain.Puzzle) :
  Chain.wf p -> Chain.slide p i = Ok (true, p') ->
  Chain.size p' = Chain.size p /\ Chain.board p' <> Chain.board p.
Proof.
  intros Hwf Hslide.
  pose proof (chain_slide_true_position p i p' Hwf Hslide) as Hpos.
  destruct (chain_slide_cases p i Hwf Hpos) as (moved & p'' & Hslide' & Hiff & Hshift & _).
  rewrite Hslide in Hslide'. injection Hslide' as <- <-.
  destruct (Hshift eq_refl) as (Hsz & _ & m & _ & _ & _ & Hblank & _).
  destruct (proj1 Hiff eq_refl) as [_ Hne].
  destruct (chain_wf_blank p Hwf) as [Hb Hbl]. destruct Hwf as (_ & Hperm & _).
  unfold Chain.position in Hpos. split; [done|]. intros Heq. rewrite Heq in Hblank.
  pose proof (NoDup_lookup _ _ _ _ (perm_identity_NoDup _ _ Hperm) Hblank Hbl). lia.
Qed.

Lemma adj_randomize_reaches (p : Adjacent.Puzzle) (b' : list Z) (k : nat) :
  b' ≡ₚ Adjacent.board p ->
  Adjacent.solvable
    (Adjacent.mkPuzzle (Adjacent.size p) b' (Adjacent.solvedBoard p) (Adjacent._blank_val p)
       (coord_x (Adjacent.size p) (indexOf b' (Adjacent._blank_val p)))
       (coord_y (Adjacent.size p) (indexOf b' (Adjacent._blank_val p)))) = true ->
  exists rnd,
    Adjacent.randomize 1 rnd k p =
      Ok (Adjacent.mkPuzzle (Adjacent.size p) b' (Adjacent.solvedBoard p)
            (Adjacent._blank_val p)
            (coord_x (Adjacent.size p) (indexOf b' (Adjacent._blank_val p)))
            (coord_y (Adjacent.size p) (indexOf b' (Adjacent._blank_val p))),
          (k + length (Adjacent.board p))%nat).
Proof.
  intros Hperm Hsolvable. destruct (shuffle_reaches b' _ k Hperm) as [rnd Hrnd].
  exists rnd. unfold Adjacent.randomize, Adjacent.randomize_round.
  rewrite Hrnd. by rewrite Hsolvable.
Qed.

Lemma chain_randomize_reaches (p : Chain.Puzzle) (b' : list Z) (k : nat) :
  b' ≡ₚ Chain.board p -> Chain.solvable (Chain.with_board p b') = true ->
  exists rnd,
    Chain.randomize 1 rnd k p = Ok (Chain.with_board p b', (k + length (Chain.board p))%nat).
Proof.
  intros Hperm Hsolvable. destruct (shuffle_reaches b' _ k Hperm) as [rnd Hrnd].
  exists rnd. unfold Chain.randomize, Chain.randomize_round.
  rewrite Hrnd. by rewrite Hsolvable.
Qed.

(** * Further properties of the code *)

(** ** [shuffle] *)

(** X1: [shuffle(arr)] returns a rearrangement of [arr] (the same values, as
    often), of the same length, after exactly [arr.length] calls of
    [Math.random]; for the empty array that is the empty array and no
    call. *)
Theorem shuffle_rearranges (rnd : random_source) (k : nat) (arr : list Z) :
  (shuffle rnd k arr).1 ≡ₚ arr /\
  length (shuffle rnd k arr).1 = length arr /\
  (shuffle rnd k arr).2 = (k + length arr)%nat /\
  shuffle rnd k [] = ([], k).
Proof.
  pose proof (shuffle_Permutation rnd k arr) as Hperm.
  split; [done|]. split; [by rewrite Hperm|]. split; [|done].
  by apply shuffle_loop_cursor.
Qed.

(** X2: every rearrangement of [arr] is what [shuffle(arr)] returns for some
    sequence of random numbers. *)
Theorem shuffle_reaches_every_rearrangement (arr l' : list Z) (k : nat) :
  l' ≡ₚ arr -> exists rnd, shuffle rnd k arr = (l', (k + length arr)%nat).
Proof. apply shuffle_reaches. Qed.

Lemma shuffle_reaches_every_rearrangement_witness :
  exists rnd, shuffle rnd 0 [0; 1; 2] = ([2; 0; 1], (0 + length [0; 1; 2])%nat).
Proof.
  apply (shuffle_reaches_every_rearrangement [0; 1; 2] [2; 0; 1] 0).
  change [2; 0; 1] with ([2] ++ [0; 1]). change [0; 1; 2] with ([0; 1] ++ [2]).
  apply Permutation_app_comm.
Defined.

(** ** [_x], [_y], [_i] *)

(** X3: for a board position [i] of a board of positive size, [_x(i)] and
    [_y(i)] are coordinates on the board and [_i(_x(i), _y(i))] is [i]
    again.  Both classes. *)
Theorem position_round_trip (pa : Adjacent.Puzzle) (pc : Chain.Puzzle) (i : Z) :
  (0 < Adjacent.size pa -> Adjacent.position pa i ->
   0 <= Adjacent._x pa i < Adjacent.size pa /\
   0 <= Adjacent._y pa i < Adjacent.size pa /\
   Adjacent._i pa (Adjacent._x pa i) (Adjacent._y pa i) = i) /\
  (0 < Chain.size pc -> Chain.position pc i ->
   0 <= Chain._x pc i < Chain.size pc /\
   0 <= Chain._y pc i < Chain.size pc /\
   Chain._i pc (Chain._x pc i) (Chain._y pc i) = i).
Proof.
  split; intros Hs Hpos.
  - unfold Adjacent.position, Adjacent._x, Adjacent._y, Adjacent._i in *.
    split; [apply coord_x_range; lia|]. split; [by apply coord_y_range|].
    apply coord_i_x_y; lia.
  - unfold Chain.position, Chain._x, Chain._y, Chain._i in *.
    split; [apply coord_x_range; lia|]. split; [by apply coord_y_range|].
    apply coord_i_x_y; lia.
Qed.

Lemma position_round_trip_witness :
  Adjacent._i adj_start_3 (Adjacent._x adj_start_3 5) (Adjacent._y adj_start_3 5) = 5 /\
  Chain._i chain_start_3 (Chain._x chain_start_3 5) (Chain._y chain_start_3 5) = 5.
Proof.
  destruct (position_round_trip adj_start_3 chain_start_3 5) as [Ha Hc]. split.
  - apply Ha; [simpl; lia | unfold Adjacent.position; simpl; lia].
  - apply Hc; [simpl; lia | unfold Chain.position; simpl; lia].
Defined.

(** X4: for coordinates [x], [y] on a board of positive size, [_i(x, y)] is a
    board position, and [_x], [_y] give the coordinates back.  Both
    classes. *)
Theorem coordinates_round_trip (pa : Adjacent.Puzzle) (pc : Chain.Puzzle) (x y : Z) :
  (0 <= x < Adjacent.size pa -> 0 <= y < Adjacent.size pa ->
   Adjacent.position pa (Adjacent._i pa x y) /\
   Adjacent._x pa (Adjacent._i pa x y) = x /\
   Adjacent._y pa (Adjacent._i pa x y) = y) /\
  (0 <= x < Chain.size pc -> 0 <= y < Chain.size pc ->
   Chain.position pc (Chain._i pc x y) /\
   Chain._x pc (Chain._i pc x y) = x /\
   Chain._y pc (Chain._i pc x y) = y).
Proof.
  split; intros Hx Hy.
  - unfold Adjacent.position, Adjacent._x, Adjacent._y, Adjacent._i in *.
    split; [apply coord_i_range; lia|].
    split; [apply coord_x_i; lia | apply coord_y_i; lia].
  - unfold Chain.position, Chain._x, Chain._y, Chain._i in *.
    split; [apply coord_i_range; lia|].
    split; [apply coord_x_i; lia | apply coord_y_i; lia].
Qed.

Lemma coordinates_round_trip_witness :
  Adjacent._x adj_start_3 (Adjacent._i adj_start_3 2 1) = 2 /\
  Chain._y chain_start_3 (Chain._i chain_start_3 2 1) = 1.
Proof.
  destruct (coordinates_round_trip adj_start_3 chain_start_3 2 1) as [Ha Hc]. split.
  - apply Ha; simpl; lia.
  - apply Hc; simpl; lia.
Defined.

(** X5: a negative index is not a position and the round trip shows it:
    [_x(i)] is zero or negative (the remainder takes the sign of [i]) while
    [_y(i)] rounds down, so [_i(_x(i), _y(i))] is [i] only when [i] is a
    multiple of the size and [i - size] otherwise. *)
Theorem negative_index_round_trip (size i : Z) :
  0 < size -> i < 0 ->
  - size < coord_x size i <= 0 /\ coord_y size i < 0 /\
  coord_i size (coord_x size i) (coord_y size i)
  = if decide (coord_x size i = 0) then i else i - size.
Proof.
  intros Hs Hi. split; [|split].
  - unfold coord_x. pose proof (Z.rem_nonpos i size). pose proof (Z.rem_bound_abs i size).
    lia.
  - unfold coord_y. apply Z.div_lt_upper_bound; lia.
  - by apply coord_roundtrip_negative.
Qed.

Lemma negative_index_round_trip_witness :
  coord_i 4 (coord_x 4 (-1)) (coord_y 4 (-1)) = -5.
Proof.
  destruct (negative_index_round_trip 4 (-1)) as (_ & _ & H); [lia | lia | exact H].
Defined.

(** ** [inversions()] and [solvable()] *)

(** X6: on a board with no value above the blank value [size*size-1],
    [inversions()] is the classic inversion count of the tiles: for each tile
    other than the blank, the number of later tiles other than the blank that
    are smaller.  (The code skips the blank as the first of a pair only; as
    the second it never counts, being the largest value.)  Both classes. *)
Theorem inversions_is_classic_count (pa : Adjacent.Puzzle) (pc : Chain.Puzzle) :
  (Forall (fun v => v <= Adjacent.size pa * Adjacent.size pa - 1) (Adjacent.board pa) ->
   Adjacent.inversions pa
   = classic_inversions (Adjacent.size pa * Adjacent.size pa - 1) (Adjacent.board pa)) /\
  (Forall (fun v => v <= Chain.size pc * Chain.size pc - 1) (Chain.board pc) ->
   Chain.inversions pc
   = classic_inversions (Chain.size pc * Chain.size pc - 1) (Chain.board pc)).
Proof.
  split; intros Hall.
  - unfold Adjacent.inversions. by rewrite count_inversions_from, inversions_from_classic.
  - unfold Chain.inversions. by rewrite count_inversions_from, inversions_from_classic.
Qed.

Lemma inversions_is_classic_count_witness :
  Adjacent.inversions adj_shuffled_2 = classic_inversions 3 [1; 2; 3; 0] /\
  Chain.inversions chain_shuffled_2 = classic_inversions 3 [1; 2; 3; 0].
Proof.
  destruct (inversions_is_classic_count adj_shuffled_2 chain_shuffled_2) as [Ha Hc].
  split; [apply Ha | apply Hc]; simpl; repeat constructor; lia.
Defined.

(** A value above the blank value does count the blank as smaller. *)
Example inversions_above_blank :
  count_inversions 2 [5; 3] = 1 /\ classic_inversions 3 [5; 3] = 0.
Proof. split; reflexivity. Qed.

(** X7: on a board of positive odd size, [solvable()] is true exactly when
    [inversions()] is even, wherever the blank is.  Both classes. *)
Theorem solvable_odd_size (pa : Adjacent.Puzzle) (pc : Chain.Puzzle) :
  (0 < Adjacent.size pa -> Z.odd (Adjacent.size pa) = true ->
   Adjacent.solvable pa = Z.even (Adjacent.inversions pa)) /\
  (0 < Chain.size pc -> Z.odd (Chain.size pc) = true ->
   Chain.solvable pc = Z.even (Chain.inversions pc)).
Proof.
  assert (forall size y inv, 0 < size -> Z.odd size = true ->
            solvable_rule size y inv = Z.even inv) as Hrule.
  { intros size y inv Hs Ho. unfold solvable_rule.
    assert (Z.even size = false) as He by (by rewrite <- Z.negb_odd, Ho).
    rewrite (rem_2_odd_decide size), !rem_2_even_decide, Ho, He by lia.
    simpl. by destruct (Z.even inv). }
  split; intros Hs Ho.
  - rewrite adj_solvable_rule. by apply Hrule.
  - rewrite chain_solvable_rule. by apply Hrule.
Qed.

Lemma solvable_odd_size_witness :
  Adjacent.solvable adj_start_3 = Z.even (Adjacent.inversions adj_start_3) /\
  Chain.solvable chain_start_3 = Z.even (Chain.inversions chain_start_3).
Proof.
  destruct (solvable_odd_size adj_start_3 chain_start_3) as [Ha Hc].
  split; [apply Ha | apply Hc]; (simpl; lia) || reflexivity.
Defined.

(** X8: the engine a constructor returns for a positive size has no
    inversions and is solvable.  Both classes. *)
Theorem fresh_engine_solvable (n : Z) (pa : Adjacent.Puzzle) (pc : Chain.Puzzle) :
  0 < n ->
  (Adjacent.constructor n = Ok pa ->
   Adjacent.inversions pa = 0 /\ Adjacent.solvable pa = true) /\
  (Chain.constructor n = Ok pc ->
   Chain.inversions pc = 0 /\ Chain.solvable pc = true).
Proof.
  intros Hn. split; intros Hnew.
  - split; [|by eapply adj_fresh_solvable].
    apply adj_constructor_inv in Hnew as [_ ->]. apply count_inversions_identity.
  - split; [|by eapply chain_fresh_solvable].
    apply chain_constructor_inv in Hnew as [_ ->]. apply count_inversions_identity.
Qed.

Lemma fresh_engine_solvable_witness :
  Adjacent.solvable adj_start_3 = true /\ Chain.solvable chain_start_2 = true.
Proof.
  destruct (fresh_engine_solvable 3 adj_start_3 chain_start_3) as [Ha _]; [lia|].
  destruct (fresh_engine_solvable 2 adj_start_2 chain_start_2) as [_ Hc]; [lia|].
  split; [apply Ha | apply Hc]; reflexivity.
Defined.

(** X9: in [fifteen.js], [slide] never changes the answer of [solvable()]: on
    a well-formed engine, whatever [slide(id)] returns, [solvable()] gives
    afterwards what it gave before. *)
Theorem adjacent_slide_preserves_solvable (p : Adjacent.Puzzle) (id : Z) (moved : bool)
    (p' : Adjacent.Puzzle) :
  Adjacent.wf p -> Adjacent.slide p id = Ok (moved, p') ->
  Adjacent.solvable p' = Adjacent.solvable p.
Proof. apply adj_slide_keeps_solvable. Qed.

Lemma adjacent_slide_preserves_solvable_witness :
  Adjacent.solvable adj_slid_2 = Adjacent.solvable adj_start_2.
Proof.
  apply (adjacent_slide_preserves_solvable adj_start_2 2 true adj_slid_2).
  - concrete_wf.
  - reflexivity.
Defined.

(** X10: in the later variant, a chain slide, over however many cells, never
    changes the answer of [solvable()] on a well-formed engine. *)
Theorem chain_slide_preserves_solvable (p : Chain.Puzzle) (i : Z) (moved : bool)
    (p' : Chain.Puzzle) :
  Chain.wf p -> Chain.slide p i = Ok (moved, p') ->
  Chain.solvable p' = Chain.solvable p.
Proof. apply chain_slide_keeps_solvable_any. Qed.

Lemma chain_slide_preserves_solvable_witness :
  Chain.solvable (Chain.mkPuzzle 3 [0; 1; 8; 3; 4; 2; 6; 7; 5] 8)
  = Chain.solvable chain_start_3.
Proof.
  apply (chain_slide_preserves_solvable chain_start_3 2 true).
  - concrete_wf.
  - reflexivity.
Defined.

(** X11: every state reached from the construction of an engine of positive
    size, by calls of [slide] and [randomize] that return, is solvable.  Both
    classes. *)
Theorem reachable_engine_solvable (n : Z) (pa : Adjacent.Puzzle) (pc : Chain.Puzzle) :
  0 < n ->
  (Adjacent.reachable n pa -> Adjacent.solvable pa = true) /\
  (Chain.reachable n pc -> Chain.solvable pc = true).
Proof.
  intros Hn. split.
  - by apply adj_reachable_solvable.
  - by apply chain_reachable_solvable.
Qed.

Lemma reachable_engine_solvable_witness :
  Adjacent.solvable adj_shuffled_2 = true /\ Chain.solvable chain_shuffled_2 = true.
Proof.
  destruct (reachable_engine_solvable 2 adj_shuffled_2 chain_shuffled_2) as [Ha Hc];
    [lia|].
  split; [apply Ha, adj_run_reachable | apply Hc, chain_run_reachable].
Defined.

(** X12: on an engine of negative odd size (the constructors build one, for
    [-1], [-3], ...) [size % 2] is [-1], so [solvable()] is false whatever the
    board, and [randomize()] never returns.  Both classes. *)
Theorem negative_odd_size_never_solvable (pa : Adjacent.Puzzle) (pc : Chain.Puzzle)
    (fuel : nat) (rnd : random_source) (k : nat) :
  (Adjacent.size pa < 0 -> Z.odd (Adjacent.size pa) = true ->
   Adjacent.solvable pa = false /\ Adjacent.randomize fuel rnd k pa = Err OutOfFuel) /\
  (Chain.size pc < 0 -> Z.odd (Chain.size pc) = true ->
   Chain.solvable pc = false /\ Chain.randomize fuel rnd k pc = Err OutOfFuel).
Proof.
  split; intros Hs Ho.
  - split; [|by apply adj_randomize_never].
    rewrite adj_solvable_rule. by apply solvable_rule_negative_odd.
  - split; [|by apply chain_randomize_never].
    rewrite chain_solvable_rule. by apply solvable_rule_negative_odd.
Qed.

Lemma negative_odd_size_never_solvable_witness :
  Adjacent.constructor (-1) = Ok (Adjacent.mkPuzzle (-1) [0] [0] 0 (-2) (-2)) /\
  Adjacent.randomize 5 square_source 0 (Adjacent.mkPuzzle (-1) [0] [0] 0 (-2) (-2))
  = Err OutOfFuel /\
  Chain.randomize 5 square_source 0 (Chain.mkPuzzle (-3) [0; 1; 2; 3; 4; 5; 6; 7; 8] 8)
  = Err OutOfFuel.
Proof.
  destruct (negative_odd_size_never_solvable
              (Adjacent.mkPuzzle (-1) [0] [0] 0 (-2) (-2))
              (Chain.mkPuzzle (-3) [0; 1; 2; 3; 4; 5; 6; 7; 8] 8)
              5 square_source 0) as [Ha Hc].
  split; [reflexivity|]. split.
  - apply Ha; [simpl; lia | reflexivity].
  - apply Hc; [simpl; lia | reflexivity].
Defined.

(** Two concrete lists without repetition that hold the same numbers. *)
Ltac concrete_perm :=
  apply NoDup_Permutation;
  [ repeat (apply NoDup_cons_2; [rewrite ?elem_of_cons, elem_of_nil; lia|]); apply NoDup_nil_2
  | repeat (apply NoDup_cons_2; [rewrite ?elem_of_cons, elem_of_nil; lia|]); apply NoDup_nil_2
  | intros ?; rewrite !elem_of_cons, !elem_of_nil; lia ].

(** ** [randomize()] *)

(** X13: [randomize()] can end on every solvable rearrangement of the board:
    for each there is a sequence of random numbers on which the first round
    of the loop builds it and the loop ends.  Both classes. *)
Theorem randomize_reaches_every_solvable_board (pa : Adjacent.Puzzle) (pc : Chain.Puzzle)
    (b' : list Z) (k : nat) :
  (b' ≡ₚ Adjacent.board pa ->
   Adjacent.solvable
     (Adjacent.mkPuzzle (Adjacent.size pa) b' (Adjacent.solvedBoard pa)
        (Adjacent._blank_val pa)
        (coord_x (Adjacent.size pa) (indexOf b' (Adjacent._blank_val pa)))
        (coord_y (Adjacent.size pa) (indexOf b' (Adjacent._blank_val pa)))) = true ->
   exists rnd,
     Adjacent.randomize 1 rnd k pa =
       Ok (Adjacent.mkPuzzle (Adjacent.size pa) b' (Adjacent.solvedBoard pa)
             (Adjacent._blank_val pa)
             (coord_x (Adjacent.size pa) (indexOf b' (Adjacent._blank_val pa)))
             (coord_y (Adjacent.size pa) (indexOf b' (Adjacent._blank_val pa))),
           (k + length (Adjacent.board pa))%nat)) /\
  (b' ≡ₚ Chain.board pc -> Chain.solvable (Chain.with_board pc b') = true ->
   exists rnd,
     Chain.randomize 1 rnd k pc
     = Ok (Chain.with_board pc b', (k + length (Chain.board pc))%nat)).
Proof.
  split.
  - apply adj_randomize_reaches.
  - apply chain_randomize_reaches.
Qed.

Lemma randomize_reaches_every_solvable_board_witness :
  (exists rnd,
     Adjacent.randomize 1 rnd 0 adj_start_2
     = Ok (Adjacent.mkPuzzle 2 [3; 0; 2; 1] [0; 1; 2; 3] 3 0 0, 4%nat)) /\
  (exists rnd,
     Chain.randomize 1 rnd 0 chain_start_2 = Ok (Chain.mkPuzzle 2 [3; 0; 2; 1] 3, 4%nat)).
Proof.
  destruct (randomize_reaches_every_solvable_board adj_start_2 chain_start_2
              [3; 0; 2; 1] 0) as [Ha Hc].
  split.
  - apply Ha; [simpl; concrete_perm | reflexivity].
  - apply Hc; [simpl; concrete_perm | reflexivity].
Defined.

(** X14: when [randomize()] returns, from any state, the board is a
    rearrangement of the board it started from, the size and the blank value
    (and in [fifteen.js] the solved reference) are what they were, and
    [Math.random] was called a whole number of rounds of [board.length] calls,
    at least one round.  Both classes. *)
Theorem randomize_rearranges (fuel : nat) (rnd : random_source) (k : nat)
    (pa pa' : Adjacent.Puzzle) (pc pc' : Chain.Puzzle) (ka kc : nat) :
  (Adjacent.randomize fuel rnd k pa = Ok (pa', ka) ->
   Adjacent.size pa' = Adjacent.size pa /\
   Adjacent._blank_val pa' = Adjacent._blank_val pa /\
   Adjacent.solvedBoard pa' = Adjacent.solvedBoard pa /\
   Adjacent.board pa' ≡ₚ Adjacent.board pa /\
   exists rounds : nat,
     (1 <= rounds <= fuel)%nat /\ ka = (k + rounds * length (Adjacent.board pa))%nat) /\
  (Chain.randomize fuel rnd k pc = Ok (pc', kc) ->
   Chain.size pc' = Chain.size pc /\
   Chain.blank_val pc' = Chain.blank_val pc /\
   Chain.board pc' ≡ₚ Chain.board pc /\
   exists rounds : nat,
     (1 <= rounds <= fuel)%nat /\ kc = (k + rounds * length (Chain.board pc))%nat).
Proof.
  split.
  - apply adj_randomize_facts.
  - apply chain_randomize_facts.
Qed.

Lemma randomize_rearranges_witness :
  [3; 0; 2; 1] ≡ₚ [0; 1; 2; 3] /\
  exists rounds : nat, (1 <= rounds <= 2)%nat /\ 8%nat = (0 + rounds * 4)%nat.
Proof.
  destruct (randomize_rearranges 2 square_source 0
              adj_start_2 (Adjacent.mkPuzzle 2 [3; 0; 2; 1] [0; 1; 2; 3] 3 0 0)
              chain_start_2 (Chain.mkPuzzle 2 [3; 0; 2; 1] 3) 8 8) as [Ha _].
  destruct Ha as (_ & _ & _ & Hperm & Hrounds); [reflexivity|].
  split; [exact Hperm | exact Hrounds].
Defined.

(** ** [solved()] *)

(** X15: on a well-formed engine [solved()] is true exactly when the board is
    [0, 1, ..., size*size-1] in order.  Both classes. *)
Theorem solved_iff_identity (pa : Adjacent.Puzzle) (pc : Chain.Puzzle) :
  (Adjacent.wf pa ->
   Adjacent.solved pa = true
   <-> Adjacent.board pa = seqZ 0 (Adjacent.size pa * Adjacent.size pa)) /\
  (Chain.wf pc ->
   Chain.solved pc = true <-> Chain.board pc = seqZ 0 (Chain.size pc * Chain.size pc)).
Proof.
  split.
  - apply adj_solved_identity.
  - apply chain_solved_identity.
Qed.

Lemma solved_iff_identity_witness :
  (Adjacent.solved adj_start_3 = true <-> Adjacent.board adj_start_3 = seqZ 0 (3 * 3)) /\
  (Chain.solved chain_start_2 = true <-> Chain.board chain_start_2 = seqZ 0 (2 * 2)).
Proof.
  destruct (solved_iff_identity adj_start_3 chain_start_2) as [Ha Hc].
  split; [apply Ha | apply Hc]; concrete_wf.
Defined.

(** X16: a slide that returns true on a solved, well-formed engine leaves it
    unsolved: the engine does not lock once solved.  Both classes. *)
Theorem slide_leaves_solved (pa pa' : Adjacent.Puzzle) (pc pc' : Chain.Puzzle) (id : Z) :
  (Adjacent.wf pa -> Adjacent.solved pa = true ->
   Adjacent.slide pa id = Ok (true, pa') -> Adjacent.solved pa' = false) /\
  (Chain.wf pc -> Chain.solved pc = true ->
   Chain.slide pc id = Ok (true, pc') -> Chain.solved pc' = false).
Proof.
  split; intros Hwf Hsolved Hslide.
  - pose proof (adj_wf_slide _ _ _ _ Hwf Hslide) as Hwf'.
    destruct (adj_slide_changes_board _ _ _ Hwf Hslide) as [Hsz Hne].
    apply not_true_is_false. intros Hsolved'.
    apply adj_solved_identity in Hsolved, Hsolved'; [|done..]. congruence.
  - pose proof (chain_wf_slide _ _ _ _ Hwf Hslide) as Hwf'.
    destruct (chain_slide_changes_board _ _ _ Hwf Hslide) as [Hsz Hne].
    apply not_true_is_false. intros Hsolved'.
    apply chain_solved_identity in Hsolved, Hsolved'; [|done..]. congruence.
Qed.

Lemma slide_leaves_solved_witness :
  Adjacent.solved adj_slid_2 = false /\ Chain.solved chain_slid_2 = false.
Proof.
  destruct (slide_leaves_solved adj_start_2 adj_slid_2 chain_start_2 chain_slid_2 2)
    as [Ha Hc].
  split; [apply Ha | apply Hc]; (concrete_wf || reflexivity).
Defined.

(** ** Sliding back, and the two variants side by side *)

(** X17: in [fifteen.js], after a slide that returned true, sliding the cell
    the blank came from returns true and restores the engine: board and
    cached coordinates are what they were. *)
Theorem adjacent_slide_back (p : Adjacent.Puzzle) (id : Z) (p' : Adjacent.Puzzle) :
  Adjacent.wf p -> Adjacent.slide p id = Ok (true, p') ->
  Adjacent.slide p' (Adjacent.blank_index p) = Ok (true, p).
Proof. apply adj_slide_undo. Qed.

Lemma adjacent_slide_back_witness :
  Adjacent.slide adj_slid_2 (Adjacent.blank_index adj_start_2) = Ok (true, adj_start_2).
Proof.
  apply (adjacent_slide_back adj_start_2 2 adj_slid_2); [concrete_wf | reflexivity].
Defined.

(** X18: in the later variant, after a chain slide that returned true,
    sliding the cell the blank came from returns true and restores the
    engine, however many tiles the first slide moved. *)
Theorem chain_slide_back (p : Chain.Puzzle) (i : Z) (p' : Chain.Puzzle) :
  Chain.wf p -> Chain.slide p i = Ok (true, p') ->
  Chain.slide p' (Chain._blank_i p) = Ok (true, p).
Proof. apply chain_slide_undo. Qed.

Lemma chain_slide_back_witness :
  Chain.slide (Chain.mkPuzzle 3 [0; 1; 8; 3; 4; 2; 6; 7; 5] 8) (Chain._blank_i chain_start_3)
  = Ok (true, chain_start_3).
Proof.
  apply (chain_slide_back chain_start_3 2); [concrete_wf | reflexivity].
Defined.

(** X19: on the same well-formed board, a target the single slide of
    [fifteen.js] accepts is accepted by the chain slide of the later variant,
    and the two leave the same board. *)
Theorem variants_agree_on_neighbours (pa : Adjacent.Puzzle) (pc : Chain.Puzzle) (id : Z)
    (pa' : Adjacent.Puzzle) :
  Adjacent.wf pa ->
  Chain.size pc = Adjacent.size pa -> Chain.board pc = Adjacent.board pa ->
  Chain.blank_val pc = Adjacent._blank_val pa ->
  Adjacent.slide pa id = Ok (true, pa') ->
  exists pc', Chain.slide pc id = Ok (true, pc') /\ Chain.board pc' = Adjacent.board pa'.
Proof. apply chain_adjacent_agree. Qed.

Lemma variants_agree_on_neighbours_witness :
  exists pc',
    Chain.slide chain_start_3 5 = Ok (true, pc') /\
    Chain.board pc' = [0; 1; 2; 3; 4; 8; 6; 7; 5].
Proof.
  apply (variants_agree_on_neighbours adj_start_3 chain_start_3 5
           (Adjacent.mkPuzzle 3 [0; 1; 2; 3; 4; 8; 6; 7; 5]
              [0; 1; 2; 3; 4; 5; 6; 7; 8] 8 2 1));
    (concrete_wf || reflexivity).
Defined.

(** ** The display of the later variant *)

(** X20: the display built for the engine a constructor returns draws every
    tile at the position where the board holds it: [squares[val].style.order]
    is [val] and the board holds [val] at [val]. *)
Theorem display_constructor_in_sync (n : Z) (p : Chain.Puzzle) :
  0 < n -> Chain.constructor n = Ok p ->
  Display.constructor p = Ok (Display.mkDisplay p (seqZ 0 (n * n))) /\
  Display.in_sync (Display.mkDisplay p (seqZ 0 (n * n))).
Proof. apply display_fresh. Qed.

Lemma display_constructor_in_sync_witness :
  Display.constructor chain_start_2 = Ok (Display.mkDisplay chain_start_2 (seqZ 0 (2 * 2))).
Proof.
  destruct (display_constructor_in_sync 2 chain_start_2) as [H _];
    [lia | reflexivity | exact H].
Defined.

(** X21: [updateDisplay()] on a well-formed engine, with one div per cell,
    returns and makes the orders the inverse of the board: whatever the
    orders were, afterwards the div of the tile the board holds at [i] has
    order [i]. *)
Theorem display_update_inverts_board (p : Chain.Puzzle) (sq : list Z) :
  Chain.wf p -> length sq = length (Chain.board p) ->
  exists sq',
    Display.updateDisplay p sq = Ok sq' /\
    length sq' = length sq /\
    forall (i : nat) (val : Z),
      Chain.board p !! i = Some val -> sq' !! Z.to_nat val = Some (Z.of_nat i).
Proof.
  intros Hwf Hlen.
  destruct (display_update_in_sync p sq Hwf Hlen) as (sq' & Hrun & Hl & Hsync).
  exists sq'. simpl in *. split; [done|]. split; [congruence|].
  intros i val Hi. by apply Hsync.
Qed.

Lemma display_update_inverts_board_witness :
  exists sq',
    Display.updateDisplay chain_shuffled_2 [0; 0; 0; 0] = Ok sq' /\
    length sq' = 4%nat /\
    forall (i : nat) (val : Z),
      [1; 2; 3; 0] !! i = Some val -> sq' !! Z.to_nat val = Some (Z.of_nat i).
Proof.
  apply (display_update_inverts_board chain_shuffled_2 [0; 0; 0; 0]).
  - unfold Chain.wf. simpl. split; [lia|].
    split; [change ([1; 2; 3; 0] ≡ₚ [0; 1; 2; 3]); concrete_perm | reflexivity].
  - reflexivity.
Defined.

Example display_update_run :
  Display.updateDisplay chain_shuffled_2 [0; 0; 0; 0] = Ok [3; 0; 1; 2].
Proof. reflexivity. Qed.

(** X22: [move(div)] on a display in step with a well-formed engine calls
    [slide] with the position the clicked tile is at, schedules the
    congratulation exactly when the slide returned true and the board is then
    solved, and leaves the display in step with the engine. *)
Theorem display_move_keeps_sync (d : Display.PuzzleDisplay) (val : Z) :
  Chain.wf (Display.puzzle d) -> Display.in_sync d ->
  0 <= val < Chain.size (Display.puzzle d) * Chain.size (Display.puzzle d) ->
  exists (i : nat) (moved : bool) (d' : Display.PuzzleDisplay),
    Chain.board (Display.puzzle d) !! i = Some val /\
    Chain.slide (Display.puzzle d) (Z.of_nat i) = Ok (moved, Display.puzzle d') /\
    Display.move d val = Ok (d', moved && Chain.solved (Display.puzzle d')) /\
    Display.in_sync d'.
Proof. apply display_move_in_sync. Qed.

Lemma display_move_keeps_sync_witness :
  exists (i : nat) (moved : bool) (d' : Display.PuzzleDisplay),
    Chain.board chain_start_3 !! i = Some 2 /\
    Chain.slide chain_start_3 (Z.of_nat i) = Ok (moved, Display.puzzle d') /\
    Display.move (Display.mkDisplay chain_start_3 (seqZ 0 9)) 2
    = Ok (d', moved && Chain.solved (Display.puzzle d')) /\
    Display.in_sync d'.
Proof.
  apply (display_move_keeps_sync (Display.mkDisplay chain_start_3 (seqZ 0 9)) 2).
  - concrete_wf.
  - apply (display_fresh 3 chain_start_3); [lia | reflexivity].
  - simpl. lia.
Defined.

Example display_move_run :
  Display.move (Display.mkDisplay chain_start_3 (seqZ 0 9)) 2 =
    Ok (Display.mkDisplay (Chain.mkPuzzle 3 [0; 1; 8; 3; 4; 2; 6; 7; 5] 8)
          [0; 1; 5; 3; 4; 8; 6; 7; 2], false).
Proof. reflexivity. Qed.

(** X23: [randomize()] of the display, when the engine's [randomize()]
    returns, returns with that engine and leaves the display in step with
    it. *)
Theorem display_randomize_keeps_sync (fuel : nat) (rnd : random_source) (k : nat)
    (d : Display.PuzzleDisplay) (p' : Chain.Puzzle) (k' : nat) :
  Chain.wf (Display.puzzle d) ->
  length (Display.squares d) = length (Chain.board (Display.puzzle d)) ->
  Chain.randomize fuel rnd k (Display.puzzle d) = Ok (p', k') ->
  exists sq',
    Display.randomize fuel rnd k d = Ok (Display.mkDisplay p' sq', k') /\
    Display.in_sync (Display.mkDisplay p' sq').
Proof. apply display_randomize_in_sync. Qed.

Lemma display_randomize_keeps_sync_witness :
  exists sq',
    Display.randomize 2 square_source 0 (Display.mkDisplay chain_start_2 [0; 1; 2; 3])
    = Ok (Display.mkDisplay (Chain.mkPuzzle 2 [3; 0; 2; 1] 3) sq', 8%nat) /\
    Display.in_sync (Display.mkDisplay (Chain.mkPuzzle 2 [3; 0; 2; 1] 3) sq').
Proof.
  apply (display_randomize_keeps_sync 2 square_source 0
           (Display.mkDisplay chain_start_2 [0; 1; 2; 3])).
  - concrete_wf.
  - reflexivity.
  - reflexivity.
Defined.

(** ** [redWhiteStyle] *)

(** X24: [redWhiteStyle] paints a checkerboard, for even and for odd sizes:
    the tile whose home cell is [(x, y)] gets the class "square tile red" when
    [x + y] is even and "square tile white" when it is odd, so two tiles
    whose home cells are next to each other in a row or a column get
    different classes; the text is [tileId + 1]. *)
Theorem redWhiteStyle_checkerboard (size t1 t2 : Z) :
  0 < size -> 0 <= t1 -> 0 <= t2 ->
  (redWhiteStyle size t1).1
  = (if Z.even (coord_x size t1 + coord_y size t1)
     then "square tile red"%string else "square tile white"%string) /\
  (redWhiteStyle size t1).2 = t1 + 1 /\
  ((coord_x size t1 = coord_x size t2 /\ Z.abs (coord_y size t1 - coord_y size t2) = 1) \/
   (coord_y size t1 = coord_y size t2 /\ Z.abs (coord_x size t1 - coord_x size t2) = 1) ->
   (redWhiteStyle size t1).1 <> (redWhiteStyle size t2).1).
Proof.
  intros Hs H1 H2. split; [by apply redWhiteStyle_parity|]. split; [done|].
  intros Hadj. rewrite !redWhiteStyle_parity by done.
  assert (Z.even (coord_x size t1 + coord_y size t1)
          = negb (Z.even (coord_x size t2 + coord_y size t2))) as ->.
  { replace (coord_x size t1 + coord_y size t1)
      with (coord_x size t2 + coord_y size t2
            + ((coord_x size t1 - coord_x size t2) + (coord_y size t1 - coord_y size t2)))
      by lia.
    rewrite Z.even_add.
    assert (Z.even ((coord_x size t1 - coord_x size t2)
                    + (coord_y size t1 - coord_y size t2)) = false) as ->.
    { destruct Hadj as [[-> Hy]|[-> Hx]]; rewrite Z.sub_diag, ?Z.add_0_l, ?Z.add_0_r.
      - destruct (Z.abs_spec (coord_y size t1 - coord_y size t2)) as [[_ E]|[_ E]];
          rewrite E in Hy; [by rewrite Hy|].
        replace (coord_y size t1 - coord_y size t2) with (-1) by lia. done.
      - destruct (Z.abs_spec (coord_x size t1 - coord_x size t2)) as [[_ E]|[_ E]];
          rewrite E in Hx; [by rewrite Hx|].
        replace (coord_x size t1 - coord_x size t2) with (-1) by lia. done. }
    by destruct (Z.even (coord_x size t2 + coord_y size t2)). }
  by destruct (Z.even (coord_x size t2 + coord_y size t2)).
Qed.

Lemma redWhiteStyle_checkerboard_witness :
  (redWhiteStyle 4 5).1 <> (redWhiteStyle 4 9).1 /\ (redWhiteStyle 4 5).2 = 6.
Proof.
  destruct (redWhiteStyle_checkerboard 4 5 9) as (_ & Htext & Hdiff); [lia..|].
  split; [|exact Htext]. apply Hdiff. left. vm_compute. split; reflexivity.
Defined.
